(** * Verification of [config/config.go] (package [config] of the drive client)

    The Go package resolves a working directory into a context (marker
    directory [.gd], credentials, index cache) and builds an overlay of
    symbolic links under a mount root.  This development embeds its
    functions shallowly: Go strings are [string] (byte sequences), structs are
    records, [error] values are an inductive type, and every function that
    touches the file system takes the file-system state and returns the new
    one.  The operating system itself is an interface ([Class OS]); the
    theorems about the package hold for every implementation of it, and
    [Module SimFS] gives an executable one (a tree of directories, regular
    files and symbolic links with POSIX path resolution) on which the
    functions are run. *)

From Stdlib Require Import ZArith Ascii String List Lia Bool.
From stdpp Require Import base option list gmap strings.

Local Open Scope Z_scope.
Local Open Scope nat_scope.

(* ===================================================================== *)
(** * Go strings and the [strings], [path], [path/filepath] functions used *)
(* ===================================================================== *)

Module GoString.

Definition bytes (s : string) : list ascii := list_ascii_of_string s.
Definition ofBytes (l : list ascii) : string := string_of_list_ascii l.

Fixpoint dropWhile {A} (f : A → bool) (l : list A) : list A :=
  match l with
  | [] => []
  | x :: t => if f x then dropWhile f t else l
  end.

Fixpoint takeWhile {A} (f : A → bool) (l : list A) : list A :=
  match l with
  | [] => []
  | x :: t => if f x then x :: takeWhile f t else []
  end.

Definition inCutset (cutset : string) (c : ascii) : bool :=
  existsb (Ascii.eqb c) (bytes cutset).

(** [os.IsPathSeparator] on Unix. *)
Definition IsPathSeparator (c : ascii) : bool := Ascii.eqb c "/".
Definition notSeparator (c : ascii) : bool := negb (IsPathSeparator c).

(** [strings.TrimRight(s, cutset)]: [s] without its trailing bytes that
    occur in [cutset] (the cutsets used here are ASCII). *)
Definition strings_TrimRight (s cutset : string) : string :=
  ofBytes (rev (dropWhile (inCutset cutset) (rev (bytes s)))).

(** [strings.HasPrefix]. *)
Definition strings_HasPrefix (s pre : string) : bool := String.prefix pre s.

(** [strings.Join(elems, sep)]. *)
Fixpoint strings_Join (elems : list string) (sep : string) : string :=
  match elems with
  | [] => ""
  | [e] => e
  | e :: rest => e +:+ sep +:+ strings_Join rest sep
  end.

(** [filepath.Split]: scans backwards to the last separator and returns
    everything up to and including it, and the rest. *)
Definition filepath_Split (path : string) : string * string :=
  let r := rev (bytes path) in
  (ofBytes (rev (dropWhile notSeparator r)),
   ofBytes (rev (takeWhile notSeparator r))).

(** [filepath.Base]: the last element of the path, trailing separators
    removed first; ["."] for the empty path, ["/"] for a path of
    separators only. *)
Definition filepath_Base (path : string) : string :=
  if decide (path = "") then "."
  else
    let stripped := dropWhile IsPathSeparator (rev (bytes path)) in
    let last := rev (takeWhile notSeparator stripped) in
    match last with
    | [] => "/"
    | _ => ofBytes last
    end.

(** Splits at every occurrence of [sep]; ["a//b"] gives ["a"; ""; "b"]. *)
Fixpoint splitOn (sep : ascii) (s : string) : list string :=
  match s with
  | EmptyString => [""]
  | String c s' =>
      if Ascii.eqb c sep then "" :: splitOn sep s'
      else match splitOn sep s' with
           | [] => [String c ""]
           | w :: ws => String c w :: ws
           end
  end.

(** The element stack of [path.Clean]: empty and ["."] elements are
    dropped, [".."] removes the element before it, is dropped at the root
    and is kept at the front of a relative path.  [out] is the stack, top
    first. *)
Fixpoint cleanElems (rooted : bool) (elems out : list string) : list string :=
  match elems with
  | [] => rev out
  | e :: rest =>
      if decide (e = "") then cleanElems rooted rest out
      else if decide (e = ".") then cleanElems rooted rest out
      else if decide (e = "..") then
        match out with
        | top :: out' =>
            if decide (top = "..") then cleanElems rooted rest (".." :: out)
            else cleanElems rooted rest out'
        | [] =>
            if rooted then cleanElems rooted rest []
            else cleanElems rooted rest [".."]
        end
      else cleanElems rooted rest (e :: out)
  end.

(** [path.Clean] (and [filepath.Clean] on Unix). *)
Definition path_Clean (p : string) : string :=
  if decide (p = "") then "."
  else
    let rooted := strings_HasPrefix p "/" in
    let body := strings_Join (cleanElems rooted (splitOn "/" p) []) "/" in
    let out := if rooted then "/" +:+ body else body in
    if decide (out = "") then "." else out.

(** [path.Join] (and [filepath.Join] on Unix): the non-empty elements
    joined with a separator and cleaned; the empty string when there is
    none. *)
Definition path_Join (elem : list string) : string :=
  match filter (λ e, e ≠ "") elem with
  | [] => ""
  | nonempty => path_Clean (strings_Join nonempty "/")
  end.

Definition filepath_Join := path_Join.

End GoString.
Export GoString.


(* ===================================================================== *)
(** * Errors, results and the operating-system interface *)
(* ===================================================================== *)

(** The system error numbers that the calls of this package can meet. *)
Inductive Errno :=
  | ENOENT | EEXIST | ENOTDIR | EISDIR | ENOTEMPTY
  | EACCES | ELOOP | EINVAL | ENAMETOOLONG | EIO.

(** Go [error] values: the [*os.PathError] and [*os.LinkError] of the [os]
    calls, the string errors of [errors.New] and [fmt.Errorf], and the errors
    of [encoding/json]. *)
Inductive error :=
  | PathError (op path : string) (e : Errno)
  | LinkError (op old new : string) (e : Errno)
  | errorString (s : string)
  | jsonError (s : string).

Global Instance Errno_eq_dec : EqDecision Errno.
Proof. solve_decision. Defined.
Global Instance error_eq_dec : EqDecision error.
Proof. solve_decision. Defined.

Definition underlyingErrno (e : error) : option Errno :=
  match e with
  | PathError _ _ n => Some n
  | LinkError _ _ _ n => Some n
  | _ => None
  end.

(** [os.IsNotExist]: the underlying error number is [ENOENT]. *)
Definition os_IsNotExist (e : error) : bool :=
  match underlyingErrno e with
  | Some ENOENT => true
  | _ => false
  end.

(** [os.IsExist]: the underlying error number is [EEXIST] or [ENOTEMPTY]. *)
Definition os_IsExist (e : error) : bool :=
  match underlyingErrno e with
  | Some EEXIST | Some ENOTEMPTY => true
  | _ => false
  end.

(** A Go call returning [(T, error)] with the usual contract: exactly one
    of the two is non-nil.  [val] and [err] are the two returned values. *)
Inductive result (A : Type) :=
  | Ok (a : A)
  | Err (e : error).
Arguments Ok {A} a.
Arguments Err {A} e.

Definition val {A} (r : result A) : option A :=
  match r with Ok a => Some a | Err _ => None end.
Definition err {A} (r : result A) : option error :=
  match r with Ok _ => None | Err e => Some e end.

(** [os.FileInfo], as far as the package looks at it. *)
Record FileInfo := mkFileInfo { IsDir : bool }.

(** [os.FileMode] bits. *)
Definition os_ModeDir : Z := Z.shiftl 1 31.
Definition perm_0755 : Z := 493.
Definition perm_0600 : Z := 384.

(** The calls of [os] and [io/ioutil] that the package makes.  [FS] is the
    state of the file system; a call that can change it returns the new
    state next to its error. *)
Class OS := {
  FS : Type;
  os_Stat : FS → string → result FileInfo;
  os_MkdirAll : FS → string → Z → FS * option error;
  os_Symlink : FS → string → string → FS * option error;
  os_RemoveAll : FS → string → FS * option error;
  ioutil_ReadFile : FS → string → result string;
  ioutil_WriteFile : FS → string → string → Z → FS * option error;
}.

(** What the statements about created directories and about reading back
    a written file rely on.  A successful [os.MkdirAll] leaves a directory at
    its path.  [sameFile fs p q]: the paths [p] and [q] name one existing
    file in [fs] (what [os.SameFile] tells of their [FileInfo]s).  A
    successful write is read back, and a write leaves a readable file that it
    does not name as it was. *)
Class OSLaws `{os : OS} := {
  MkdirAll_directory :
    ∀ fs p perm fs',
      os_MkdirAll fs p perm = (fs', None) →
      ∃ i, os_Stat fs' p = Ok i ∧ IsDir i = true;
  sameFile : FS → string → string → Prop;
  ReadFile_WriteFile :
    ∀ fs p data perm fs',
      ioutil_WriteFile fs p data perm = (fs', None) →
      ioutil_ReadFile fs' p = Ok data;
  ReadFile_WriteFile_other :
    ∀ fs p q data perm fs' e old,
      ioutil_WriteFile fs q data perm = (fs', e) →
      ioutil_ReadFile fs p = Ok old →
      ¬ sameFile fs p q →
      ioutil_ReadFile fs' p = Ok old;
}.

(* ===================================================================== *)
(** * The data model of the package *)
(* ===================================================================== *)

Definition GDDirSuffix : string := ".gd".
(** [fmt.Sprintf("%c", os.PathSeparator)] *)
Definition PathSeparator : string := "/".

Module Context.
Record t := mk {
  ClientId : string;
  ClientSecret : string;
  RefreshToken : string;
  AbsPath : string;
}.
End Context.

Module Index.
Record t := mk {
  FileId : string;
  Etag : string;
  Md5Checksum : string;
  MimeType : string;
  ModTime : Z;
  Version : Z;
  Remote : bool;
}.
End Index.

Module IndexFile.
(** A nil slice and an empty one are both the empty list. *)
Record t := mk {
  Name : string;
  Index : list Index.t;
}.
Definition zero : t := mk "" [].
End IndexFile.

Module MountPoint.
Record t := mk {
  CanClean : bool;
  Name : string;
  AbsPath : string;
  MountPath : string;
}.
End MountPoint.

Module Mount.
Record t := mk {
  CreatedMountDir : string;
  ShortestMountRoot : string;
  Points : list MountPoint.t;
}.
End Mount.

Global Instance MountPoint_eq_dec : EqDecision MountPoint.t.
Proof. solve_decision. Defined.
Global Instance Mount_eq_dec : EqDecision Mount.t.
Proof. solve_decision. Defined.
Global Instance Index_eq_dec : EqDecision Index.t.
Proof. solve_decision. Defined.
Global Instance IndexFile_eq_dec : EqDecision IndexFile.t.
Proof. solve_decision. Defined.

(** Step 1 of [MountPoints], up to the declaration of [mtPoints]: either
    the function has returned ([RootAbort], with the [sources] it returns),
    or it goes on with [createdMountDir], [shortestMountRoot] and
    [sources].  [S] is the type of file-system states. *)
Inductive RootPrep (S : Type) :=
  | RootAbort (sources : list string) (fs : S)
  | RootReady (createdMountDir : bool) (shortestMountRoot : string)
              (sources : list string) (fs : S).
Arguments RootAbort {S} sources fs.
Arguments RootReady {S} createdMountDir shortestMountRoot sources fs.

(** The variables of the loop over [paths] in [MountPoints]. *)
Record LoopState (S : Type) := mkLoop {
  loopFS : S;
  visitors : gmap string bool;
  mtPoints : list MountPoint.t;
}.
Arguments mkLoop {S} loopFS visitors mtPoints.
Arguments loopFS {S} l.
Arguments visitors {S} l.
Arguments mtPoints {S} l.

(** [encoding/json] on the two persisted records.  [Unmarshal] fills the
    record it is given and returns it with the error. *)
Class JSON := {
  json_MarshalContext : Context.t → result string;
  json_UnmarshalContext : string → Context.t → Context.t * option error;
  json_MarshalIndexFile : IndexFile.t → result string;
  json_UnmarshalIndexFile : string → IndexFile.t → IndexFile.t * option error;
}.

(** Further laws of the calls, for the statements about [Initialize],
    [Discover] and tearing a Mount down.

    [StatLaws]: the empty path names nothing, and writing a file leaves a
    directory a directory.

    [LinkLaws]: [intact fs] says that [fs] is a consistent file system
    (every entry lies in a directory).  A failed [os.Symlink] changes
    nothing; after a successful one the link path is taken, so that a second
    [os.Symlink] onto it fails with an error that [os.IsExist] accepts, and
    [os.RemoveAll] of the link path gives the file system back as it was.

    [JSONLaws]: [Unmarshal] leaves the field [AbsPath], which is tagged
    [json:"-"], as it is. *)
Class StatLaws `{os : OS} := {
  Stat_empty_path : ∀ fs, val (os_Stat fs "") = None;
  Stat_dir_WriteFile :
    ∀ fs p q data perm fs' e i,
      ioutil_WriteFile fs q data perm = (fs', e) →
      os_Stat fs p = Ok i → IsDir i = true →
      os_Stat fs' p = Ok i;
}.

Class LinkLaws `{os : OS} := {
  intact : FS → Prop;
  Symlink_intact :
    ∀ fs old new fs' e,
      intact fs → os_Symlink fs old new = (fs', e) → intact fs';
  Symlink_error_keeps :
    ∀ fs old new fs' e,
      os_Symlink fs old new = (fs', Some e) → fs' = fs;
  Symlink_again :
    ∀ fs old new fs' old',
      old' ≠ "" →
      os_Symlink fs old new = (fs', None) →
      ∃ e, os_Symlink fs' old' new = (fs', Some e) ∧ os_IsExist e = true;
  RemoveAll_Symlink :
    ∀ fs old new fs',
      intact fs →
      os_Symlink fs old new = (fs', None) →
      os_RemoveAll fs' new = (fs, None);
}.

Class JSONLaws `{json : JSON} := {
  Unmarshal_keeps_AbsPath :
    ∀ data c,
      Context.AbsPath (json_UnmarshalContext data c).1 = Context.AbsPath c;
}.

(* ===================================================================== *)
(** * The functions of [config.go] *)
(* ===================================================================== *)

(** The functions of the file, in the order of the file but for
    [Discover], which comes after the functions it calls. *)
Section Config.
Context `{os : OS} `{json : JSON}.

(** ** Paths under the marker directory *)

Definition gdPath (absPath : string) : string :=
  path_Join [absPath; GDDirSuffix].

Definition credentialsPath (absPath : string) : string :=
  path_Join [gdPath absPath; "credentials.json"].

Definition indicesAbsPath (absPath : string) : string :=
  path_Join [gdPath absPath; "indices"].

(** ** MountPoint.mounted, MountPoint.Unmount *)

Definition mounted (mpt : MountPoint.t) : bool := MountPoint.CanClean mpt.

Definition Unmount (mpt : MountPoint.t) (fs : FS) : FS * option error :=
  if mounted mpt then os_RemoveAll fs (MountPoint.MountPath mpt)
  else (fs, None).

(** ** Context.AbsPathOf, ReadIndices, WriteIndices, Write *)

Definition AbsPathOf (c : Context.t) (fileOrDirPath : string) : string :=
  path_Join [Context.AbsPath c; fileOrDirPath].

Definition ReadIndices (c : Context.t) (p : string) (fs : FS)
  : option IndexFile.t * option error :=
  match ioutil_ReadFile fs (indicesAbsPath (Context.AbsPath c)) with
  | Err e => (None, Some e)
  | Ok data =>
      let index := IndexFile.zero in
      let '(index, e) := json_UnmarshalIndexFile data index in
      (Some index, e)
  end.

Definition WriteIndices (c : Context.t) (index : IndexFile.t) (p : string)
  (fs : FS) : FS * option error :=
  match json_MarshalIndexFile index with
  | Err e => (fs, Some e)
  | Ok data => ioutil_WriteFile fs (indicesAbsPath p) data perm_0600
  end.

Definition Write (c : Context.t) (fs : FS) : FS * option error :=
  match json_MarshalContext c with
  | Err e => (fs, Some e)
  | Ok data =>
      ioutil_WriteFile fs (credentialsPath (Context.AbsPath c)) data perm_0600
  end.

(** [Context.Read] fills its receiver: the record after the call and the
    error. *)
Definition Read (c : Context.t) (fs : FS) : Context.t * option error :=
  match ioutil_ReadFile fs (credentialsPath (Context.AbsPath c)) with
  | Err e => (c, Some e)
  | Ok data => json_UnmarshalContext data c
  end.

(** ** Discover *)

(** The test [e == nil && info.IsDir()] on the marker directory of [p]. *)
Definition markerFound (fs : FS) (p : string) : bool :=
  let sr := os_Stat fs (gdPath p) in
  match err sr, val sr with
  | None, Some info => IsDir info
  | _, _ => false
  end.

(** [path.Join(p, "..")], the next path of the loop. *)
Definition upOf (p : string) : string := path_Join [p; ".."].

(** The loop [for { ... }] of [Discover]: the values of [p] and [found]
    when it ends.  The loop has no bound of its own; [None] says that [fuel]
    passes were not enough. *)
Fixpoint discoverLoop (fuel : nat) (fs : FS) (p : string)
  : option (string * bool) :=
  match fuel with
  | O => None
  | S fuel' =>
      if markerFound fs p then Some (p, true)             (* found; break *)
      else
        let newPath := upOf p in
        if decide (p = newPath) then Some (p, false)      (* break *)
        else discoverLoop fuel' fs newPath
  end.

Definition ErrNoContext : error :=
  errorString "no gd context is found; use gd init".

(** [Discover], for a loop that ends within [fuel] passes. *)
Definition Discover (fuel : nat) (currentAbsPath : string) (fs : FS)
  : option (option Context.t * option error) :=
  match discoverLoop fuel fs currentAbsPath with
  | None => None
  | Some (p, found) =>
      if negb found then Some (None, Some ErrNoContext)
      else
        let context := Context.mk "" "" "" p in
        let '(context, e) := Read context fs in
        Some (Some context, e)
  end.

(** ** Initialize *)

(** The four results [(pathGD, firstInit, c, err)]. *)
Record InitResult := mkInit {
  pathGD : string;
  firstInit : bool;
  initContext : option Context.t;
  initErr : option error;
}.

Definition Initialize (absPath : string) (fs : FS) : InitResult * FS :=
  let pathGD := gdPath absPath in
  let st := os_Stat fs pathGD in
  let sInfo := val st in
  let sErr := err st in
  (* the three ways through [if sErr != nil { ... }] *)
  let afterStat : option bool :=          (* [None]: the bare return *)
    match sErr with
    | None => Some false
    | Some e =>
        if os_IsNotExist e then Some true
        else if negb (os_IsExist e) then None
        else Some false
    end in
  match afterStat with
  | None => (mkInit pathGD false None None, fs)
  | Some firstInit =>
      let notDir :=                       (* [sInfo != nil && !sInfo.IsDir()] *)
        match sInfo with
        | Some info => negb (IsDir info)
        | None => false
        end in
      if notDir then
        (mkInit pathGD firstInit None
           (Some (errorString (pathGD +:+ " is not a directory"))), fs)
      else
        let '(fs1, mkErr) := os_MkdirAll fs pathGD perm_0755 in
        match mkErr with
        | Some e => (mkInit pathGD firstInit None (Some e), fs1)
        | None =>
            let c := Context.mk "" "" "" absPath in
            let '(fs2, wErr) := Write c fs1 in
            (mkInit pathGD firstInit (Some c) wErr, fs2)
        end
  end.

(** ** LeastNonExistantRoot *)

(** One pass of the loop body moves [p] to
    [filepath.Split(strings.TrimRight(p, PathSeparator))]'s directory. *)
Definition parentOf (p : string) : string :=
  fst (filepath_Split (strings_TrimRight p PathSeparator)).

(** The loop [for p != "" { ... }] with its two variables.  Every pass
    shortens [p], so [fuel] passes are enough when [fuel] exceeds the length
    of [p] ([lnerLoop_runs] below: the run is a run of the Go loop). *)
Fixpoint lnerLoop (fuel : nat) (fs : FS) (last p : string) : string :=
  match fuel with
  | O => last
  | S fuel' =>
      if decide (p = "") then last
      else
        match val (os_Stat fs p) with
        | Some _ => last                                  (* break *)
        | None => lnerLoop fuel' fs p (parentOf p)
        end
  end.

Definition LeastNonExistantRoot (fs : FS) (contextAbsPath : string) : string :=
  lnerLoop (S (String.length contextAbsPath)) fs "" contextAbsPath.

(** The Go loop as a relation: from the variables [(last, p)] it ends
    with the value of [last] that is returned. *)
Inductive lnerRun (fs : FS) : string → string → string → Prop :=
  | lnerRun_empty last :
      lnerRun fs last "" last
  | lnerRun_break last p fInfo :
      p ≠ "" → val (os_Stat fs p) = Some fInfo →
      lnerRun fs last p last
  | lnerRun_next last p r :
      p ≠ "" → val (os_Stat fs p) = None →
      lnerRun fs p (parentOf p) r →
      lnerRun fs last p r.

(** ** MountPoints *)

(** The line that [fmt.Printf] writes when [os.MkdirAll] fails goes to
    standard output and is not part of the state. *)
Definition prepareRoot (contextAbsPath : string) (fs : FS) : RootPrep FS :=
  match err (os_Stat fs contextAbsPath) with
  | None => RootReady false "" [] fs
  | Some fErr =>
      if negb (os_IsNotExist fErr) then RootAbort [] fs
      else
        let sRoot := LeastNonExistantRoot fs contextAbsPath in
        let '(shortestMountRoot, sources) :=
          if decide (sRoot ≠ "") then (sRoot, [] ++ [sRoot]) else ("", []) in
        let '(fs1, mkErr) :=
          os_MkdirAll fs contextAbsPath (Z.lor os_ModeDir perm_0755) in
        match mkErr with
        | Some _ => RootAbort sources fs1
        | None => RootReady true shortestMountRoot sources fs1
        end
  end.

(** One pass of [for _, path := range paths]. *)
Definition mountStep (contextPath contextAbsPath : string) (hidden : bool)
  (st : LoopState FS) (path : string) : LoopState FS :=
  match visitors st !! path with
  | Some _ => st                                    (* visited: continue *)
  | None =>
      let visitors' := <[path := true]> (visitors st) in
      let skip fs := mkLoop fs visitors' (mtPoints st) in
      let sr := os_Stat (loopFS st) path in
      if bool_decide (is_Some (err sr)) || bool_decide (val sr = None)
      then skip (loopFS st)
      else
        let base := filepath_Base path in
        if negb hidden && strings_HasPrefix base "."
        then skip (loopFS st)
        else
          let mountPath := filepath_Join [contextAbsPath; base] in
          let '(fs1, lErr) := os_Symlink (loopFS st) path mountPath in
          let canClean : option bool :=               (* [None]: continue *)
            match lErr with
            | None => Some true
            | Some e => if negb (os_IsExist e) then None else Some false
            end in
          match canClean with
          | None => skip fs1
          | Some canClean =>
              let relPath :=
                if decide (contextPath = "")
                then strings_Join [""; base] "/"
                else strings_Join [""; contextPath; base] "/" in
              mkLoop fs1 visitors'
                (mtPoints st ++
                 [MountPoint.mk canClean relPath path mountPath])
          end
  end.

Definition mountLoop (contextPath contextAbsPath : string) (hidden : bool)
  (paths : list string) (st : LoopState FS) : LoopState FS :=
  fold_left (mountStep contextPath contextAbsPath hidden) paths st.

Definition MountPoints (contextPath contextAbsPath : string)
  (paths : list string) (hidden : bool) (fs : FS)
  : (option Mount.t * list string) * FS :=
  match prepareRoot contextAbsPath fs with
  | RootAbort sources fs1 => ((None, sources), fs1)
  | RootReady createdMountDir shortestMountRoot sources fs1 =>
      let st := mountLoop contextPath contextAbsPath hidden paths
                  (mkLoop fs1 ∅ []) in
      let mount :=
        if decide (1 ≤ length (mtPoints st)) then
          Some (if createdMountDir
                then Mount.mk contextAbsPath shortestMountRoot (mtPoints st)
                else Mount.mk "" "" (mtPoints st))
        else None in
      ((mount, sources), loopFS st)
  end.

(** The MountPoints that a call produces: those the loop has appended
    when it ends, none when the call returns before the loop. *)
Definition producedPoints (contextPath contextAbsPath : string)
  (paths : list string) (hidden : bool) (fs : FS) : list MountPoint.t :=
  match prepareRoot contextAbsPath fs with
  | RootAbort _ _ => []
  | RootReady _ _ _ fs1 =>
      mtPoints (mountLoop contextPath contextAbsPath hidden paths
                  (mkLoop fs1 ∅ []))
  end.

End Config.

(* ===================================================================== *)
(** * Vocabulary for the statements about the package *)
(* ===================================================================== *)

Section Vocabulary.
Context `{os : OS}.

(** What the code takes for existence: [os.Stat] returns a [FileInfo]. *)
Definition statExists (fs : FS) (p : string) : Prop :=
  val (os_Stat fs p) ≠ None.

Global Instance statExists_dec fs p : Decision (statExists fs p).
Proof. unfold statExists. apply _. Defined.

(** [os.Stat] finds a directory. *)
Definition statIsDir (fs : FS) (p : string) : Prop :=
  ∃ i, os_Stat fs p = Ok i ∧ IsDir i = true.

(** The [k]-th path that the loop visits. *)
Definition ancestor (k : nat) (p : string) : string := Nat.iter k parentOf p.

Variables (contextPath contextAbsPath : string) (hidden : bool).

(** The link path and the name that a pass gives to [path]. *)
Definition mountPathOf (path : string) : string :=
  filepath_Join [contextAbsPath; filepath_Base path].

Definition relPathOf (path : string) : string :=
  if decide (contextPath = "")
  then strings_Join [""; filepath_Base path] "/"
  else strings_Join [""; contextPath; filepath_Base path] "/".

(** The fields of a MountPoint as the loop fills them for its source. *)
Definition wellNamed (mp : MountPoint.t) : Prop :=
  MountPoint.Name mp = relPathOf (MountPoint.AbsPath mp) ∧
  MountPoint.MountPath mp = mountPathOf (MountPoint.AbsPath mp).

(** The hidden-entry filter of a pass. *)
Definition hiddenSkips (path : string) : bool :=
  negb hidden && strings_HasPrefix (filepath_Base path) ".".

(** Whether a pass over a path not yet visited appends a MountPoint:
    the source is found, the hidden filter lets it through, and the link is
    created or the error says that the link path exists. *)
Definition yieldsPoint (st : LoopState FS) (path : string) : bool :=
  match val (os_Stat (loopFS st) path) with
  | Some _ => true
  | None => false
  end &&
  negb (hiddenSkips path) &&
  match (os_Symlink (loopFS st) path (mountPathOf path)).2 with
  | None => true
  | Some e => os_IsExist e
  end.

(** The state in which the loop reaches the path that follows [pre], when
    the call gets as far as the loop. *)
Definition stateBefore (pre : list string) (fs : FS) : option (LoopState FS) :=
  match prepareRoot contextAbsPath fs with
  | RootAbort _ _ => None
  | RootReady _ _ _ fs1 =>
      Some (mountLoop contextPath contextAbsPath hidden pre (mkLoop fs1 ∅ []))
  end.

(** The MountPoints of a source path in a list of MountPoints. *)
Definition pointsFor (p : string) (l : list MountPoint.t) : list MountPoint.t :=
  filter (λ mp, MountPoint.AbsPath mp = p) l.

(** [Unmount] on each MountPoint of a list in turn, as a caller tears a
    Mount down: the file system at the end and the errors met. *)
Fixpoint unmountAll (l : list MountPoint.t) (fs : FS) : FS * list error :=
  match l with
  | [] => (fs, [])
  | mp :: l' =>
      let '(fs1, e) := Unmount mp fs in
      let '(fs2, es) := unmountAll l' fs1 in
      (fs2, option_list e ++ es)
  end.

(** The [k]-th path that the loop of [Discover] visits. *)
Definition upPath (k : nat) (p : string) : string := Nat.iter k upOf p.

(** A path that begins with a separator. *)
Definition rooted (p : string) : bool := strings_HasPrefix p "/".

(** A path element that names an entry: not empty, not ["."] or [".."],
    and without a separator. *)
Definition properName (e : string) : Prop :=
  e ≠ "" ∧ e ≠ "." ∧ e ≠ ".." ∧ Forall (λ c, IsPathSeparator c = false) (bytes e).

(** A string without a separator. *)
Definition sepFree (e : string) : Prop :=
  Forall (λ c, IsPathSeparator c = false) (bytes e).

(** The elements of a cleaned path, first to last: [".."] elements, none in
    a rooted path, and then names. *)
Definition cleanList (isRooted : bool) (R : list string) : Prop :=
  ∃ dots names,
    R = dots ++ names ∧ Forall (λ e, e = "..") dots ∧
    Forall properName names ∧ (isRooted = true → dots = []).

(** What [path.Clean] writes for the elements it has kept. *)
Definition render (isRooted : bool) (R : list string) : string :=
  let body := strings_Join R "/" in
  let out := if isRooted then "/" +:+ body else body in
  if decide (out = "") then "." else out.

(** The elements kept after a [".."] element has come. *)
Definition upList (isRooted : bool) (R : list string) : list string :=
  match rev R with
  | top :: out' => if decide (top = "..") then R ++ [".."] else rev out'
  | [] => if isRooted then [] else [".."]
  end.

End Vocabulary.

(* ===================================================================== *)
(** * An executable file system *)
(* ===================================================================== *)

(** A POSIX-like file system to run the package on: directories, regular
    files and symbolic links, each entry under the list of element names that
    leads to it from the root.  The root always exists and is the working
    directory; permissions are not modelled (no call fails with [EACCES]
    here; the theorems over [OS] cover implementations where they do). *)
Module SimFS.

Inductive node :=
  | Dir
  | File (data : string)
  | Link (target : string).

Global Instance node_eq_dec : EqDecision node.
Proof. solve_decision. Defined.

(** The entries, by key; a key occurs once. *)
Record tree := Tree { entries : list (list string * node) }.

Global Instance tree_eq_dec : EqDecision tree.
Proof. solve_decision. Defined.

Fixpoint entryAt (k : list string) (l : list (list string * node))
  : option node :=
  match l with
  | [] => None
  | (k', n) :: l' => if decide (k' = k) then Some n else entryAt k l'
  end.

Fixpoint setEntry (k : list string) (n : node)
  (l : list (list string * node)) : list (list string * node) :=
  match l with
  | [] => [(k, n)]
  | (k', n') :: l' =>
      if decide (k' = k) then (k, n) :: l' else (k', n') :: setEntry k n l'
  end.

Global Instance tree_lookup : Lookup (list string) node tree :=
  λ k t, entryAt k (entries t).
Global Instance tree_insert : Insert (list string) node tree :=
  λ k n t, Tree (setEntry k n (entries t)).

(** Where the resolution of a path ends: at an entry, or in an existing
    directory that lacks the last element. *)
Inductive located :=
  | Found (key : list string) (n : node)
  | Missing (dir : list string) (name : string).

Definition endsWithSeparator (p : string) : bool :=
  match rev (bytes p) with
  | c :: _ => IsPathSeparator c
  | [] => false
  end.

(** The elements of a path; a trailing separator stands for a final
    ["."], which only a directory can resolve. *)
Definition pathElems (p : string) : list string :=
  filter (λ e, e ≠ "") (splitOn "/" p) ++
  (if endsWithSeparator p then ["."] else []).

Definition isAbs (p : string) : bool := strings_HasPrefix p "/".

(** Path resolution from the directory [cur] over the elements [todo].
    [links] bounds the symbolic links followed ([ELOOP] beyond); [follow]
    says whether a link in the last position is followed. *)
Fixpoint walk (links : nat) (t : tree) (follow : bool)
  : list string → list string → Errno + located :=
  fix go (cur todo : list string) {struct todo} : Errno + located :=
    match todo with
    | [] => inr (Found cur Dir)
    | e :: rest =>
        if decide (e = ".") then go cur rest
        else if decide (e = "..") then go (removelast cur) rest
        else
          match t !! (cur ++ [e]) with
          | None =>
              match rest with
              | [] => inr (Missing cur e)
              | _ => inl ENOENT
              end
          | Some Dir => go (cur ++ [e]) rest
          | Some (File d) =>
              match rest with
              | [] => inr (Found (cur ++ [e]) (File d))
              | _ => inl ENOTDIR
              end
          | Some (Link target) =>
              if bool_decide (rest = []) && negb follow
              then inr (Found (cur ++ [e]) (Link target))
              else
                match links with
                | O => inl ELOOP
                | S links' =>
                    if decide (target = "") then inl ENOENT
                    else walk links' t follow
                           (if isAbs target then [] else cur)
                           (pathElems target ++ rest)
                end
          end
    end.

Definition maxLinks : nat := 40.

(** Resolution of a path string; the empty path names nothing. *)
Definition locate (t : tree) (follow : bool) (p : string) : Errno + located :=
  if decide (p = "") then inl ENOENT
  else walk maxLinks t follow [] (pathElems p).

Definition info (n : node) : FileInfo :=
  mkFileInfo (bool_decide (n = Dir)).

Definition Stat (t : tree) (p : string) : result FileInfo :=
  match locate t true p with
  | inr (Found _ n) => Ok (info n)
  | inr (Missing _ _) => Err (PathError "stat" p ENOENT)
  | inl e => Err (PathError "stat" p e)
  end.

Definition Lstat (t : tree) (p : string) : result FileInfo :=
  match locate t false p with
  | inr (Found _ n) => Ok (info n)
  | inr (Missing _ _) => Err (PathError "lstat" p ENOENT)
  | inl e => Err (PathError "lstat" p e)
  end.

(** [mkdir(2)]: trailing separators are allowed on the new name. *)
Definition Mkdir (t : tree) (p : string) : tree * option error :=
  if decide (p = "") then (t, Some (PathError "mkdir" p ENOENT))
  else
    match walk maxLinks t false []
            (filter (λ e, e ≠ "") (splitOn "/" p)) with
    | inr (Found _ _) => (t, Some (PathError "mkdir" p EEXIST))
    | inr (Missing d e) => (<[d ++ [e] := Dir]> t, None)
    | inl e => (t, Some (PathError "mkdir" p e))
    end.

(** [os.MkdirAll]: succeed on an existing directory, otherwise make the
    parent (the path before the last element) and then the directory. *)
Fixpoint MkdirAllFuel (fuel : nat) (t : tree) (p : string)
  : tree * option error :=
  match Stat t p with
  | Ok i =>
      if IsDir i then (t, None)
      else (t, Some (PathError "mkdir" p ENOTDIR))
  | Err _ =>
      let dir := fst (filepath_Split (strings_TrimRight p "/")) in
      let '(t1, perr) :=
        match fuel with
        | S fuel' =>
            if decide (1 < String.length dir)
            then MkdirAllFuel fuel' t
                   (ofBytes (removelast (bytes dir)))
            else (t, None)
        | O => (t, None)
        end in
      match perr with
      | Some e => (t1, Some e)
      | None =>
          let '(t2, merr) := Mkdir t1 p in
          match merr with
          | None => (t2, None)
          | Some e =>
              match Lstat t1 p with
              | Ok i => if IsDir i then (t1, None) else (t1, Some e)
              | Err _ => (t1, Some e)
              end
          end
      end
  end.

Definition MkdirAll (t : tree) (p : string) (perm : Z) : tree * option error :=
  MkdirAllFuel (String.length p) t p.

(** [symlink(2)]: the new name must not exist, a link itself counts. *)
Definition Symlink (t : tree) (old new : string) : tree * option error :=
  if decide (old = "") then (t, Some (LinkError "symlink" old new ENOENT))
  else
    match locate t false new with
    | inr (Found _ _) => (t, Some (LinkError "symlink" old new EEXIST))
    | inr (Missing d e) => (<[d ++ [e] := Link old]> t, None)
    | inl e => (t, Some (LinkError "symlink" old new e))
    end.

Definition endsWithDot (p : string) : bool :=
  bool_decide (p = ".") ||
  match rev (bytes p) with
  | d :: s :: _ => Ascii.eqb d "." && IsPathSeparator s
  | _ => false
  end.

(** [os.RemoveAll]: the entry and everything below it; a link is removed
    itself, not what it points to; a missing path is not an error. *)
Definition RemoveAll (t : tree) (p : string) : tree * option error :=
  if decide (p = "") then (t, None)
  else if endsWithDot p then (t, Some (PathError "RemoveAll" p EINVAL))
  else
    match walk maxLinks t false []
            (filter (λ e, e ≠ "") (splitOn "/" p)) with
    | inr (Found k _) =>
        (Tree (filter (λ kv, ¬ k `prefix_of` kv.1) (entries t)),
         if decide (k = []) then Some (PathError "unlinkat" p EINVAL)
         else None)
    | inr (Missing _ _) => (t, None)
    | inl ENOENT => (t, None)
    | inl e => (t, Some (PathError "unlinkat" p e))
    end.

Definition ReadFile (t : tree) (p : string) : result string :=
  match locate t true p with
  | inr (Found _ (File d)) => Ok d
  | inr (Found _ Dir) => Err (PathError "read" p EISDIR)
  | inr (Found _ (Link _)) => Err (PathError "open" p ELOOP)
  | inr (Missing _ _) => Err (PathError "open" p ENOENT)
  | inl e => Err (PathError "open" p e)
  end.

(** [ioutil.WriteFile]: create or truncate, then write. *)
Definition WriteFile (t : tree) (p data : string) (perm : Z)
  : tree * option error :=
  match locate t true p with
  | inr (Found k (File _)) => (<[k := File data]> t, None)
  | inr (Found _ Dir) => (t, Some (PathError "open" p EISDIR))
  | inr (Found _ (Link _)) => (t, Some (PathError "open" p ELOOP))
  | inr (Missing d e) => (<[d ++ [e] := File data]> t, None)
  | inl e => (t, Some (PathError "open" p e))
  end.

(** What a resolution finds after the entry [k] has become a regular file
    with the bytes [data]. *)
Definition afterWrite (k : list string) (data : string) (r : located) : located :=
  match r with
  | Found k' (File _) => if decide (k' = k) then Found k (File data) else r
  | Found _ _ => r
  | Missing dir name =>
      if decide (dir ++ [name] = k) then Found k (File data) else r
  end.

(** Two paths that resolve to the same entry. *)
Definition sameEntry (t : tree) (p q : string) : bool :=
  match locate t true p, locate t true q with
  | inr (Found k _), inr (Found k' _) => bool_decide (k = k')
  | _, _ => false
  end.

Global Instance os : OS := {|
  FS := tree;
  os_Stat := Stat;
  os_MkdirAll := MkdirAll;
  os_Symlink := Symlink;
  os_RemoveAll := RemoveAll;
  ioutil_ReadFile := ReadFile;
  ioutil_WriteFile := WriteFile;
|}.

(** Building a tree from absolute paths. *)
Definition key (p : string) : list string :=
  filter (λ e, e ≠ "") (splitOn "/" p).

Definition mkTree (l : list (string * node)) : tree :=
  fold_left (λ t pn, <[key pn.1 := pn.2]> t) l (Tree []).

(** Every entry lies in a directory, and the root is no entry. *)
Definition wf (t : tree) : Prop :=
  t !! ([] : list string) = None ∧
  ∀ (k : list string) (e : string),
    is_Some (t !! (k ++ [e])) → k = [] ∨ t !! k = Some Dir.

(** The consistency check of a tree, run on its entries. *)
Definition wellFormed (t : tree) : bool :=
  forallb (λ kv : list string * node,
             match kv.1 with
             | [] => false
             | _ => let parent := removelast kv.1 in
                    bool_decide (parent = []) ||
                    bool_decide (t !! parent = Some Dir)
             end) (entries t).

End SimFS.

(* ===================================================================== *)
(** * An executable JSON codec for the two records *)
(* ===================================================================== *)

(** [encoding/json] as the package uses it: compact objects with the
    field names of the struct tags, strings with Go's escapes, integers in
    decimal.  The input of [Unmarshal] is parsed as a whole first (a syntax
    error leaves the record untouched), unknown keys are ignored and [null]
    leaves a field as it is.  Strings are taken to be valid UTF-8. *)
Module SimJSON.

#[local] Set Warnings "-register-all".
Inductive value :=
  | JNull
  | JBool (b : bool)
  | JNum (z : Z)
  | JStr (s : string)
  | JArr (l : list value)
  | JObj (l : list (string * value)).
#[local] Set Warnings "+register-all".

Definition quote : ascii := ascii_of_N 34.
Definition backslash : ascii := ascii_of_N 92.
Definition isChar (c : ascii) (s : string) : bool :=
  match s with
  | String d EmptyString => Ascii.eqb c d
  | _ => false
  end.

(** ** Encoding *)

Definition hexDigit (n : N) : ascii :=
  ascii_of_N (if (n <? 10)%N then 48 + n else 87 + n)%N.

Definition escapeByte (c : ascii) : list ascii :=
  let n := N_of_ascii c in
  if Ascii.eqb c quote then [backslash; quote]
  else if Ascii.eqb c backslash then [backslash; backslash]
  else if (n =? 10)%N then [backslash; "n"%char]
  else if (n =? 13)%N then [backslash; "r"%char]
  else if (n =? 9)%N then [backslash; "t"%char]
  else if (n <? 32)%N || isChar c "<" || isChar c ">" || isChar c "&"
  then backslash :: bytes "u00" ++ [hexDigit (n / 16); hexDigit (n mod 16)]
  else [c].

Definition encString (s : string) : string :=
  ofBytes (quote :: flat_map escapeByte (bytes s) ++ [quote]).

Definition digitChar (d : N) : ascii := ascii_of_N (48 + d).

Fixpoint encDigits (fuel : nat) (n : N) (acc : list ascii) : list ascii :=
  match fuel with
  | O => acc
  | S fuel' =>
      let acc' := digitChar (n mod 10) :: acc in
      if (n / 10 =? 0)%N then acc' else encDigits fuel' (n / 10) acc'
  end.

Definition encInt (z : Z) : string :=
  let n := Z.abs_N z in
  let digits := ofBytes (encDigits (S (N.to_nat (N.log2 n))) n []) in
  if (z <? 0)%Z then "-" +:+ digits else digits.

Definition encBool (b : bool) : string := if b then "true" else "false".

Definition encField (name value : string) : string :=
  encString name +:+ ":" +:+ value.

Definition encObject (fields : list string) : string :=
  "{" +:+ strings_Join fields "," +:+ "}".

Definition encIndex (i : Index.t) : string :=
  encObject
    [encField "file_id" (encString (Index.FileId i));
     encField "etag" (encString (Index.Etag i));
     encField "md5_checksum" (encString (Index.Md5Checksum i));
     encField "mime_type" (encString (Index.MimeType i));
     encField "mod_time" (encInt (Index.ModTime i));
     encField "version" (encInt (Index.Version i));
     encField "remote" (encBool (Index.Remote i))].

Definition encIndexFile (f : IndexFile.t) : string :=
  encObject
    [encField "name" (encString (IndexFile.Name f));
     encField "index"
       match IndexFile.Index f with
       | [] => "null"
       | l => "[" +:+ strings_Join (map encIndex l) "," +:+ "]"
       end].

Definition encContext (c : Context.t) : string :=
  encObject
    [encField "client_id" (encString (Context.ClientId c));
     encField "client_secret" (encString (Context.ClientSecret c));
     encField "refresh_token" (encString (Context.RefreshToken c))].

(** ** Parsing *)

Definition isSpace (c : ascii) : bool :=
  let n := N_of_ascii c in
  (n =? 32)%N || (n =? 9)%N || (n =? 10)%N || (n =? 13)%N.

Definition skipSpace (l : list ascii) : list ascii := dropWhile isSpace l.

Fixpoint stripPrefix (pre l : list ascii) : option (list ascii) :=
  match pre, l with
  | [], _ => Some l
  | a :: pre', b :: l' => if Ascii.eqb a b then stripPrefix pre' l' else None
  | _ :: _, [] => None
  end.

Definition hexVal (c : ascii) : option N :=
  let n := N_of_ascii c in
  if (48 <=? n)%N && (n <=? 57)%N then Some (n - 48)%N
  else if (97 <=? n)%N && (n <=? 102)%N then Some (n - 87)%N
  else if (65 <=? n)%N && (n <=? 70)%N then Some (n - 55)%N
  else None.

(** The UTF-8 bytes of a code point of the basic plane. *)
Definition utf8 (cp : N) : list ascii :=
  if (cp <? 128)%N then [ascii_of_N cp]
  else if (cp <? 2048)%N
  then [ascii_of_N (192 + cp / 64); ascii_of_N (128 + cp mod 64)]
  else [ascii_of_N (224 + cp / 4096);
        ascii_of_N (128 + (cp / 64) mod 64);
        ascii_of_N (128 + cp mod 64)].

Definition simpleEscape (e : ascii) : option N :=
  if Ascii.eqb e quote then Some 34%N
  else if Ascii.eqb e backslash then Some 92%N
  else if isChar e "/" then Some 47%N
  else if isChar e "b" then Some 8%N
  else if isChar e "f" then Some 12%N
  else if isChar e "n" then Some 10%N
  else if isChar e "r" then Some 13%N
  else if isChar e "t" then Some 9%N
  else None.

(** The rest of a string literal after its opening quote, escapes
    replaced; [fuel] bounds the bytes read. *)
Fixpoint parseString (fuel : nat) (l acc : list ascii)
  : option (string * list ascii) :=
  match fuel with
  | O => None
  | S fuel' =>
      match l with
      | [] => None
      | c :: l' =>
          if Ascii.eqb c quote then Some (ofBytes (rev acc), l')
          else if (N_of_ascii c <? 32)%N then None
          else if Ascii.eqb c backslash then
            match l' with
            | e :: l'' =>
                match simpleEscape e with
                | Some b => parseString fuel' l'' (ascii_of_N b :: acc)
                | None =>
                    if isChar e "u" then
                      match l'' with
                      | h1 :: h2 :: h3 :: h4 :: rest =>
                          match hexVal h1, hexVal h2, hexVal h3, hexVal h4 with
                          | Some a, Some b, Some c, Some d =>
                              parseString fuel' rest
                                (rev (utf8 (a * 4096 + b * 256 + c * 16 + d))
                                 ++ acc)
                          | _, _, _, _ => None
                          end
                      | _ => None
                      end
                    else None
                end
            | [] => None
            end
          else parseString fuel' l' (c :: acc)
      end
  end.

Definition isDigit (c : ascii) : bool :=
  let n := N_of_ascii c in (48 <=? n)%N && (n <=? 57)%N.

Definition digitsValue (l : list ascii) : Z :=
  fold_left (λ acc c, acc * 10 + Z.of_N (N_of_ascii c - 48))%Z l 0%Z.

(** An integer literal; a fraction or an exponent does not fit the
    integer fields of the records. *)
Definition parseInt (l : list ascii) : option (Z * list ascii) :=
  let '(neg, l1) :=
    match l with
    | c :: l' => if isChar c "-" then (true, l') else (false, l)
    | [] => (false, l)
    end in
  let ds := takeWhile isDigit l1 in
  let rest := dropWhile isDigit l1 in
  match ds with
  | [] => None
  | d :: ds' =>
      if isChar d "0" && negb (bool_decide (ds' = [])) then None
      else
        match rest with
        | c :: _ =>
            if isChar c "." || isChar c "e" || isChar c "E" then None
            else Some (if neg then - digitsValue ds else digitsValue ds, rest)%Z
        | [] => Some (if neg then - digitsValue ds else digitsValue ds, rest)%Z
        end
  end.

Fixpoint parseValue (fuel : nat) (l : list ascii) : option (value * list ascii) :=
  match fuel with
  | O => None
  | S fuel' =>
      match skipSpace l with
      | [] => None
      | c :: l' =>
          if Ascii.eqb c quote then
            match parseString (S (length l')) l' [] with
            | Some (s, rest) => Some (JStr s, rest)
            | None => None
            end
          else if isChar c "n" then
            option_map (pair JNull) (stripPrefix (bytes "ull") l')
          else if isChar c "t" then
            option_map (pair (JBool true)) (stripPrefix (bytes "rue") l')
          else if isChar c "f" then
            option_map (pair (JBool false)) (stripPrefix (bytes "alse") l')
          else if isChar c "[" then
            match skipSpace l' with
            | d :: l'' =>
                if isChar d "]" then Some (JArr [], l'')
                else
                  match parseElems fuel' (d :: l'') [] with
                  | Some (vs, rest) => Some (JArr vs, rest)
                  | None => None
                  end
            | [] => None
            end
          else if isChar c "{" then
            match skipSpace l' with
            | d :: l'' =>
                if isChar d "}" then Some (JObj [], l'')
                else
                  match parseMembers fuel' (d :: l'') [] with
                  | Some (ms, rest) => Some (JObj ms, rest)
                  | None => None
                  end
            | [] => None
            end
          else
            match parseInt (c :: l') with
            | Some (z, rest) => Some (JNum z, rest)
            | None => None
            end
      end
  end
with parseElems (fuel : nat) (l : list ascii) (acc : list value)
  : option (list value * list ascii) :=
  match fuel with
  | O => None
  | S fuel' =>
      match parseValue fuel' l with
      | Some (v, rest) =>
          match skipSpace rest with
          | c :: rest' =>
              if isChar c "," then parseElems fuel' rest' (v :: acc)
              else if isChar c "]" then Some (rev (v :: acc), rest')
              else None
          | [] => None
          end
      | None => None
      end
  end
with parseMembers (fuel : nat) (l : list ascii) (acc : list (string * value))
  : option (list (string * value) * list ascii) :=
  match fuel with
  | O => None
  | S fuel' =>
      match skipSpace l with
      | q :: l1 =>
          if Ascii.eqb q quote then
            match parseString (S (length l1)) l1 [] with
            | Some (k, l2) =>
                match skipSpace l2 with
                | c :: l3 =>
                    if isChar c ":" then
                      match parseValue fuel' l3 with
                      | Some (v, rest) =>
                          match skipSpace rest with
                          | d :: rest' =>
                              if isChar d ","
                              then parseMembers fuel' rest' ((k, v) :: acc)
                              else if isChar d "}"
                              then Some (rev ((k, v) :: acc), rest')
                              else None
                          | [] => None
                          end
                      | None => None
                      end
                    else None
                | [] => None
                end
            | None => None
            end
          else None
      | [] => None
      end
  end.

Definition parse (data : string) : option value :=
  match parseValue (2 * String.length data + 2) (bytes data) with
  | Some (v, rest) =>
      match skipSpace rest with
      | [] => Some v
      | _ => None
      end
  | None => None
  end.

(** ** Decoding into the records *)

Definition int64 (z : Z) : bool :=
  ((- 2 ^ 63 <=? z) && (z <? 2 ^ 63))%Z.

Definition decString (old : string) (v : value) : option string :=
  match v with
  | JStr s => Some s
  | JNull => Some old
  | _ => None
  end.

Definition decInt (old : Z) (v : value) : option Z :=
  match v with
  | JNum z => if int64 z then Some z else None
  | JNull => Some old
  | _ => None
  end.

Definition decBool (old : bool) (v : value) : option bool :=
  match v with
  | JBool b => Some b
  | JNull => Some old
  | _ => None
  end.

Definition setIndexField (i : Index.t) (kv : string * value) : option Index.t :=
  let '(k, v) := kv in
  let 'Index.mk fid etag md5 mime mt ver rem := i in
  if decide (k = "file_id")
  then s ← decString fid v; Some (Index.mk s etag md5 mime mt ver rem)
  else if decide (k = "etag")
  then s ← decString etag v; Some (Index.mk fid s md5 mime mt ver rem)
  else if decide (k = "md5_checksum")
  then s ← decString md5 v; Some (Index.mk fid etag s mime mt ver rem)
  else if decide (k = "mime_type")
  then s ← decString mime v; Some (Index.mk fid etag md5 s mt ver rem)
  else if decide (k = "mod_time")
  then z ← decInt mt v; Some (Index.mk fid etag md5 mime z ver rem)
  else if decide (k = "version")
  then z ← decInt ver v; Some (Index.mk fid etag md5 mime mt z rem)
  else if decide (k = "remote")
  then b ← decBool rem v; Some (Index.mk fid etag md5 mime mt ver b)
  else Some i.

Definition foldFields {A} (set : A → string * value → option A)
  (ms : list (string * value)) (a : A) : option A :=
  fold_left (λ acc kv, a' ← acc; set a' kv) ms (Some a).

Definition decIndex (v : value) : option Index.t :=
  let zero := Index.mk "" "" "" "" 0 0 false in
  match v with
  | JObj ms => foldFields setIndexField ms zero
  | JNull => Some zero
  | _ => None
  end.

Definition setIndexFileField (f : IndexFile.t) (kv : string * value)
  : option IndexFile.t :=
  let '(k, v) := kv in
  if decide (k = "name")
  then s ← decString (IndexFile.Name f) v; Some (IndexFile.mk s (IndexFile.Index f))
  else if decide (k = "index")
  then match v with
       | JArr vs => l ← mapM decIndex vs; Some (IndexFile.mk (IndexFile.Name f) l)
       | JNull => Some f
       | _ => None
       end
  else Some f.

Definition setContextField (c : Context.t) (kv : string * value)
  : option Context.t :=
  let '(k, v) := kv in
  let 'Context.mk id secret token abs := c in
  if decide (k = "client_id")
  then s ← decString id v; Some (Context.mk s secret token abs)
  else if decide (k = "client_secret")
  then s ← decString secret v; Some (Context.mk id s token abs)
  else if decide (k = "refresh_token")
  then s ← decString token v; Some (Context.mk id secret s abs)
  else Some c.

Definition unmarshal {A} (set : A → string * value → option A)
  (data : string) (a : A) : A * option error :=
  match parse data with
  | None => (a, Some (jsonError "invalid character"))
  | Some JNull => (a, None)
  | Some (JObj ms) =>
      match foldFields set ms a with
      | Some a' => (a', None)
      | None => (a, Some (jsonError "cannot unmarshal into Go value"))
      end
  | Some _ => (a, Some (jsonError "cannot unmarshal into Go value"))
  end.

Global Instance json : JSON := {|
  json_MarshalContext c := Ok (encContext c);
  json_UnmarshalContext := unmarshal setContextField;
  json_MarshalIndexFile f := Ok (encIndexFile f);
  json_UnmarshalIndexFile := unmarshal setIndexFileField;
|}.

End SimJSON.

(* ===================================================================== *)
(** * File systems for the examples *)
(* ===================================================================== *)

Module Scenario.
Import SimFS.

(** A home directory with a directory [docs] and a regular file
    [.secret]; nothing else exists. *)
Definition home : tree :=
  mkTree [("/home", Dir); ("/home/u", Dir);
          ("/home/u/docs", Dir); ("/home/u/.secret", File "s3cret")].

(** The same with a mount root [/mnt] that already holds a regular file
    named [docs]. *)
Definition occupied : tree :=
  mkTree [("/home", Dir); ("/home/u", Dir);
          ("/home/u/docs", Dir); ("/home/u/.secret", File "s3cret");
          ("/mnt", Dir); ("/mnt/docs", File "notes")].

(** Two context roots [/a] and [/b] with their marker directories. *)
Definition contexts : tree :=
  mkTree [("/a", Dir); ("/a/.gd", Dir); ("/b", Dir); ("/b/.gd", Dir)].

Definition index1 : IndexFile.t :=
  IndexFile.mk "one"
    [Index.mk "id1" "etag1" "d41d8cd9" "text/plain" 1380000000 3 true].

Definition index2 : IndexFile.t :=
  IndexFile.mk "two" [Index.mk "id2" "etag2" "9e107d9d" "image/png" (-1) 0 false].

(** A context root [/a] with stored credentials and a directory [sub/dir]
    below it. *)
Definition credentials : Context.t := Context.mk "id" "secret" "token" "/a".

Definition stored : tree :=
  mkTree [("/a", Dir); ("/a/.gd", Dir);
          ("/a/.gd/credentials.json", File (SimJSON.encContext credentials));
          ("/a/sub", Dir); ("/a/sub/dir", Dir)].

(** Two directories with the same base name [docs], and a mount root. *)
Definition twins : tree :=
  mkTree [("/x", Dir); ("/x/docs", Dir); ("/y", Dir); ("/y/docs", Dir);
          ("/mnt", Dir)].

End Scenario.

(* ===================================================================== *)
(** * The library functions and the file system on examples *)
(* ===================================================================== *)

Example Split_ex1 : filepath_Split "/work/.gd/mnt" = ("/work/.gd/", "mnt").
Proof. reflexivity. Qed.
Example Split_ex2 : filepath_Split "mnt" = ("", "mnt").
Proof. reflexivity. Qed.
Example TrimRight_ex : strings_TrimRight "/work/.gd//" "/" = "/work/.gd".
Proof. reflexivity. Qed.
Example Base_ex1 : filepath_Base "/home/u/.secret/" = ".secret".
Proof. reflexivity. Qed.
Example Base_ex2 : filepath_Base "///" = "/".
Proof. reflexivity. Qed.
Example Clean_ex1 : path_Clean "/a/./b//../c/" = "/a/c".
Proof. reflexivity. Qed.
Example Clean_ex2 : path_Clean "a/../../b" = "../b".
Proof. reflexivity. Qed.
Example Clean_ex3 : path_Clean "/../a" = "/a".
Proof. reflexivity. Qed.
(** The table of the documentation of [path.Clean]. *)
Example Clean_table :
  map path_Clean
    [""; "/"; "abc/"; "a//c"; "a/c/."; "a/c/b/.."; "/../a/c";
     "/../a/b/../././/c"; "../.."; "abc/def/../../.."; "/abc/def/../../..";
     "abc/./../def"; "abc/../../././../def"]
  = ["."; "/"; "abc"; "a/c"; "a/c"; "a/c"; "/a/c";
     "/a/c"; "../.."; ".."; "/";
     "def"; "../../def"].
Proof. reflexivity. Qed.
Example Join_table :
  map path_Join [["a"; "b"]; ["a"; ""]; [""; "b"]; [""; ""]; ["a/"; "/b"];
                 ["/"; "a"]; ["/mnt"; "."]]
  = ["a/b"; "a"; "b"; ""; "a/b"; "/a"; "/mnt"].
Proof. reflexivity. Qed.
Example Join_ex1 : path_Join ["/a/"; ".gd"] = "/a/.gd".
Proof. reflexivity. Qed.
Example Join_ex2 : path_Join [""; ".gd"] = ".gd".
Proof. reflexivity. Qed.

Example SimFS_stat1 :
  SimFS.Stat Scenario.home "/home/u/" = Ok (mkFileInfo true).
Proof. vm_compute. reflexivity. Qed.
Example SimFS_stat2 :
  SimFS.Stat Scenario.home "/home/u/.secret/"
  = Err (PathError "stat" "/home/u/.secret/" ENOTDIR).
Proof. vm_compute. reflexivity. Qed.
Example SimFS_stat3 :
  SimFS.Stat Scenario.home "/work/.gd/mnt"
  = Err (PathError "stat" "/work/.gd/mnt" ENOENT).
Proof. vm_compute. reflexivity. Qed.

(** A whole call: neither [/work] nor [/work/.gd/mnt] exists, the sources
    are [docs], the hidden [.secret] and [docs] again. *)
Example MountPoints_scenario :
  (MountPoints (os := SimFS.os) "" "/work/.gd/mnt"
     ["/home/u/docs"; "/home/u/.secret"; "/home/u/docs"] false
     Scenario.home).1
  = (Some (Mount.mk "/work/.gd/mnt" "/work/"
             [MountPoint.mk true "/docs" "/home/u/docs" "/work/.gd/mnt/docs"]),
     ["/work/"]).
Proof. vm_compute. reflexivity. Qed.

(* ===================================================================== *)
(** * Facts about the string functions *)
(* ===================================================================== *)

Section StringFacts.

Lemma length_ofBytes (l : list ascii) : String.length (ofBytes l) = length l.
Proof. induction l as [|c l IH]; simpl; [reflexivity | now rewrite IH]. Qed.

Lemma length_bytes (s : string) : length (bytes s) = String.length s.
Proof. induction s as [|c s IH]; simpl; [reflexivity | now rewrite IH]. Qed.

Lemma ofBytes_bytes (s : string) : ofBytes (bytes s) = s.
Proof. apply string_of_list_ascii_of_string. Qed.

Lemma bytes_ofBytes (l : list ascii) : bytes (ofBytes l) = l.
Proof. apply list_ascii_of_string_of_list_ascii. Qed.

Lemma length_dropWhile {A} (f : A → bool) (l : list A) :
  length (dropWhile f l) ≤ length l.
Proof.
  induction l as [|x l IH]; simpl; [lia|].
  destruct (f x); simpl; lia.
Qed.

(** Dropping a run of [f] and then a run of [negb ∘ f] consumes at least
    one element of a non-empty list. *)
Lemma length_dropWhile_twice {A} (f g : A → bool) (l : list A) :
  (∀ x, f x = false → g x = true) → l ≠ [] →
  length (dropWhile g (dropWhile f l)) < length l.
Proof.
  intros Hfg Hl. destruct l as [|x l]; [congruence|]. clear Hl.
  revert x. induction l as [|y l IH]; intros x; simpl.
  - destruct (f x) eqn:Hf; simpl; [lia|]. rewrite (Hfg _ Hf). simpl. lia.
  - destruct (f x) eqn:Hf.
    + specialize (IH y). simpl in IH. lia.
    + simpl. rewrite (Hfg _ Hf).
      pose proof (length_dropWhile g (y :: l)). simpl in *. lia.
Qed.

Lemma inCutset_separator (c : ascii) :
  inCutset PathSeparator c = IsPathSeparator c.
Proof. unfold inCutset, IsPathSeparator. simpl. apply orb_false_r. Qed.

Lemma dropWhile_ext {A} (f g : A → bool) (l : list A) :
  (∀ x, f x = g x) → dropWhile f l = dropWhile g l.
Proof.
  intros Hfg. induction l as [|x l IH]; simpl; [reflexivity|].
  rewrite Hfg, IH. reflexivity.
Qed.

Lemma bytes_nil (s : string) : bytes s = [] → s = "".
Proof. destruct s; simpl; congruence. Qed.

End StringFacts.

(* ===================================================================== *)
(** * LeastNonExistantRoot *)
(* ===================================================================== *)

Section LeastNonExistantRootFacts.
Context `{os : OS}.

(** A pass of the loop shortens [p]. *)
Lemma parentOf_shorter (p : string) :
  p ≠ "" → String.length (parentOf p) < String.length p.
Proof.
  intros Hp. unfold parentOf, filepath_Split, strings_TrimRight. simpl.
  rewrite length_ofBytes, length_rev, bytes_ofBytes, rev_involutive.
  rewrite <- length_bytes, <- (length_rev (bytes p)).
  rewrite (dropWhile_ext _ _ _ inCutset_separator).
  apply length_dropWhile_twice.
  - intros x Hx. unfold notSeparator. now rewrite Hx.
  - intros Hr. apply Hp, bytes_nil.
    apply (f_equal (@rev ascii)) in Hr. now rewrite rev_involutive in Hr.
Qed.

(** The function runs the Go loop to its end: the fuel it starts with
    is never used up. *)
Lemma lnerLoop_runs (fs : FS) (fuel : nat) :
  ∀ last p, String.length p < fuel →
    lnerRun fs last p (lnerLoop fuel fs last p).
Proof.
  induction fuel as [|fuel IH]; intros last p Hlen; [lia|].
  simpl. destruct (decide (p = "")) as [->|Hp]; [constructor|].
  destruct (val (os_Stat fs p)) as [fInfo|] eqn:Hstat.
  - eapply lnerRun_break; eauto.
  - apply lnerRun_next; [assumption..|].
    apply IH. pose proof (parentOf_shorter p Hp). lia.
Qed.

Lemma lnerRun_deterministic (fs : FS) last p r1 r2 :
  lnerRun fs last p r1 → lnerRun fs last p r2 → r1 = r2.
Proof.
  intros H1. revert r2.
  induction H1 as [last|last p i Hp Hs|last p r Hp Hs _ IH];
    intros r2 H2; inversion H2; subst; try congruence.
  now apply IH.
Qed.

Lemma ancestor_succ (k : nat) (p : string) :
  ancestor (S k) p = ancestor k (parentOf p).
Proof. unfold ancestor. apply Nat.iter_succ_r. Qed.

(** What a run of the loop returns: either it stops at once and returns
    [last], or it returns the last path [ancestor k p] of an unbroken chain
    of paths that [os.Stat] does not find, stopped by a path that is empty
    or that [os.Stat] finds. *)
Lemma lnerRun_result (fs : FS) last p r :
  lnerRun fs last p r →
  (r = last ∧ (p = "" ∨ statExists fs p)) ∨
  (∃ k, r = ancestor k p ∧
        (∀ j, j ≤ k → ancestor j p ≠ "" ∧ ¬ statExists fs (ancestor j p)) ∧
        (parentOf r = "" ∨ statExists fs (parentOf r))).
Proof.
  induction 1 as [last|last p i Hp Hs|last p r Hp Hs Hrun IH].
  - left. auto.
  - left. split; [reflexivity|]. right. unfold statExists. congruence.
  - right. destruct IH as [[-> Hstop]|(k & -> & Hchain & Hstop)].
    + exists 0. split; [reflexivity|]. split; [|exact Hstop].
      intros j Hj. assert (j = 0) as -> by lia. simpl.
      split; [exact Hp|]. unfold statExists. intros Hex. now apply Hex.
    + exists (S k). rewrite ancestor_succ. split; [reflexivity|].
      split; [|exact Hstop].
      intros [|j] Hj.
      * simpl. split; [exact Hp|]. unfold statExists. intros Hex. now apply Hex.
      * rewrite ancestor_succ. apply Hchain. lia.
Qed.

(** The two ways [LeastNonExistantRoot] returns. *)
Lemma LeastNonExistantRoot_cases (fs : FS) (p : string) :
  let r := LeastNonExistantRoot fs p in
  (r = "" ∧ (p = "" ∨ statExists fs p)) ∨
  (r ≠ "" ∧ p ≠ "" ∧ ¬ statExists fs p ∧
   ∃ k, r = ancestor k p ∧
        (∀ j, j ≤ k → ancestor j p ≠ "" ∧ ¬ statExists fs (ancestor j p)) ∧
        (parentOf r = "" ∨ statExists fs (parentOf r))).
Proof.
  intros r.
  assert (Hrun : lnerRun fs "" p r) by (apply lnerLoop_runs; lia).
  destruct (lnerRun_result fs "" p r Hrun) as [[Hr Hp]|(k & Hr & Hchain & Hstop)].
  - left. auto.
  - right. destruct (Hchain k (Nat.le_refl k)) as [Hk _].
    destruct (Hchain 0 (Nat.le_0_l k)) as [Hp Hnp].
    rewrite <- Hr in Hk. repeat split; try assumption.
    exists k. auto.
Qed.

End LeastNonExistantRootFacts.

(* ===================================================================== *)
(** * The loop of MountPoints *)
(* ===================================================================== *)

Section MountLoopFacts.
Context `{os : OS}.
Variables (contextPath contextAbsPath : string) (hidden : bool).

Abbreviation step := (mountStep contextPath contextAbsPath hidden).
Abbreviation loop := (mountLoop contextPath contextAbsPath hidden).


Lemma mountLoop_app (l1 l2 : list string) (st : LoopState FS) :
  loop (l1 ++ l2) st = loop l2 (loop l1 st).
Proof. apply fold_left_app. Qed.

Lemma mountLoop_cons (a : string) (l : list string) (st : LoopState FS) :
  loop (a :: l) st = loop l (step st a).
Proof. reflexivity. Qed.

Lemma mountStep_visited (st : LoopState FS) (path : string) :
  visitors st !! path ≠ None → step st path = st.
Proof.
  intros Hv. unfold mountStep.
  destruct (visitors st !! path); [reflexivity | congruence].
Qed.

(** A pass over a path not yet visited: the path is marked, and the
    MountPoint, if any, is appended. *)
Lemma mountStep_fresh (st : LoopState FS) (path : string) :
  visitors st !! path = None →
  visitors (step st path) = <[path := true]> (visitors st) ∧
  ((yieldsPoint contextAbsPath hidden st path = false ∧
    mtPoints (step st path) = mtPoints st) ∨
   (yieldsPoint contextAbsPath hidden st path = true ∧
    ∃ canClean,
      mtPoints (step st path) =
        mtPoints st ++
        [MountPoint.mk canClean (relPathOf contextPath path) path
           (mountPathOf contextAbsPath path)] ∧
      canClean =
        bool_decide
          ((os_Symlink (loopFS st) path (mountPathOf contextAbsPath path)).2
           = None))).
Proof.
  intros Hv. unfold mountStep, yieldsPoint, hiddenSkips,
    mountPathOf, relPathOf.
  rewrite Hv.
  destruct (os_Stat (loopFS st) path) as [i|e] eqn:Hstat; simpl.
  2:{ split; [reflexivity|]. left. split; reflexivity. }
  destruct (negb hidden && strings_HasPrefix (filepath_Base path) ".");
    simpl; [split; [reflexivity | left; auto]|].
  destruct (os_Symlink _ _ _) as [fs1 [e|]]; simpl.
  - destruct (os_IsExist e); simpl.
    + split; [reflexivity|]. right. split; [reflexivity|].
      exists false. split; reflexivity.
    + split; [reflexivity|]. left. auto.
  - split; [reflexivity|]. right. split; [reflexivity|].
    exists true. split; reflexivity.
Qed.

Lemma mountStep_visitors (st : LoopState FS) (a q : string) :
  visitors (step st a) !! q = None ↔ visitors st !! q = None ∧ q ≠ a.
Proof.
  destruct (visitors st !! a) as [b|] eqn:Hv.
  - rewrite mountStep_visited by congruence.
    split; [|tauto]. intros Hq. split; [exact Hq | congruence].
  - destruct (mountStep_fresh st a Hv) as [-> _].
    rewrite lookup_insert_None. intuition congruence.
Qed.

Lemma mountLoop_visitors (paths : list string) :
  ∀ st q, visitors (loop paths st) !! q = None ↔
          visitors st !! q = None ∧ q ∉ paths.
Proof.
  induction paths as [|a paths IH]; intros st q.
  - simpl. split; [intros H; split; [exact H | apply not_elem_of_nil] | tauto].
  - rewrite mountLoop_cons, IH, mountStep_visitors, not_elem_of_cons.
    tauto.
Qed.


Lemma pointsFor_app p l1 l2 :
  pointsFor p (l1 ++ l2) = pointsFor p l1 ++ pointsFor p l2.
Proof. apply filter_app. Qed.

Lemma pointsFor_none p l :
  Forall (λ mp, MountPoint.AbsPath mp ≠ p) l → pointsFor p l = [].
Proof.
  induction 1 as [|mp l Hmp _ IH]; [reflexivity|].
  unfold pointsFor in *. rewrite filter_cons_False; assumption.
Qed.

(** What a pass appends is a MountPoint of its own path, which was not
    visited before and passes the hidden filter. *)
Lemma mountStep_points (st : LoopState FS) (a : string) :
  ∃ l, mtPoints (step st a) = mtPoints st ++ l ∧
       Forall (λ mp, MountPoint.AbsPath mp = a ∧
                     visitors st !! a = None ∧
                     hiddenSkips hidden a = false) l.
Proof.
  destruct (visitors st !! a) as [b|] eqn:Hv.
  - exists []. rewrite mountStep_visited by congruence.
    now rewrite app_nil_r.
  - destruct (mountStep_fresh st a Hv) as [_ [[_ ->]|[Hy (c & -> & _)]]].
    + exists []. now rewrite app_nil_r.
    + eexists. split; [reflexivity|].
      constructor; [|constructor]. simpl. split; [reflexivity|].
      split; [reflexivity|].
      unfold yieldsPoint in Hy.
      destruct (hiddenSkips hidden a); [|reflexivity].
      rewrite andb_false_r in Hy. discriminate.
Qed.

Lemma mountLoop_points (paths : list string) :
  ∀ st, ∃ l, mtPoints (loop paths st) = mtPoints st ++ l ∧
             Forall (λ mp, MountPoint.AbsPath mp ∈ paths ∧
                           visitors st !! MountPoint.AbsPath mp = None ∧
                           hiddenSkips hidden (MountPoint.AbsPath mp) = false) l.
Proof.
  induction paths as [|a paths IH]; intros st.
  - exists []. simpl. now rewrite app_nil_r.
  - destruct (mountStep_points st a) as (l0 & Hl0 & Hall0).
    destruct (IH (step st a)) as (l1 & Hl1 & Hall1).
    exists (l0 ++ l1). split.
    + rewrite mountLoop_cons, Hl1, Hl0. now rewrite app_assoc.
    + apply Forall_app. split.
      * eapply Forall_impl; [exact Hall0|]. simpl.
        intros mp (-> & Hv & Hh). split; [apply list_elem_of_here | auto].
      * eapply Forall_impl; [exact Hall1|]. simpl.
        intros mp (Hin & Hv & Hh). apply mountStep_visitors in Hv.
        split; [now apply list_elem_of_further | tauto].
Qed.

(** The MountPoints of [p] in the result are decided by the pass over
    its first occurrence: the one MountPoint appended there, or none. *)
Lemma mountLoop_pointsFor_first (pre post : list string) (p : string)
  (st0 : LoopState FS) :
  visitors st0 !! p = None → pointsFor p (mtPoints st0) = [] → p ∉ pre →
  pointsFor p (mtPoints (loop (pre ++ p :: post) st0))
  = if yieldsPoint contextAbsPath hidden (loop pre st0) p
    then [MountPoint.mk
            (bool_decide
               ((os_Symlink (loopFS (loop pre st0)) p
                   (mountPathOf contextAbsPath p)).2 = None))
            (relPathOf contextPath p) p (mountPathOf contextAbsPath p)]
    else [].
Proof.
  intros Hv0 Hp0 Hpre.
  rewrite mountLoop_app, mountLoop_cons.
  set (st1 := loop pre st0).
  assert (Hv1 : visitors st1 !! p = None)
    by (apply mountLoop_visitors; auto).
  assert (Hp1 : pointsFor p (mtPoints st1) = []).
  { destruct (mountLoop_points pre st0) as (l & Hl & Hall).
    fold st1 in Hl. rewrite Hl, pointsFor_app, Hp0. simpl.
    apply pointsFor_none. eapply Forall_impl; [exact Hall|]. simpl.
    intros mp (Hin & _) Heq. rewrite Heq in Hin. contradiction. }
  destruct (mountLoop_points post (step st1 p)) as (l2 & Hl2 & Hall2).
  rewrite Hl2, pointsFor_app.
  assert (Hp2 : pointsFor p l2 = []).
  { apply pointsFor_none. eapply Forall_impl; [exact Hall2|]. simpl.
    intros mp (_ & Hv & _) Heq. rewrite Heq in Hv.
    apply mountStep_visitors in Hv. tauto. }
  rewrite Hp2, app_nil_r.
  destruct (mountStep_fresh st1 p Hv1) as [_ [[-> ->]|[-> (c & -> & ->)]]].
  - exact Hp1.
  - rewrite pointsFor_app, Hp1. unfold pointsFor.
    rewrite filter_cons_True by reflexivity. reflexivity.
Qed.

(** Taking a later occurrence of a path out of the list changes nothing. *)
Lemma mountLoop_drop_repeat (pre post : list string) (p : string)
  (st0 : LoopState FS) :
  p ∈ pre → loop (pre ++ p :: post) st0 = loop (pre ++ post) st0.
Proof.
  intros Hin. rewrite !mountLoop_app, mountLoop_cons.
  rewrite mountStep_visited; [reflexivity|].
  intros Hnone. apply mountLoop_visitors in Hnone. tauto.
Qed.

(** A MountPoint appended by a pass stays in the result. *)
Lemma mountLoop_keeps (post : list string) (st : LoopState FS) (mp : MountPoint.t) :
  mp ∈ mtPoints st → mp ∈ mtPoints (loop post st).
Proof.
  intros Hin. destruct (mountLoop_points post st) as (l & -> & _).
  apply elem_of_app. now left.
Qed.

Lemma stateBefore_Some (pre : list string) (fs : FS) (st : LoopState FS) :
  stateBefore contextPath contextAbsPath hidden pre fs = Some st →
  ∃ created shortest sources fs1,
    prepareRoot contextAbsPath fs = RootReady created shortest sources fs1 ∧
    st = loop pre (mkLoop fs1 ∅ []).
Proof.
  unfold stateBefore.
  destruct (prepareRoot contextAbsPath fs) as [|c sh srcs fs1]; [discriminate|].
  intros [= <-]. eauto 6.
Qed.

Lemma producedPoints_ready (paths : list string) (fs fs1 : FS) created shortest
  sources :
  prepareRoot contextAbsPath fs = RootReady created shortest sources fs1 →
  producedPoints contextPath contextAbsPath paths hidden fs
  = mtPoints (loop paths (mkLoop fs1 ∅ [])).
Proof. intros H. unfold producedPoints. now rewrite H. Qed.

(** No produced MountPoint is one that the hidden filter skips. *)
Lemma producedPoints_not_hidden (paths : list string) (fs : FS) :
  Forall (λ mp, hiddenSkips hidden (MountPoint.AbsPath mp) = false)
    (producedPoints contextPath contextAbsPath paths hidden fs).
Proof.
  unfold producedPoints.
  destruct (prepareRoot contextAbsPath fs) as [|c sh srcs fs1]; [constructor|].
  destruct (mountLoop_points paths (mkLoop fs1 ∅ [])) as (l & -> & Hall).
  simpl. eapply Forall_impl; [exact Hall|]. simpl. tauto.
Qed.

(** Every produced MountPoint is the MountPoint of a path of the list. *)
Lemma producedPoints_of_paths (paths : list string) (fs : FS) :
  Forall (λ mp, MountPoint.AbsPath mp ∈ paths)
    (producedPoints contextPath contextAbsPath paths hidden fs).
Proof.
  unfold producedPoints.
  destruct (prepareRoot contextAbsPath fs) as [|c sh srcs fs1]; [constructor|].
  destruct (mountLoop_points paths (mkLoop fs1 ∅ [])) as (l & -> & Hall).
  simpl. eapply Forall_impl; [exact Hall|]. simpl. tauto.
Qed.

(** The MountPoints of [p] that a call produces, from the pass over the
    first occurrence of [p]. *)
Lemma producedPoints_first (pre post : list string) (p : string) (fs : FS)
  (st : LoopState FS) :
  p ∉ pre →
  stateBefore contextPath contextAbsPath hidden pre fs = Some st →
  pointsFor p
    (producedPoints contextPath contextAbsPath (pre ++ p :: post) hidden fs)
  = if yieldsPoint contextAbsPath hidden st p
    then [MountPoint.mk
            (bool_decide
               ((os_Symlink (loopFS st) p (mountPathOf contextAbsPath p)).2 = None))
            (relPathOf contextPath p) p (mountPathOf contextAbsPath p)]
    else [].
Proof.
  intros Hpre Hst.
  destruct (stateBefore_Some pre fs st Hst) as (c & sh & srcs & fs1 & Hroot & ->).
  rewrite (producedPoints_ready _ _ _ _ _ _ Hroot).
  apply mountLoop_pointsFor_first; [apply lookup_empty | reflexivity | exact Hpre].
Qed.

End MountLoopFacts.

(* ===================================================================== *)
(** * The executable file system keeps the file laws *)
(* ===================================================================== *)

Section SimFSFacts.
Import SimFS.

Lemma tree_lookup_insert_eq (t : tree) (k : list string) (n : node) :
  <[k := n]> t !! k = Some n.
Proof.
  destruct t as [l]. unfold lookup, insert, tree_lookup, tree_insert. simpl.
  induction l as [|[k' n'] l IH]; simpl.
  - now rewrite decide_True.
  - destruct (decide (k' = k)); simpl.
    + now rewrite decide_True.
    + now rewrite decide_False.
Qed.

Lemma tree_lookup_insert_ne (t : tree) (k k' : list string) (n : node) :
  k ≠ k' → <[k := n]> t !! k' = t !! k'.
Proof.
  intros Hne. destruct t as [l].
  unfold lookup, insert, tree_lookup, tree_insert. simpl.
  induction l as [|[k0 n0] l IH]; simpl.
  - now rewrite decide_False.
  - destruct (decide (k0 = k)) as [->|]; simpl.
    + now rewrite !decide_False.
    + destruct (decide (k0 = k')); [reflexivity | exact IH].
Qed.

Lemma walk_nil (links : nat) (t : tree) (follow : bool) (cur : list string) :
  walk links t follow cur [] = inr (Found cur Dir).
Proof. destruct links; reflexivity. Qed.

Lemma walk_cons (links : nat) (t : tree) (follow : bool)
  (cur : list string) (e : string) (rest : list string) :
  walk links t follow cur (e :: rest) =
  if decide (e = ".") then walk links t follow cur rest
  else if decide (e = "..") then walk links t follow (removelast cur) rest
  else
    match t !! (cur ++ [e]) with
    | None =>
        match rest with
        | [] => inr (Missing cur e)
        | _ => inl ENOENT
        end
    | Some Dir => walk links t follow (cur ++ [e]) rest
    | Some (File d) =>
        match rest with
        | [] => inr (Found (cur ++ [e]) (File d))
        | _ => inl ENOTDIR
        end
    | Some (Link target) =>
        if bool_decide (rest = []) && negb follow
        then inr (Found (cur ++ [e]) (Link target))
        else
          match links with
          | O => inl ELOOP
          | S links' =>
              if decide (target = "") then inl ENOENT
              else walk links' t follow
                     (if isAbs target then [] else cur)
                     (pathElems target ++ rest)
          end
    end.
Proof. destruct links; reflexivity. Qed.

(** A resolution that ends at a regular file, or lacks its last element,
    has looked that entry up. *)
Lemma walk_found_file (t : tree) (follow : bool) (links : nat) :
  ∀ (todo cur k : list string) (d : string),
    walk links t follow cur todo = inr (Found k (File d)) →
    t !! k = Some (File d).
Proof.
  induction links as [|n IHn];
    (induction todo as [|e rest IHrest]; intros cur k d;
     [rewrite walk_nil; congruence|]);
    rewrite walk_cons;
    repeat case_decide; eauto;
    destruct (t !! (cur ++ [e])) as [[|d'|target]|] eqn:Hlook; eauto;
    try (destruct rest; congruence).
  - destruct (bool_decide (rest = []) && negb follow); congruence.
  - destruct (bool_decide (rest = []) && negb follow); [congruence|].
    case_decide; [congruence|]. apply IHn.
Qed.

Lemma walk_missing (t : tree) (follow : bool) (links : nat) :
  ∀ (todo cur dir : list string) (name : string),
    walk links t follow cur todo = inr (Missing dir name) →
    t !! (dir ++ [name]) = None.
Proof.
  induction links as [|n IHn];
    (induction todo as [|e rest IHrest]; intros cur dir name;
     [rewrite walk_nil; congruence|]);
    rewrite walk_cons;
    repeat case_decide; eauto;
    destruct (t !! (cur ++ [e])) as [[|d'|target]|] eqn:Hlook; eauto;
    try (destruct rest; congruence).
  - destruct (bool_decide (rest = []) && negb follow); congruence.
  - destruct (bool_decide (rest = []) && negb follow); [congruence|].
    case_decide; [congruence|]. apply IHn.
Qed.

Lemma walk_insert_file (t : tree) (follow : bool) (k : list string)
  (data : string) :
  (t !! k = None ∨ ∃ d, t !! k = Some (File d)) →
  ∀ (links : nat) (todo cur : list string) (r : located),
    walk links t follow cur todo = inr r →
    walk links (<[k := File data]> t) follow cur todo
    = inr (afterWrite k data r).
Proof.
  intros Hk.
  induction links as [|n IHn];
    (induction todo as [|e rest IHrest]; intros cur r;
     [rewrite !walk_nil; intros [= <-]; reflexivity|]);
    rewrite !walk_cons;
    repeat case_decide; eauto.
  all: destruct (decide (cur ++ [e] = k)) as [<-|Hne].
  all: try (rewrite tree_lookup_insert_eq;
            destruct Hk as [->|[d0 ->]];
            (destruct rest; [|congruence]); intros [= <-]; simpl;
            rewrite decide_True by reflexivity; reflexivity).
  all: rewrite tree_lookup_insert_ne by congruence;
       destruct (t !! (cur ++ [e])) as [[|d'|target]|] eqn:Hlook; eauto.
  all: try (destruct rest; [|congruence]; intros [= <-]; simpl;
            rewrite decide_False by congruence; reflexivity).
  - destruct (bool_decide (rest = []) && negb follow); [|congruence].
    intros [= <-]; reflexivity.
  - destruct (bool_decide (rest = []) && negb follow).
    + intros [= <-]; reflexivity.
    + case_decide; [congruence|]. apply IHn.
Qed.

Lemma ReadFile_WriteFile_sim (t t' : tree) (p data : string) (perm : Z) :
  WriteFile t p data perm = (t', None) → ReadFile t' p = Ok data.
Proof.
  unfold WriteFile, ReadFile, locate.
  destruct (decide (p = "")) as [->|Hp]; [simpl; congruence|].
  destruct (walk maxLinks t true [] (pathElems p)) as [e|[k [|d|target]|dir name]]
    eqn:Hwalk; try congruence.
  - intros [= <-].
    rewrite (walk_insert_file t true k data) with (r := Found k (File d)).
    + simpl. rewrite decide_True by reflexivity. reflexivity.
    + right. eexists. eapply walk_found_file. exact Hwalk.
    + exact Hwalk.
  - intros [= <-].
    rewrite (walk_insert_file t true (dir ++ [name]) data) with (r := Missing dir name).
    + simpl. rewrite decide_True by reflexivity. reflexivity.
    + left. eapply walk_missing. exact Hwalk.
    + exact Hwalk.
Qed.

Lemma ReadFile_WriteFile_other_sim (t t' : tree) (p q data old : string)
  (perm : Z) (e : option error) :
  WriteFile t q data perm = (t', e) →
  ReadFile t p = Ok old →
  sameEntry t p q = false →
  ReadFile t' p = Ok old.
Proof.
  unfold WriteFile, ReadFile, sameEntry, locate.
  destruct (decide (p = "")) as [->|Hp]; [simpl; congruence|].
  destruct (walk maxLinks t true [] (pathElems p)) as [ep|[kp [|dp|tp]|dirp namep]]
    eqn:Hp_walk; try congruence.
  intros Hw [= ->] Hsame.
  assert (Hkp : t !! kp = Some (File old)) by (eapply walk_found_file; eauto).
  destruct (decide (q = "")) as [->|Hq];
    [simpl in Hw; injection Hw as <- _; now rewrite Hp_walk|].
  destruct (walk maxLinks t true [] (pathElems q)) as [eq|[kq [|dq|tq]|dirq nameq]]
    eqn:Hq_walk; try (injection Hw as <- _; now rewrite Hp_walk).
  - injection Hw as <- _.
    apply bool_decide_eq_false in Hsame.
    rewrite (walk_insert_file t true kq data) with (r := Found kp (File old)).
    + simpl. rewrite decide_False by exact Hsame. reflexivity.
    + right. eexists. eapply walk_found_file. exact Hq_walk.
    + exact Hp_walk.
  - injection Hw as <- _.
    assert (Hmiss : t !! (dirq ++ [nameq]) = None) by (eapply walk_missing; eauto).
    rewrite (walk_insert_file t true (dirq ++ [nameq]) data) with (r := Found kp (File old)).
    + simpl. rewrite decide_False by congruence. reflexivity.
    + now left.
    + exact Hp_walk.
Qed.

Lemma length_removelast_pred {A} (l : list A) :
  length (removelast l) = pred (length l).
Proof.
  induction l as [|x [|y l] IH]; [reflexivity..|].
  change (removelast (x :: y :: l)) with (x :: removelast (y :: l)).
  change (length (x :: removelast (y :: l)))
    with (S (length (removelast (y :: l)))).
  rewrite IH. reflexivity.
Qed.

(** The fuel of [MkdirAll] is enough: more of it changes nothing. *)
Lemma MkdirAllFuel_enough (n : nat) :
  ∀ (m : nat) (t : tree) (p : string),
    String.length p ≤ n → String.length p ≤ m →
    MkdirAllFuel n t p = MkdirAllFuel m t p.
Proof.
  induction n as [|n IH]; intros m t p Hn Hm.
  - destruct p; [|simpl in Hn; lia]. destruct m; reflexivity.
  - destruct m as [|m].
    { destruct p; [|simpl in Hm; lia]. reflexivity. }
    simpl. destruct (Stat t p); [reflexivity|].
    destruct (decide (p = "")) as [->|Hp]; [reflexivity|].
    pose proof (parentOf_shorter p Hp) as Hshort. unfold parentOf in Hshort.
    change PathSeparator with "/" in Hshort.
    set (dir := (filepath_Split (strings_TrimRight p "/")).1) in *.
    case_decide; [|reflexivity].
    rewrite (IH m); [reflexivity|..];
      rewrite length_ofBytes, length_removelast_pred, length_bytes.
    all: unfold dir in Hshort; simpl in Hshort; lia.
Qed.

(** [os.Symlink] onto a path where an entry is, a link itself counting,
    fails with EEXIST and changes nothing. *)
Lemma Symlink_taken (t : tree) (old new : string) (k : list string) (n : node) :
  old ≠ "" → locate t false new = inr (Found k n) →
  Symlink t old new = (t, Some (LinkError "symlink" old new EEXIST)).
Proof.
  intros Hold Hloc. unfold Symlink. rewrite decide_False by exact Hold.
  now rewrite Hloc.
Qed.

(** Resolution without following a last link, when it ends at a directory
    or lacks the last element, is resolution. *)
Lemma walk_follow (t : tree) (links : nat) :
  ∀ (todo cur : list string) (r : located),
    walk links t false cur todo = inr r →
    (∀ k target, r ≠ Found k (Link target)) →
    walk links t true cur todo = inr r.
Proof.
  induction links as [|n IHn];
    (induction todo as [|e rest IHrest]; intros cur r;
     [rewrite !walk_nil; auto|]);
    rewrite !walk_cons;
    repeat case_decide; eauto;
    destruct (t !! (cur ++ [e])) as [[|d'|target]|] eqn:Hlook; eauto.
  all: rewrite andb_false_r; rewrite andb_true_r.
  all: case_bool_decide; [intros [= <-] Hr; exfalso; eapply Hr; reflexivity|].
  - auto.
  - case_decide; [auto|]. apply IHn.
Qed.

Lemma walk_insert_dir (t : tree) (follow : bool) (d : list string) (e : string)
  (extra : list string) :
  extra = [] ∨ extra = ["."] →
  ∀ (links : nat) (todo cur : list string),
    walk links t follow cur todo = inr (Missing d e) →
    walk links (<[d ++ [e] := Dir]> t) follow cur (todo ++ extra)
    = inr (Found (d ++ [e]) Dir).
Proof.
  intros Hextra.
  induction links as [|n IHn];
    (induction todo as [|e0 rest IHrest]; intros cur;
     [rewrite walk_nil; congruence|]);
    intros Hwalk; pose proof (walk_missing _ _ _ _ _ _ _ Hwalk) as Hnone;
    revert Hwalk; rewrite <- app_comm_cons, !walk_cons;
    repeat case_decide; eauto.
  all: destruct (decide (cur ++ [e0] = d ++ [e])) as [Heq|Hne].
  all: try (rewrite Heq, Hnone, tree_lookup_insert_eq;
            destruct rest; [|discriminate]; intros _; cbn [app];
            destruct Hextra as [->| ->];
            [rewrite walk_nil
            |rewrite walk_cons, decide_True, walk_nil by reflexivity];
            reflexivity).
  all: rewrite tree_lookup_insert_ne by congruence;
       destruct (t !! (cur ++ [e0])) as [[|d'|target]|] eqn:Hlook; eauto.
  all: try (destruct rest; [intros [= <- <-]; congruence | discriminate]).
  all: try (destruct rest; discriminate).
  - destruct (bool_decide (rest = []) && negb follow); discriminate.
  - destruct (bool_decide (rest = []) && negb follow) eqn:Hcond; [discriminate|].
    assert (Hcond' : bool_decide (rest ++ extra = []) && negb follow = false).
    { destruct follow; [apply andb_false_r|]. rewrite andb_true_r in *.
      apply bool_decide_eq_false in Hcond. apply bool_decide_eq_false.
      intros Happ. apply app_eq_nil in Happ. tauto. }
    rewrite Hcond'. case_decide; [discriminate|].
    rewrite app_assoc. apply IHn.
Qed.

Local Arguments walk : simpl never.

(** A successful [os.MkdirAll] leaves a directory at its path. *)
Lemma MkdirAll_makes_directory (t t' : tree) (p : string) (perm : Z) :
  MkdirAll t p perm = (t', None) → Stat t' p = Ok (mkFileInfo true).
Proof.
  unfold MkdirAll. generalize (String.length p) as fuel. intros fuel.
  assert (Hstep :
    MkdirAllFuel fuel t p =
    match Stat t p with
    | Ok i =>
        if IsDir i then (t, None)
        else (t, Some (PathError "mkdir" p ENOTDIR))
    | Err _ =>
        let dir := fst (filepath_Split (strings_TrimRight p "/")) in
        let '(t1, perr) :=
          match fuel with
          | S fuel' =>
              if decide (1 < String.length dir)
              then MkdirAllFuel fuel' t (ofBytes (removelast (bytes dir)))
              else (t, None)
          | O => (t, None)
          end in
        match perr with
        | Some e => (t1, Some e)
        | None =>
            let '(t2, merr) := Mkdir t1 p in
            match merr with
            | None => (t2, None)
            | Some e =>
                match Lstat t1 p with
                | Ok i => if IsDir i then (t1, None) else (t1, Some e)
                | Err _ => (t1, Some e)
                end
            end
        end
    end) by (destruct fuel; reflexivity).
  rewrite Hstep. clear Hstep.
  destruct (Stat t p) as [[isdir]|sErr] eqn:Hstat; simpl.
  - destruct isdir; [|discriminate]. intros [= <-]. exact Hstat.
  - destruct (match fuel with O => _ | S _ => _ end) as [t1 [perr|]];
      [discriminate|].
    unfold Mkdir, Lstat, Stat, locate.
    destruct (decide (p = "")) as [->|Hp]; simpl; [discriminate|].
    destruct (walk maxLinks t1 false [] (filter (λ e, e ≠ "") (splitOn "/" p)))
      as [e|[k n|d e]] eqn:Hmk.
    + destruct (walk maxLinks t1 false [] (pathElems p)) as [e'|[k [|d|tg]|d e']]
        eqn:Hl; try discriminate.
      simpl. intros [= <-].
      rewrite (walk_follow _ _ _ _ _ Hl); [reflexivity | discriminate].
    + destruct (walk maxLinks t1 false [] (pathElems p)) as [e'|[k' [|d|tg]|d e']]
        eqn:Hl; try discriminate.
      simpl. intros [= <-].
      rewrite (walk_follow _ _ _ _ _ Hl); [reflexivity | discriminate].
    + intros [= <-]. unfold pathElems.
      apply walk_follow in Hmk; [|discriminate].
      rewrite (walk_insert_dir t1 true d e _) ; [reflexivity| |exact Hmk].
      destruct (endsWithSeparator p); auto.
Qed.

Global Instance SimFS_laws : OSLaws (os := SimFS.os) := {|
  MkdirAll_directory t p perm t' Hmk :=
    ex_intro _ (mkFileInfo true)
      (conj (MkdirAll_makes_directory t t' p perm Hmk) eq_refl);
  sameFile t p q := sameEntry t p q = true;
  ReadFile_WriteFile t p data perm t' := ReadFile_WriteFile_sim t t' p data perm;
  ReadFile_WriteFile_other t p q data perm t' e old Hw Hr Hs :=
    ReadFile_WriteFile_other_sim t t' p q data old perm e Hw Hr
      (not_true_is_false _ Hs);
|}.

End SimFSFacts.

(* ===================================================================== *)
(** * MountPoints: the result and the root *)
(* ===================================================================== *)

(** The Mount of a call against the MountPoints it produces. *)
Lemma MountPoints_produced_nonempty `{os : OS}
  (contextPath contextAbsPath : string) (paths : list string)
  (hidden : bool) (fs : FS) :
  match (MountPoints contextPath contextAbsPath paths hidden fs).1.1 with
  | None => producedPoints contextPath contextAbsPath paths hidden fs = []
  | Some m =>
      producedPoints contextPath contextAbsPath paths hidden fs ≠ [] ∧
      Mount.Points m = producedPoints contextPath contextAbsPath paths hidden fs
  end.
Proof.
  unfold producedPoints, MountPoints.
  destruct (prepareRoot contextAbsPath fs) as [srcs fs1|created short srcs fs1];
    simpl; [reflexivity|].
  set (st := mountLoop contextPath contextAbsPath hidden paths _).
  destruct (mtPoints st) as [|mp l] eqn:Hpts; simpl; [reflexivity|].
  destruct created; simpl; split; congruence.
Qed.

(** C2.  A call that produces no MountPoint returns a nil Mount, also when
    it has just created the mount root; a call that produces at least one
    returns a Mount whose [Points] are the produced MountPoints, in order. *)
Theorem MountPoints_mount_holds_produced `{os : OS}
  (contextPath contextAbsPath : string) (paths : list string)
  (hidden : bool) (fs : FS) :
  let produced := producedPoints contextPath contextAbsPath paths hidden fs in
  let mount := (MountPoints contextPath contextAbsPath paths hidden fs).1.1 in
  match mount with
  | None => produced = []
  | Some m => produced ≠ [] ∧ Mount.Points m = produced
  end ∧
  (∀ shortest sources fs1,
     prepareRoot contextAbsPath fs = RootReady true shortest sources fs1 →
     produced = [] → mount = None).
Proof.
  intros produced mount.
  pose proof (MountPoints_produced_nonempty contextPath contextAbsPath paths
                hidden fs) as H.
  fold produced mount in H. split; [exact H|].
  intros shortest sources fs1 _ Hnil.
  destruct mount as [m|]; [|reflexivity].
  destruct H as [Hne _]. contradiction.
Qed.

(** On [Scenario.home] the hidden file alone gives no Mount although
    [/work/mnt] has been created; with [docs] the Mount holds its point. *)
Lemma MountPoints_mount_holds_produced_witness :
  (MountPoints (os := SimFS.os) "" "/work/mnt" ["/home/u/.secret"] false
     Scenario.home).1.1 = None ∧
  match (MountPoints (os := SimFS.os) "" "/work/mnt"
           ["/home/u/.secret"; "/home/u/docs"] false Scenario.home).1.1 with
  | Some m =>
      Mount.Points m = [MountPoint.mk true "/docs" "/home/u/docs" "/work/mnt/docs"]
  | None => False
  end.
Proof.
  split.
  - destruct (MountPoints_mount_holds_produced (os := SimFS.os)
                "" "/work/mnt" ["/home/u/.secret"] false Scenario.home)
      as [_ H].
    apply (H "/work/" ["/work/"]
             (SimFS.MkdirAll Scenario.home "/work/mnt" 0).1);
      vm_compute; reflexivity.
  - destruct (MountPoints_mount_holds_produced (os := SimFS.os)
                "" "/work/mnt" ["/home/u/.secret"; "/home/u/docs"] false
                Scenario.home) as [H _].
    vm_compute in H |- *. destruct H as [_ H]. exact H.
Defined.

(** C3.  When [os.Stat] of the mount root fails with an error that is not
    non-existence, the call ends there: nil Mount, no sources, no
    MountPoints, the file system as it was.  When the error is non-existence,
    the call computes [LeastNonExistantRoot], reports it in [sources] and, in
    the Mount it returns, as [ShortestMountRoot], and calls [os.MkdirAll] on
    the root: on success the root is a directory of the file system on which
    the loop then runs, and a failure ends the call with a nil Mount. *)
Theorem MountPoints_root_stat_error `{os : OS} `{!OSLaws}
  (contextPath contextAbsPath : string) (paths : list string)
  (hidden : bool) (fs : FS) (fErr : error) :
  os_Stat fs contextAbsPath = Err fErr →
  (os_IsNotExist fErr = false →
     MountPoints contextPath contextAbsPath paths hidden fs = ((None, []), fs) ∧
     producedPoints contextPath contextAbsPath paths hidden fs = []) ∧
  (os_IsNotExist fErr = true →
     let sRoot := LeastNonExistantRoot fs contextAbsPath in
     let made := os_MkdirAll fs contextAbsPath (Z.lor os_ModeDir perm_0755) in
     let result := MountPoints contextPath contextAbsPath paths hidden fs in
     result.1.2 = (if decide (sRoot = "") then [] else [sRoot]) ∧
     (∀ m, result.1.1 = Some m →
           Mount.ShortestMountRoot m = sRoot ∧
           Mount.CreatedMountDir m = contextAbsPath) ∧
     match made.2 with
     | Some mkErr => result.1.1 = None ∧ result.2 = made.1
     | None =>
         statIsDir made.1 contextAbsPath ∧
         result.2 =
         loopFS (mountLoop contextPath contextAbsPath hidden paths
                   (mkLoop made.1 ∅ []))
     end).
Proof.
  intros Hstat. unfold MountPoints, producedPoints, prepareRoot.
  rewrite Hstat. simpl. split; intros Hne; rewrite Hne; simpl.
  - split; reflexivity.
  - destruct (os_MkdirAll fs contextAbsPath _) as [fs1 [mkErr|]] eqn:Hmk;
      simpl.
    + destruct (decide (LeastNonExistantRoot fs contextAbsPath ≠ ""));
        simpl.
      * rewrite decide_False by assumption. repeat split; discriminate.
      * rewrite decide_True by (destruct (decide
          (LeastNonExistantRoot fs contextAbsPath = "")); tauto).
        repeat split; discriminate.
    + pose proof (MkdirAll_directory _ _ _ _ Hmk) as Hdir.
      destruct (decide (LeastNonExistantRoot fs contextAbsPath ≠ ""))
        as [Hr|Hr]; simpl.
      * rewrite decide_False by assumption. split; [reflexivity|].
        split; [|split; [exact Hdir | reflexivity]].
        intros m. case_decide; [|discriminate]. intros [= <-]. auto.
      * assert (Hr' : LeastNonExistantRoot fs contextAbsPath = "")
          by (destruct (decide (LeastNonExistantRoot fs contextAbsPath = ""));
              tauto).
        rewrite decide_True by assumption. split; [reflexivity|].
        split; [|split; [exact Hdir | reflexivity]].
        intros m. case_decide; [|discriminate]. intros [= <-]. auto.
Qed.

(** On [Scenario.home]: [os.Stat] of [/home/u/.secret/mnt] fails with
    ENOTDIR and nothing happens; [os.Stat] of [/work/mnt] fails with ENOENT,
    the sources are [["/work/"]], and [/work] and [/work/mnt] are found
    afterwards. *)
Lemma MountPoints_root_stat_error_witness :
  MountPoints (os := SimFS.os) "" "/home/u/.secret/mnt" ["/home/u/docs"] false
    Scenario.home = ((None, []), Scenario.home) ∧
  let result := MountPoints (os := SimFS.os) "" "/work/mnt" ["/home/u/docs"]
                  false Scenario.home in
  result.1.2 = ["/work/"] ∧
  os_Stat (OS := SimFS.os) result.2 "/work" = Ok (mkFileInfo true) ∧
  os_Stat (OS := SimFS.os) result.2 "/work/mnt" = Ok (mkFileInfo true).
Proof.
  split.
  - destruct (MountPoints_root_stat_error (os := SimFS.os)
                "" "/home/u/.secret/mnt" ["/home/u/docs"] false Scenario.home
                (PathError "stat" "/home/u/.secret/mnt" ENOTDIR))
      as [H _]; [vm_compute; reflexivity|].
    apply H. reflexivity.
  - destruct (MountPoints_root_stat_error (os := SimFS.os)
                "" "/work/mnt" ["/home/u/docs"] false Scenario.home
                (PathError "stat" "/work/mnt" ENOENT))
      as [_ H]; [vm_compute; reflexivity|].
    destruct (H eq_refl) as (Hsrc & _ & Hfs).
    split; [rewrite Hsrc; vm_compute; reflexivity|].
    split; vm_compute; reflexivity.
Defined.

(** C6.  In a Mount that [MountPoints] returns, a root that existed before
    the call leaves [CreatedMountDir] and [ShortestMountRoot] empty, and the
    two fields are empty together or set together: when set, they are the
    root that the call created and [LeastNonExistantRoot] of it, and they are
    set when the call has created a root (of a non-empty path). *)
Theorem Mount_root_fields_together `{os : OS}
  (contextPath contextAbsPath : string) (paths : list string)
  (hidden : bool) (fs : FS) (m : Mount.t) :
  (MountPoints contextPath contextAbsPath paths hidden fs).1.1 = Some m →
  (statExists fs contextAbsPath →
     Mount.CreatedMountDir m = "" ∧ Mount.ShortestMountRoot m = "") ∧
  (Mount.CreatedMountDir m = "" ↔ Mount.ShortestMountRoot m = "") ∧
  (Mount.CreatedMountDir m ≠ "" →
     ¬ statExists fs contextAbsPath ∧
     Mount.CreatedMountDir m = contextAbsPath ∧
     Mount.ShortestMountRoot m = LeastNonExistantRoot fs contextAbsPath) ∧
  (∀ shortest sources fs1,
     prepareRoot contextAbsPath fs = RootReady true shortest sources fs1 →
     contextAbsPath ≠ "" →
     Mount.CreatedMountDir m ≠ "" ∧ Mount.ShortestMountRoot m ≠ "").
Proof.
  unfold MountPoints, prepareRoot, statExists.
  destruct (os_Stat fs contextAbsPath) as [i|fErr] eqn:Hstat; simpl.
  - case_decide; [|discriminate]. intros [= <-]. simpl.
    repeat split; congruence.
  - destruct (os_IsNotExist fErr); simpl; [|discriminate].
    pose proof (LeastNonExistantRoot_cases fs contextAbsPath) as Hcases.
    unfold statExists in Hcases. rewrite Hstat in Hcases. simpl in Hcases.
    set (sRoot := LeastNonExistantRoot fs contextAbsPath) in *.
    assert (Hshort :
      (if decide (sRoot ≠ "") then (sRoot, [] ++ [sRoot]) else ("", [])).1
      = sRoot).
    { destruct (decide (sRoot ≠ "")) as [|Hn]; [reflexivity|]. simpl.
      destruct (decide (sRoot = "")); [congruence | tauto]. }
    destruct (if decide (sRoot ≠ "") then _ else _) as [short srcs].
    simpl in Hshort. subst short.
    destruct (os_MkdirAll fs contextAbsPath _) as [fs1 [mkErr|]]; simpl;
      [discriminate|].
    case_decide; [|discriminate]. intros [= <-]. simpl.
    assert (Hboth : contextAbsPath = "" ↔ sRoot = "").
    { destruct Hcases as [[Hr [Hp|Hp]]|(Hr & Hp & _)];
        split; intros; congruence. }
    split; [congruence|]. split; [exact Hboth|]. split.
    + intros _. repeat split. congruence.
    + intros _ _ _ _ Hne. split; [exact Hne | tauto].
Qed.

(** On [Scenario.home]: under the existing [/home/u] both fields of the
    Mount are empty, under the missing [/work/mnt] both are set. *)
Lemma Mount_root_fields_together_witness :
  (∃ m, (MountPoints (os := SimFS.os) "" "/home/u" ["/home/u/docs"] false
           Scenario.home).1.1 = Some m ∧
        Mount.CreatedMountDir m = "" ∧ Mount.ShortestMountRoot m = "") ∧
  (∃ m, (MountPoints (os := SimFS.os) "" "/work/mnt" ["/home/u/docs"] false
           Scenario.home).1.1 = Some m ∧
        Mount.CreatedMountDir m = "/work/mnt" ∧
        Mount.ShortestMountRoot m = "/work/").
Proof.
  split.
  - exists (Mount.mk "" ""
              [MountPoint.mk false "/docs" "/home/u/docs" "/home/u/docs"]).
    assert (Hm : (MountPoints (os := SimFS.os) "" "/home/u" ["/home/u/docs"]
                    false Scenario.home).1.1
                 = Some (Mount.mk "" ""
                           [MountPoint.mk false "/docs" "/home/u/docs"
                              "/home/u/docs"]))
      by (vm_compute; reflexivity).
    split; [exact Hm|].
    destruct (Mount_root_fields_together (os := SimFS.os) _ _ _ _ _ _ Hm)
      as (H & _ & _ & _).
    apply H. vm_compute. discriminate.
  - exists (Mount.mk "/work/mnt" "/work/"
              [MountPoint.mk true "/docs" "/home/u/docs" "/work/mnt/docs"]).
    assert (Hm : (MountPoints (os := SimFS.os) "" "/work/mnt" ["/home/u/docs"]
                    false Scenario.home).1.1
                 = Some (Mount.mk "/work/mnt" "/work/"
                           [MountPoint.mk true "/docs" "/home/u/docs"
                              "/work/mnt/docs"]))
      by (vm_compute; reflexivity).
    split; [exact Hm|].
    destruct (Mount_root_fields_together (os := SimFS.os) _ _ _ _ _ _ Hm)
      as (_ & _ & H & _).
    destruct H as (_ & H1 & H2); [simpl; discriminate|].
    split; [exact H1|]. rewrite H2. vm_compute. reflexivity.
Defined.

(** C9 as stated fails: with the missing root [/work] and the source path
    [/work] (which exists once the root is made), [sources] is [["/work"]]
    and so holds one of the caller's source paths. *)
Lemma sources_can_hold_a_source_path :
  ¬ (∀ p : string,
       p ∈ ["/work"] →
       p ∉ (MountPoints (os := SimFS.os) "" "/work" ["/work"] false
              Scenario.home).1.2).
Proof.
  intros H. apply (H "/work").
  - apply list_elem_of_here.
  - vm_compute. apply list_elem_of_here.
Qed.

(** C9, amended.  [sources] is not built from the caller's source paths:
    it is empty unless [os.Stat] of the mount root failed with non-existence
    and [LeastNonExistantRoot] of the root is non-empty, and then it is that
    one path; it is the same for every list of source paths, and a source
    path is in it only by being equal to that path. *)
Theorem MountPoints_sources `{os : OS}
  (contextPath contextAbsPath : string) (paths : list string)
  (hidden : bool) (fs : FS) :
  let sources := (MountPoints contextPath contextAbsPath paths hidden fs).1.2 in
  let sRoot := LeastNonExistantRoot fs contextAbsPath in
  sources =
    match os_Stat fs contextAbsPath with
    | Ok _ => []
    | Err fErr =>
        if os_IsNotExist fErr && bool_decide (sRoot ≠ "") then [sRoot] else []
    end ∧
  (∀ contextPath' paths' hidden',
     (MountPoints contextPath' contextAbsPath paths' hidden' fs).1.2 = sources) ∧
  (∀ p, p ∈ paths → p ∈ sources → p = sRoot).
Proof.
  assert (Hsrc : ∀ cp ps h,
    (MountPoints cp contextAbsPath ps h fs).1.2 =
    match os_Stat fs contextAbsPath with
    | Ok _ => []
    | Err fErr =>
        if os_IsNotExist fErr &&
           bool_decide (LeastNonExistantRoot fs contextAbsPath ≠ "")
        then [LeastNonExistantRoot fs contextAbsPath] else []
    end).
  { intros cp ps h. unfold MountPoints, prepareRoot.
    destruct (os_Stat fs contextAbsPath) as [i|fErr]; simpl; [reflexivity|].
    destruct (os_IsNotExist fErr); simpl; [|reflexivity].
    destruct (decide (LeastNonExistantRoot fs contextAbsPath ≠ "")) as [Hr|Hr].
    - rewrite bool_decide_eq_true_2 by exact Hr.
      destruct (os_MkdirAll fs contextAbsPath _) as [fs1 [mkErr|]]; reflexivity.
    - rewrite bool_decide_eq_false_2 by exact Hr.
      destruct (os_MkdirAll fs contextAbsPath _) as [fs1 [mkErr|]]; reflexivity. }
  simpl. split; [apply Hsrc|]. split.
  - intros cp ps h. now rewrite !Hsrc.
  - intros p _. rewrite Hsrc.
    destruct (os_Stat fs contextAbsPath) as [i|fErr].
    + intros Hin. now apply elem_of_nil in Hin.
    + destruct (os_IsNotExist fErr && _).
      * intros Hin. now apply list_elem_of_singleton in Hin.
      * intros Hin. now apply elem_of_nil in Hin.
Qed.

(** On [Scenario.home]: the sources of a call under the missing
    [/work/mnt] are [["/work/"]] whatever the source paths are. *)
Lemma MountPoints_sources_witness :
  (MountPoints (os := SimFS.os) "" "/work/mnt" ["/home/u/docs"] false
     Scenario.home).1.2 = ["/work/"] ∧
  (MountPoints (os := SimFS.os) "ctx" "/work/mnt" [] true
     Scenario.home).1.2 = ["/work/"].
Proof.
  destruct (MountPoints_sources (os := SimFS.os)
              "" "/work/mnt" ["/home/u/docs"] false Scenario.home)
    as (Heq & Hsame & _).
  split.
  - rewrite Heq. vm_compute. reflexivity.
  - rewrite (Hsame "ctx" [] true), Heq. vm_compute. reflexivity.
Defined.

(* ===================================================================== *)
(** * MountPoints: the passes over the source paths *)
(* ===================================================================== *)

(** C1.  When the loop reaches a source path [p] for the first time, finds
    it, lets it through the hidden filter, and [os.Symlink] then fails with an
    error that [os.IsExist] accepts, the call returns a Mount with exactly
    one MountPoint for [p]; its [CanClean] is false, and [Unmount] on it
    returns no error and leaves every file system as it is. *)
Theorem collision_keeps_uncleanable_point `{os : OS}
  (contextPath contextAbsPath : string) (hidden : bool)
  (pre post : list string) (p : string) (fs : FS) (st : LoopState FS)
  (info : FileInfo) (fs1 : FS) (lErr : error) :
  stateBefore contextPath contextAbsPath hidden pre fs = Some st →
  p ∉ pre →
  os_Stat (loopFS st) p = Ok info →
  hiddenSkips hidden p = false →
  os_Symlink (loopFS st) p (mountPathOf contextAbsPath p) = (fs1, Some lErr) →
  os_IsExist lErr = true →
  ∃ m mp,
    (MountPoints contextPath contextAbsPath (pre ++ p :: post) hidden fs).1.1
      = Some m ∧
    pointsFor p (Mount.Points m) = [mp] ∧
    MountPoint.AbsPath mp = p ∧
    MountPoint.MountPath mp = mountPathOf contextAbsPath p ∧
    MountPoint.CanClean mp = false ∧
    ∀ fs', Unmount mp fs' = (fs', None).
Proof.
  intros Hst Hpre Hstat Hhid Hlink Hexist.
  pose proof (producedPoints_first contextPath contextAbsPath hidden
                pre post p fs st Hpre Hst) as Hfirst.
  assert (Hy : yieldsPoint contextAbsPath hidden st p = true).
  { unfold yieldsPoint. rewrite Hstat, Hhid, Hlink. simpl. exact Hexist. }
  rewrite Hy, Hlink in Hfirst. simpl in Hfirst.
  pose proof (MountPoints_produced_nonempty contextPath contextAbsPath
                (pre ++ p :: post) hidden fs) as Hmount.
  destruct ((MountPoints contextPath contextAbsPath (pre ++ p :: post)
               hidden fs).1.1) as [m|].
  - destruct Hmount as [_ Hpts]. exists m. eexists. split; [reflexivity|].
    rewrite Hpts, Hfirst. repeat split.
  - rewrite Hmount in Hfirst. discriminate.
Qed.

(** On [Scenario.occupied] the link path [/mnt/docs] is taken by a regular
    file: the call returns the MountPoint of [/home/u/docs] with [CanClean]
    false, and [Unmount] on it leaves the file system, which the call has not
    changed either, as it is. *)
Lemma collision_keeps_uncleanable_point_witness :
  let result := MountPoints (os := SimFS.os) "" "/mnt" ["/home/u/docs"] false
                  Scenario.occupied in
  ∃ m mp,
    result.1.1 = Some m ∧
    Mount.Points m = [mp] ∧
    mp = MountPoint.mk false "/docs" "/home/u/docs" "/mnt/docs" ∧
    Unmount (os := SimFS.os) mp result.2 = (Scenario.occupied, None).
Proof.
  destruct (collision_keeps_uncleanable_point (os := SimFS.os)
              "" "/mnt" false [] [] "/home/u/docs" Scenario.occupied
              (mkLoop Scenario.occupied ∅ []) (mkFileInfo true)
              Scenario.occupied
              (LinkError "symlink" "/home/u/docs" "/mnt/docs" EEXIST))
    as (m & mp & Hm & Hp & Ha & Hmp & Hc & Hu);
    [vm_compute; reflexivity | apply not_elem_of_nil | vm_compute; reflexivity..|].
  exists m, mp. split; [exact Hm|].
  vm_compute in Hm. injection Hm as <-.
  vm_compute in Hp. injection Hp as <-.
  split; [reflexivity|]. split; [reflexivity|]. vm_compute. reflexivity.
Defined.

(** C7 as stated fails: a source path that does not exist, given twice,
    yields no MountPoint at all; the call returns a nil Mount. *)
Lemma repeated_missing_path_yields_none :
  (MountPoints (os := SimFS.os) "" "/mnt" ["/nope"; "/nope"] false
     Scenario.occupied).1.1 = None ∧
  ¬ length (pointsFor "/nope"
              (producedPoints (os := SimFS.os) "" "/mnt" ["/nope"; "/nope"]
                 false Scenario.occupied)) = 1.
Proof. split; [vm_compute; reflexivity | vm_compute; discriminate]. Qed.

(** C7, amended.  In the Mount that a call returns a source path has at
    most one MountPoint, however often the list holds it.  The pass over its
    first occurrence decides: when the source is found there, the hidden
    filter lets it through and the link is created or its path is taken, the
    call returns a Mount with exactly one MountPoint for it; otherwise a
    returned Mount has none.  A later occurrence is skipped with no effect at
    all (the call returns what the call without it returns). *)
Theorem MountPoints_one_point_per_source `{os : OS}
  (contextPath contextAbsPath : string) (paths : list string)
  (hidden : bool) (fs : FS) (p : string) :
  (∀ m,
     (MountPoints contextPath contextAbsPath paths hidden fs).1.1 = Some m →
     length (pointsFor p (Mount.Points m)) ≤ 1) ∧
  (∀ pre post st,
     paths = pre ++ p :: post → p ∉ pre →
     stateBefore contextPath contextAbsPath hidden pre fs = Some st →
     (yieldsPoint contextAbsPath hidden st p = true →
      ∃ m mp,
        (MountPoints contextPath contextAbsPath paths hidden fs).1.1 = Some m ∧
        pointsFor p (Mount.Points m) = [mp] ∧
        MountPoint.AbsPath mp = p) ∧
     (yieldsPoint contextAbsPath hidden st p = false →
      ∀ m,
        (MountPoints contextPath contextAbsPath paths hidden fs).1.1 = Some m →
        pointsFor p (Mount.Points m) = [])) ∧
  (∀ pre post,
     paths = pre ++ p :: post → p ∈ pre →
     MountPoints contextPath contextAbsPath paths hidden fs
     = MountPoints contextPath contextAbsPath (pre ++ post) hidden fs).
Proof.
  pose proof (MountPoints_produced_nonempty contextPath contextAbsPath
                paths hidden fs) as Hmount.
  assert (Hfirst : ∀ pre post st,
     paths = pre ++ p :: post → p ∉ pre →
     stateBefore contextPath contextAbsPath hidden pre fs = Some st →
     pointsFor p (producedPoints contextPath contextAbsPath paths hidden fs)
     = if yieldsPoint contextAbsPath hidden st p
       then [MountPoint.mk
               (bool_decide
                  ((os_Symlink (loopFS st) p
                      (mountPathOf contextAbsPath p)).2 = None))
               (relPathOf contextPath p) p (mountPathOf contextAbsPath p)]
       else []).
  { intros pre post st -> Hpre Hst.
    apply (producedPoints_first _ _ _ pre post p fs st Hpre Hst). }
  split; [|split].
  - intros m Hm. rewrite Hm in Hmount. destruct Hmount as [_ ->].
    destruct (decide (p ∈ paths)) as [Hin|Hnin].
    + apply list_elem_of_split_l in Hin as (pre & post & Heq & Hpre).
      destruct (stateBefore contextPath contextAbsPath hidden pre fs)
        as [st|] eqn:Hst.
      * rewrite (Hfirst pre post st Heq Hpre Hst).
        destruct (yieldsPoint contextAbsPath hidden st p); simpl; lia.
      * unfold stateBefore in Hst. unfold producedPoints.
        destruct (prepareRoot contextAbsPath fs); [simpl; lia | discriminate].
    + rewrite pointsFor_none; [simpl; lia|].
      eapply Forall_impl; [apply producedPoints_of_paths|]. simpl.
      intros mp Hin Heq. rewrite Heq in Hin. contradiction.
  - intros pre post st Heq Hpre Hst.
    pose proof (Hfirst pre post st Heq Hpre Hst) as Hp. split.
    + intros Hy. rewrite Hy in Hp.
      destruct ((MountPoints contextPath contextAbsPath paths hidden fs).1.1)
        as [m|].
      * destruct Hmount as [_ Hpts]. exists m. eexists.
        split; [reflexivity|]. rewrite Hpts, Hp. split; reflexivity.
      * rewrite Hmount in Hp. discriminate.
    + intros Hy m Hm. rewrite Hy in Hp. rewrite Hm in Hmount.
      destruct Hmount as [_ ->]. exact Hp.
  - intros pre post -> Hin. unfold MountPoints.
    destruct (prepareRoot contextAbsPath fs) as [|c sh srcs fs1]; [reflexivity|].
    now rewrite (mountLoop_drop_repeat _ _ _ pre post p _ Hin).
Qed.

(** On [Scenario.home]: the call with [/home/u/docs] given twice returns a
    Mount with one MountPoint for it, and is the call without the second
    occurrence. *)
Lemma MountPoints_one_point_per_source_witness :
  (∃ m mp,
     (MountPoints (os := SimFS.os) "" "/work/mnt"
        ["/home/u/docs"; "/home/u/docs"] false Scenario.home).1.1 = Some m ∧
     pointsFor "/home/u/docs" (Mount.Points m) = [mp] ∧
     MountPoint.AbsPath mp = "/home/u/docs") ∧
  MountPoints (os := SimFS.os) "" "/work/mnt" ["/home/u/docs"; "/home/u/docs"]
    false Scenario.home
  = MountPoints (os := SimFS.os) "" "/work/mnt" ["/home/u/docs"] false
      Scenario.home.
Proof.
  destruct (MountPoints_one_point_per_source (os := SimFS.os)
              "" "/work/mnt" ["/home/u/docs"; "/home/u/docs"] false
              Scenario.home "/home/u/docs") as (_ & Hfirst & Hrepeat).
  split.
  - destruct (Hfirst [] ["/home/u/docs"]
                (mkLoop (SimFS.MkdirAll Scenario.home "/work/mnt" 0).1 ∅ []))
      as [Hyes _];
      [reflexivity | apply not_elem_of_nil | vm_compute; reflexivity|].
    apply Hyes. vm_compute. reflexivity.
  - apply (Hrepeat ["/home/u/docs"] []); [reflexivity | apply list_elem_of_here].
Defined.

(** C8.  For a source path whose base name begins with ["."]: with
    [hidden = false] a Mount that the call returns has no MountPoint for it;
    with [hidden = true] the call returns a Mount with one MountPoint for it
    when the loop, reaching it for the first time, finds the source and the
    link is created or its path is taken. *)
Theorem MountPoints_hidden_filter `{os : OS}
  (contextPath contextAbsPath : string) (paths : list string)
  (hidden : bool) (fs : FS) (p : string) :
  strings_HasPrefix (filepath_Base p) "." = true →
  (hidden = false →
     ∀ m,
       (MountPoints contextPath contextAbsPath paths hidden fs).1.1 = Some m →
       pointsFor p (Mount.Points m) = []) ∧
  (hidden = true →
     ∀ pre post st,
       paths = pre ++ p :: post → p ∉ pre →
       stateBefore contextPath contextAbsPath hidden pre fs = Some st →
       statExists (loopFS st) p →
       (∀ lErr, (os_Symlink (loopFS st) p (mountPathOf contextAbsPath p)).2
                  = Some lErr → os_IsExist lErr = true) →
       ∃ m mp,
         (MountPoints contextPath contextAbsPath paths hidden fs).1.1
           = Some m ∧
         pointsFor p (Mount.Points m) = [mp] ∧
         MountPoint.AbsPath mp = p ∧
         MountPoint.Name mp = relPathOf contextPath p ∧
         MountPoint.MountPath mp = mountPathOf contextAbsPath p).
Proof.
  intros Hdot.
  pose proof (MountPoints_produced_nonempty contextPath contextAbsPath
                paths hidden fs) as Hmount.
  split.
  - intros -> m Hm. rewrite Hm in Hmount. destruct Hmount as [_ ->].
    apply pointsFor_none.
    eapply Forall_impl; [apply producedPoints_not_hidden|]. simpl.
    intros mp Hskip Heq. rewrite Heq in Hskip.
    unfold hiddenSkips in Hskip. rewrite Hdot in Hskip. discriminate.
  - intros -> pre post st -> Hpre Hst Hex Hlink.
    pose proof (producedPoints_first contextPath contextAbsPath true
                  pre post p fs st Hpre Hst) as Hp.
    assert (Hy : yieldsPoint contextAbsPath true st p = true).
    { unfold yieldsPoint, hiddenSkips. unfold statExists in Hex.
      destruct (val (os_Stat (loopFS st) p)); [|congruence]. simpl.
      destruct ((os_Symlink (loopFS st) p (mountPathOf contextAbsPath p)).2);
        [apply Hlink|]; reflexivity. }
    rewrite Hy in Hp.
    destruct ((MountPoints contextPath contextAbsPath (pre ++ p :: post)
                 true fs).1.1) as [m|].
    + destruct Hmount as [_ Hpts]. exists m. eexists.
      split; [reflexivity|]. rewrite Hpts, Hp. repeat split.
    + rewrite Hmount in Hp. discriminate.
Qed.

(** On [Scenario.home], with the sources [/home/u/.secret] and
    [/home/u/docs]: with [hidden = false] the returned Mount has the
    MountPoint of [docs] only, with [hidden = true] it has one for
    [.secret]. *)
Lemma MountPoints_hidden_filter_witness :
  (∃ m,
     (MountPoints (os := SimFS.os) "" "/work/mnt"
        ["/home/u/.secret"; "/home/u/docs"] false Scenario.home).1.1
       = Some m ∧
     map MountPoint.AbsPath (Mount.Points m) = ["/home/u/docs"] ∧
     pointsFor "/home/u/.secret" (Mount.Points m) = []) ∧
  ∃ m mp,
    (MountPoints (os := SimFS.os) "" "/work/mnt"
       ["/home/u/.secret"; "/home/u/docs"] true Scenario.home).1.1
      = Some m ∧
    pointsFor "/home/u/.secret" (Mount.Points m) = [mp] ∧
    MountPoint.AbsPath mp = "/home/u/.secret" ∧
    MountPoint.Name mp = "/.secret" ∧
    MountPoint.MountPath mp = "/work/mnt/.secret".
Proof.
  split.
  - destruct (MountPoints_hidden_filter (os := SimFS.os)
                "" "/work/mnt" ["/home/u/.secret"; "/home/u/docs"] false
                Scenario.home "/home/u/.secret") as [H _];
      [reflexivity|].
    eexists. split; [vm_compute; reflexivity|]. split; [reflexivity|].
    apply (H eq_refl). vm_compute. reflexivity.
  - destruct (MountPoints_hidden_filter (os := SimFS.os)
                "" "/work/mnt" ["/home/u/.secret"; "/home/u/docs"] true
                Scenario.home "/home/u/.secret") as [_ H];
      [reflexivity|].
    apply (H eq_refl [] ["/home/u/docs"]
             (mkLoop (SimFS.MkdirAll Scenario.home "/work/mnt" 0).1 ∅ []));
      [reflexivity | apply not_elem_of_nil | vm_compute; reflexivity
      | vm_compute; discriminate | vm_compute; discriminate].
Defined.

(* ===================================================================== *)
(** * LeastNonExistantRoot: the highest path that is not found *)
(* ===================================================================== *)



(* ===================================================================== *)
(** * Initialize *)
(* ===================================================================== *)

(** C5.  The code drops the error: when [os.Stat] of the marker path fails
    with an error that is neither non-existence nor existence, [Initialize]
    returns at once with the named result [err] still nil (and no Context,
    [firstInit] false, nothing created), so the error does not reach the
    caller. *)
Theorem Initialize_drops_stat_error `{os : OS} `{json : JSON}
  (absPath : string) (fs : FS) (sErr : error) :
  os_Stat fs (gdPath absPath) = Err sErr →
  os_IsNotExist sErr = false →
  os_IsExist sErr = false →
  Initialize absPath fs = (mkInit (gdPath absPath) false None None, fs).
Proof.
  intros Hstat Hne He. unfold Initialize. rewrite Hstat. simpl.
  rewrite Hne, He. reflexivity.
Qed.

(** On [Scenario.home], [/home/u/.secret] is a regular file: [os.Stat] of
    [/home/u/.secret/.gd] fails with ENOTDIR, and [Initialize] reports no
    error. *)
Lemma Initialize_drops_stat_error_witness :
  os_Stat (OS := SimFS.os) Scenario.home "/home/u/.secret/.gd"
    = Err (PathError "stat" "/home/u/.secret/.gd" ENOTDIR) ∧
  initErr (Initialize (os := SimFS.os) (json := SimJSON.json)
             "/home/u/.secret" Scenario.home).1 = None.
Proof.
  split; [vm_compute; reflexivity|].
  rewrite (Initialize_drops_stat_error (os := SimFS.os) (json := SimJSON.json)
             "/home/u/.secret" Scenario.home
             (PathError "stat" "/home/u/.secret/.gd" ENOTDIR));
    [reflexivity | vm_compute; reflexivity | reflexivity | reflexivity].
Defined.

(** The rest of C5 holds: [firstInit] is true exactly when [os.Stat] says
    that the marker path does not exist. *)
Lemma Initialize_firstInit `{os : OS} `{json : JSON}
  (absPath : string) (fs : FS) :
  firstInit (Initialize absPath fs).1 = true ↔
  ∃ sErr, os_Stat fs (gdPath absPath) = Err sErr ∧ os_IsNotExist sErr = true.
Proof.
  unfold Initialize.
  destruct (os_Stat fs (gdPath absPath)) as [i|sErr] eqn:Hstat; simpl.
  - split; [|intros (e & He & _); discriminate].
    destruct (negb (IsDir i)); simpl; [discriminate|].
    destruct (os_MkdirAll fs _ _) as [fs1 [e|]]; simpl; [discriminate|].
    destruct (Write _ fs1); simpl. discriminate.
  - destruct (os_IsNotExist sErr) eqn:Hne; simpl.
    + split; [eauto|]. intros _.
      destruct (os_MkdirAll fs _ _) as [fs1 [e|]]; simpl; [reflexivity|].
      destruct (Write _ fs1); reflexivity.
    + split; [|intros (e & [= <-] & He); congruence].
      destruct (negb (os_IsExist sErr)); simpl; [discriminate|].
      destruct (os_MkdirAll fs _ _) as [fs1 [e|]]; simpl; [discriminate|].
      destruct (Write _ fs1); simpl. discriminate.
Qed.

(** The rest of C5 holds: a marker path taken by an entry that is not a
    directory makes the call fail with the not-a-directory error, and nothing
    is created. *)
Lemma Initialize_not_a_directory `{os : OS} `{json : JSON}
  (absPath : string) (fs : FS) (sInfo : FileInfo) :
  os_Stat fs (gdPath absPath) = Ok sInfo →
  IsDir sInfo = false →
  Initialize absPath fs =
  (mkInit (gdPath absPath) false None
     (Some (errorString (gdPath absPath +:+ " is not a directory"))), fs).
Proof.
  intros Hstat Hdir. unfold Initialize. rewrite Hstat. simpl.
  rewrite Hdir. reflexivity.
Qed.

(* ===================================================================== *)
(** * ReadIndices and WriteIndices *)
(* ===================================================================== *)

(** C10 as stated fails in its last part: [/a/] is another path than [/a],
    yet writing under it changes what a context rooted at [/a] reads back,
    because [path.Join] cleans both to the indices file [/a/.gd/indices]. *)
Lemma write_under_other_path_changes_read :
  let c := Context.mk "" "" "" "/a" in
  let fs1 := (WriteIndices (os := SimFS.os) (json := SimJSON.json)
                c Scenario.index1 "/a" Scenario.contexts).1 in
  let fs2 := (WriteIndices (os := SimFS.os) (json := SimJSON.json)
                c Scenario.index2 "/a/" fs1).1 in
  "/a/" ≠ "/a" ∧
  ReadIndices (os := SimFS.os) (json := SimJSON.json) c "/a" fs1
    = (Some Scenario.index1, None) ∧
  ReadIndices (os := SimFS.os) (json := SimJSON.json) c "/a" fs2
    = (Some Scenario.index2, None) ∧
  ReadIndices (os := SimFS.os) (json := SimJSON.json) c "/a" fs2
    ≠ ReadIndices (os := SimFS.os) (json := SimJSON.json) c "/a" fs1.
Proof.
  split; [discriminate|].
  split; [vm_compute; reflexivity|].
  split; [vm_compute; reflexivity|].
  vm_compute. discriminate.
Qed.

(** C10, amended.  [ReadIndices] does not look at its path parameter: it
    reads the indices file under the root of its receiver.  [WriteIndices]
    does not look at its receiver: it writes the indices file under its path
    parameter.  So a successful [WriteIndices index p] is read back by
    [ReadIndices] on a context rooted at [p], for an [index] that the JSON
    encoding round-trips; and a write under a path whose indices file is not
    the file that a context reads leaves what that context reads back as it
    was, when the context could read its file before. *)
Theorem indices_written_under_path_read_under_root
  `{os : OS} `{json : JSON} `{!OSLaws} :
  (∀ c p p' fs, ReadIndices c p fs = ReadIndices c p' fs) ∧
  (∀ c c' index p fs, WriteIndices c index p fs = WriteIndices c' index p fs) ∧
  (∀ c c' index data p p' fs fs',
     json_MarshalIndexFile index = Ok data →
     json_UnmarshalIndexFile data IndexFile.zero = (index, None) →
     Context.AbsPath c' = p →
     WriteIndices c index p fs = (fs', None) →
     ReadIndices c' p' fs' = (Some index, None)) ∧
  (∀ c c' index q p' fs fs' e old,
     WriteIndices c index q fs = (fs', e) →
     ioutil_ReadFile fs (indicesAbsPath (Context.AbsPath c')) = Ok old →
     ¬ sameFile fs (indicesAbsPath (Context.AbsPath c')) (indicesAbsPath q) →
     ReadIndices c' p' fs' = ReadIndices c' p' fs).
Proof.
  split; [reflexivity|]. split; [reflexivity|]. split.
  - intros c c' index data p p' fs fs' Hm Hu <- Hw.
    unfold WriteIndices in Hw. rewrite Hm in Hw.
    unfold ReadIndices. rewrite (ReadFile_WriteFile _ _ _ _ _ Hw).
    now rewrite Hu.
  - intros c c' index q p' fs fs' e old Hw Hr Hdiff.
    unfold ReadIndices. rewrite Hr.
    unfold WriteIndices in Hw.
    destruct (json_MarshalIndexFile index) as [data|mErr].
    + now rewrite (ReadFile_WriteFile_other _ _ _ _ _ _ _ _ Hw Hr Hdiff).
    + injection Hw as <- _. now rewrite Hr.
Qed.

(** On [Scenario.contexts]: [index1] written under [/a] is read back by the
    context rooted at [/a], whatever path [ReadIndices] is given, and stays
    what that context reads after [index2] is written under [/b]. *)
Lemma indices_written_under_path_read_under_root_witness :
  let cA := Context.mk "id" "secret" "token" "/a" in
  let cB := Context.mk "" "" "" "/b" in
  let fs1 := (WriteIndices (os := SimFS.os) (json := SimJSON.json)
                cB Scenario.index1 "/a" Scenario.contexts).1 in
  let fs2 := (WriteIndices (os := SimFS.os) (json := SimJSON.json)
                cA Scenario.index2 "/b" fs1).1 in
  ReadIndices (os := SimFS.os) (json := SimJSON.json) cA "/nowhere" fs1
    = (Some Scenario.index1, None) ∧
  ReadIndices (os := SimFS.os) (json := SimJSON.json) cA "/b" fs2
    = (Some Scenario.index1, None).
Proof.
  intros cA cB fs1 fs2.
  destruct (indices_written_under_path_read_under_root
              (os := SimFS.os) (json := SimJSON.json))
    as (_ & _ & Hround & Hother).
  assert (H1 : ReadIndices (os := SimFS.os) (json := SimJSON.json)
                 cA "/nowhere" fs1 = (Some Scenario.index1, None)).
  { apply (Hround cB cA Scenario.index1
             (SimJSON.encIndexFile Scenario.index1) "/a" "/nowhere"
             Scenario.contexts fs1);
      [reflexivity | vm_compute; reflexivity | reflexivity
      | vm_compute; reflexivity]. }
  split; [exact H1|].
  rewrite (Hother cA cA Scenario.index2 "/b" "/b" fs1 fs2 None
             (SimJSON.encIndexFile Scenario.index1)).
  - rewrite <- H1. reflexivity.
  - vm_compute. reflexivity.
  - vm_compute. reflexivity.
  - simpl. vm_compute. discriminate.
Defined.

(* ===================================================================== *)
(** * MountPoints: what the produced MountPoints look like *)
(* ===================================================================== *)

Section ProducedPointsFacts.
Context `{os : OS}.
Variables (contextPath contextAbsPath : string) (hidden : bool).

Abbreviation step' := (mountStep contextPath contextAbsPath hidden).
Abbreviation loop' := (mountLoop contextPath contextAbsPath hidden).

Lemma mountStep_wellNamed (st : LoopState FS) (a : string) :
  Forall (wellNamed contextPath contextAbsPath) (mtPoints st) → Forall (wellNamed contextPath contextAbsPath) (mtPoints (step' st a)).
Proof.
  intros Hall. destruct (visitors st !! a) as [b|] eqn:Hv.
  - rewrite mountStep_visited by congruence. exact Hall.
  - destruct (mountStep_fresh contextPath contextAbsPath hidden st a Hv)
      as [_ [[_ ->]|[_ (c & -> & _)]]]; [exact Hall|].
    apply Forall_app. split; [exact Hall|].
    constructor; [|constructor]. split; reflexivity.
Qed.

Lemma mountLoop_wellNamed (paths : list string) :
  ∀ st, Forall (wellNamed contextPath contextAbsPath) (mtPoints st) →
        Forall (wellNamed contextPath contextAbsPath) (mtPoints (loop' paths st)).
Proof.
  induction paths as [|a paths IH]; intros st Hall; [exact Hall|].
  rewrite mountLoop_cons. apply IH, mountStep_wellNamed, Hall.
Qed.

(** The sources of the MountPoints that a run of the loop appends: in the
    order of the list, each once, none visited before. *)
Lemma mountLoop_sources_in_order (paths : list string) :
  ∀ st, ∃ l,
    mtPoints (loop' paths st) = mtPoints st ++ l ∧
    map MountPoint.AbsPath l `sublist_of` paths ∧
    NoDup (map MountPoint.AbsPath l) ∧
    Forall (λ mp, visitors st !! MountPoint.AbsPath mp = None) l.
Proof.
  induction paths as [|a paths IH]; intros st.
  - exists []. simpl. rewrite app_nil_r.
    repeat split; [constructor | constructor | constructor].
  - destruct (IH (step' st a)) as (l1 & Hl1 & Hsub & Hnd & Hfresh).
    rewrite mountLoop_cons, Hl1.
    assert (Hfresh' : Forall (λ mp,
              visitors st !! MountPoint.AbsPath mp = None ∧
              MountPoint.AbsPath mp ≠ a) l1).
    { eapply Forall_impl; [exact Hfresh|]. simpl. intros mp Hmp.
      now apply mountStep_visitors in Hmp. }
    destruct (visitors st !! a) as [b|] eqn:Hv.
    + rewrite mountStep_visited by congruence.
      exists l1. split; [reflexivity|]. split; [now apply sublist_cons|].
      split; [exact Hnd|]. eapply Forall_impl; [exact Hfresh'|]. simpl. tauto.
    + destruct (mountStep_fresh contextPath contextAbsPath hidden st a Hv)
        as [_ [[_ ->]|[_ (c & -> & _)]]].
      * exists l1. split; [reflexivity|]. split; [now apply sublist_cons|].
        split; [exact Hnd|]. eapply Forall_impl; [exact Hfresh'|]. simpl. tauto.
      * eexists (_ :: l1). split; [now rewrite <- app_assoc|]. simpl.
        split; [now apply sublist_skip|]. split.
        -- constructor; [|exact Hnd]. rewrite list_elem_of_fmap.
           intros (mp & Heq & Hin).
           rewrite Forall_forall in Hfresh'. destruct (Hfresh' mp Hin).
           congruence.
        -- constructor; [exact Hv|].
           eapply Forall_impl; [exact Hfresh'|]. simpl. tauto.
Qed.

(** A pass over a source that is not found, or that the hidden filter
    skips, leaves the file system and the MountPoints as they are. *)
Lemma mountStep_skipped (st : LoopState FS) (a : string) :
  (statExists (loopFS st) a → hiddenSkips hidden a = true) →
  loopFS (step' st a) = loopFS st ∧ mtPoints (step' st a) = mtPoints st.
Proof.
  intros Hskip. unfold mountStep.
  destruct (visitors st !! a); [auto|].
  unfold statExists, hiddenSkips in Hskip.
  destruct (os_Stat (loopFS st) a) as [i|e]; simpl; [|auto].
  rewrite Hskip by discriminate. simpl. auto.
Qed.

Lemma mountLoop_skipped (paths : list string) :
  ∀ st,
    Forall (λ a, statExists (loopFS st) a → hiddenSkips hidden a = true) paths →
    loopFS (loop' paths st) = loopFS st ∧
    mtPoints (loop' paths st) = mtPoints st.
Proof.
  induction paths as [|a paths IH]; intros st Hall; [auto|].
  inversion Hall as [|? ? Ha Hrest]; subst.
  destruct (mountStep_skipped st a Ha) as [Hfs Hpts].
  rewrite mountLoop_cons.
  destruct (IH (step' st a)) as [Hfs' Hpts']; [now rewrite Hfs|].
  rewrite Hfs', Hpts'. auto.
Qed.

End ProducedPointsFacts.

(* ===================================================================== *)
(** * The executable file system keeps the further laws *)
(* ===================================================================== *)

Section SimFSLawFacts.
Import SimFS.
Local Arguments walk : simpl never.

Lemma Stat_empty_path_sim (t : tree) : val (Stat t "") = None.
Proof. reflexivity. Qed.

Lemma Stat_dir_WriteFile_sim (t t' : tree) (p q data : string) (perm : Z)
  (e : option error) (i : FileInfo) :
  WriteFile t q data perm = (t', e) →
  Stat t p = Ok i → IsDir i = true → Stat t' p = Ok i.
Proof.
  unfold WriteFile, Stat, locate. intros Hw Hs Hdir.
  destruct (decide (p = "")) as [->|Hp]; [discriminate|].
  destruct (walk maxLinks t true [] (pathElems p)) as [ep|[kp n|dp np]]
    eqn:Hwalk; try discriminate.
  injection Hs as <-. destruct n; try discriminate. clear Hdir.
  assert (Hkeep : ∀ k, (t !! k = None ∨ ∃ d, t !! k = Some (File d)) →
            match walk maxLinks (<[k := File data]> t) true [] (pathElems p) with
            | inl e0 => Err (PathError "stat" p e0)
            | inr (Found _ n) => Ok (info n)
            | inr (Missing _ _) => Err (PathError "stat" p ENOENT)
            end = Ok (info Dir)).
  { intros k Hk.
    now rewrite (walk_insert_file t true k data Hk _ _ _ _ Hwalk). }
  destruct (decide (q = "")) as [->|Hq];
    [injection Hw as <- _; now rewrite Hwalk|].
  destruct (walk maxLinks t true [] (pathElems q)) as [eq|[kq [|dq|tq]|dq nq]]
    eqn:Hq_walk; try (injection Hw as <- _; now rewrite Hwalk).
  - injection Hw as <- _. apply Hkeep. right. eexists.
    eapply walk_found_file. exact Hq_walk.
  - injection Hw as <- _. apply Hkeep. left.
    eapply walk_missing. exact Hq_walk.
Qed.

Global Instance SimFS_statLaws : StatLaws (os := SimFS.os).
Proof.
  split.
  - exact Stat_empty_path_sim.
  - intros fs p q data perm fs' e i. apply Stat_dir_WriteFile_sim.
Qed.

Lemma wf_nothing_below (t : tree) (k : list string) :
  wf t → k ≠ [] → t !! k = None → ∀ x, t !! (k ++ x) = None.
Proof.
  intros [_ Hwf] Hk Hnone x. induction x as [|e x IH] using rev_ind.
  - now rewrite app_nil_r.
  - destruct (t !! (k ++ x ++ [e])) as [n|] eqn:Hlook; [|reflexivity].
    rewrite app_assoc in Hlook.
    destruct (Hwf (k ++ x) e) as [Hnil|Hdir]; [now rewrite Hlook| |congruence].
    apply app_eq_nil in Hnil. tauto.
Qed.

Lemma wf_parent (t : tree) (cur : list string) :
  wf t → cur = [] ∨ t !! cur = Some Dir →
  removelast cur = [] ∨ t !! removelast cur = Some Dir.
Proof.
  intros [_ Hwf] [->|Hdir]; [now left|].
  induction cur as [|c cur _] using rev_ind; [now left|].
  rewrite removelast_last. apply (Hwf cur c). now rewrite Hdir.
Qed.

(** The directory in which a resolution lacks its last element exists. *)
Lemma walk_missing_dir (t : tree) (follow : bool) :
  wf t →
  ∀ (links : nat) (todo cur d : list string) (e : string),
    cur = [] ∨ t !! cur = Some Dir →
    walk links t follow cur todo = inr (Missing d e) →
    d = [] ∨ t !! d = Some Dir.
Proof.
  intros Hwf.
  induction links as [|n IHn];
    (induction todo as [|e0 rest IHrest]; intros cur d e Hcur;
     [rewrite walk_nil; discriminate|]);
    rewrite walk_cons; repeat case_decide;
    eauto using wf_parent;
    destruct (t !! (cur ++ [e0])) as [[|d'|target]|] eqn:Hlook; eauto.
  all: try (destruct rest; [intros [= <- <-]; assumption | discriminate]).
  all: try (destruct rest; discriminate).
  - destruct (bool_decide (rest = []) && negb follow); discriminate.
  - destruct (bool_decide (rest = []) && negb follow); [discriminate|].
    case_decide; [discriminate|]. apply IHn.
    destruct (isAbs target); auto.
Qed.

(** Resolution, a last link not followed, after a link has been made where
    the entry was missing. *)
Lemma walk_insert_missing (t : tree) (d : list string) (e old : string) :
  ∀ (links : nat) (todo cur : list string),
    walk links t false cur todo = inr (Missing d e) →
    walk links (<[d ++ [e] := Link old]> t) false cur todo
    = inr (Found (d ++ [e]) (Link old)).
Proof.
  induction links as [|n IHn];
    (induction todo as [|e0 rest IHrest]; intros cur;
     [rewrite walk_nil; congruence|]);
    intros Hwalk; pose proof (walk_missing _ _ _ _ _ _ _ Hwalk) as Hnone;
    revert Hwalk; rewrite !walk_cons;
    repeat case_decide; eauto.
  all: destruct (decide (cur ++ [e0] = d ++ [e])) as [Heq|Hne].
  all: try (rewrite Heq, Hnone, tree_lookup_insert_eq;
            destruct rest; [|discriminate]; intros _; reflexivity).
  all: rewrite tree_lookup_insert_ne by congruence;
       destruct (t !! (cur ++ [e0])) as [[|d'|target]|] eqn:Hlook; eauto.
  all: try (destruct rest; [intros [= <- <-]; congruence | discriminate]).
  all: try (destruct rest; discriminate).
  all: destruct (bool_decide (rest = []) && negb false); try discriminate.
  all: case_decide; try discriminate; apply IHn.
Qed.

(** A resolution that lacks its last element has that element, a name, at
    the end of the elements it was given. *)
Lemma walk_missing_last (t : tree) :
  ∀ (links : nat) (todo cur d : list string) (e : string),
    walk links t false cur todo = inr (Missing d e) →
    (∃ pre, todo = pre ++ [e]) ∧ e ≠ "." ∧ e ≠ "..".
Proof.
  assert (Hlast : ∀ (l1 rest pre : list string) (e : string),
            rest ≠ [] → l1 ++ rest = pre ++ [e] → ∃ pre', rest = pre' ++ [e]).
  { intros l1 rest pre e Hrest Heq.
    destruct rest as [|r rest] using rev_ind; [congruence|].
    rewrite app_assoc in Heq. apply app_inj_tail in Heq as [_ ->]. eauto. }
  assert (Hcons : ∀ (e0 : string) (rest : list string) (e : string),
            (∃ pre, rest = pre ++ [e]) → ∃ pre, e0 :: rest = pre ++ [e]).
  { intros e0 rest e [pre ->]. exists (e0 :: pre). reflexivity. }
  induction links as [|n IHn];
    (induction todo as [|e0 rest IHrest]; intros cur d e;
     [rewrite walk_nil; discriminate|]);
    rewrite walk_cons; repeat case_decide.
  all: try (intros Hw; destruct (IHrest _ _ _ Hw) as (Hpre & ? & ?);
            split; [apply Hcons, Hpre | auto]).
  all: destruct (t !! (cur ++ [e0])) as [[|d'|target]|] eqn:Hlook.
  all: try (intros Hw; destruct (IHrest _ _ _ Hw) as (Hpre & ? & ?);
            split; [apply Hcons, Hpre | auto]).
  all: try (destruct rest; [intros [= <- <-]; split; [exists []; reflexivity | auto]
                           | discriminate]).
  all: try (destruct rest; discriminate).
  all: case_bool_decide as Hrest; simpl; try discriminate.
  all: case_decide; try discriminate. 
  - intros Hw.
    destruct (IHn _ _ _ _ Hw) as ([pre Hpre] & ? & ?).
    split; [|auto]. apply Hcons. eapply Hlast; eauto.
Qed.


Lemma splitOn_nonempty (sep : ascii) (s : string) : splitOn sep s ≠ [].
Proof.
  destruct s as [|c s]; simpl; [discriminate|].
  destruct (Ascii.eqb c sep); [discriminate|].
  destruct (splitOn sep s); discriminate.
Qed.

(** Splitting distributes over a separator. *)
Lemma splitOn_app (sep : ascii) (a b : string) :
  splitOn sep (a +:+ String sep b) = splitOn sep a ++ splitOn sep b.
Proof.
  induction a as [|c a IH]; simpl.
  - now rewrite Ascii.eqb_refl.
  - destruct (Ascii.eqb c sep); [now rewrite IH|].
    rewrite IH. pose proof (splitOn_nonempty sep a) as Hne.
    destruct (splitOn sep a); [congruence | reflexivity].
Qed.

Lemma ofBytes_app (l1 l2 : list ascii) :
  ofBytes (l1 ++ l2) = ofBytes l1 +:+ ofBytes l2.
Proof. induction l1 as [|c l1 IH]; simpl; [reflexivity | now rewrite IH]. Qed.

Lemma string_of_rev (s : string) (r : list ascii) :
  rev (bytes s) = r → s = ofBytes (rev r).
Proof. intros <-. now rewrite rev_involutive, ofBytes_bytes. Qed.

(** The elements of a path whose last element names the entry: the path
    does not end with a separator or with a ["."] element. *)
Lemma pathElems_last_name (p : string) (pre : list string) (e : string) :
  pathElems p = pre ++ [e] → e ≠ "." →
  endsWithSeparator p = false ∧ endsWithDot p = false ∧
  filter (λ e, e ≠ "") (splitOn "/" p) = pathElems p.
Proof.
  intros Hp He. unfold pathElems in *.
  destruct (endsWithSeparator p) eqn:Hsep.
  { apply app_inj_tail in Hp as [_ Hp]. congruence. }
  rewrite app_nil_r in *. split; [reflexivity|]. split; [|reflexivity].
  unfold endsWithDot. apply orb_false_iff. split.
  { apply bool_decide_eq_false. intros ->.
    change (filter (λ e, e ≠ "") (splitOn "/" ".")) with ([] ++ ["."]) in Hp.
    apply app_inj_tail in Hp as [_ Hp]. congruence. }
  destruct (rev (bytes p)) as [|c1 [|c2 r]] eqn:Hrev; try reflexivity.
  destruct (Ascii.eqb c1 "." && IsPathSeparator c2) eqn:Hc; [|reflexivity].
  apply andb_true_iff in Hc as [Hc1 Hc2].
  apply Ascii.eqb_eq in Hc1. apply Ascii.eqb_eq in Hc2. subst c1 c2.
  apply string_of_rev in Hrev. simpl in Hrev.
  rewrite <- app_assoc in Hrev. simpl in Hrev.
  rewrite ofBytes_app in Hrev. simpl in Hrev. rewrite Hrev in Hp.
  rewrite splitOn_app in Hp. simpl in Hp.
  rewrite filter_app in Hp. simpl in Hp.
  apply app_inj_tail in Hp as [_ Hp]. congruence.
Qed.

Lemma setEntry_absent (k : list string) (n : node) (l : list (list string * node)) :
  entryAt k l = None → setEntry k n l = l ++ [(k, n)].
Proof.
  induction l as [|[k' n'] l IH]; simpl; [reflexivity|].
  destruct (decide (k' = k)); [discriminate|]. intros H. now rewrite IH.
Qed.

Lemma entryAt_elem (k : list string) (n : node) (l : list (list string * node)) :
  (k, n) ∈ l → is_Some (entryAt k l).
Proof.
  induction l as [|[k' n'] l IH]; simpl.
  - intros H. now apply elem_of_nil in H.
  - intros H. destruct (decide (k' = k)); [eauto|].
    apply elem_of_cons in H as [[= -> ->]|H]; [congruence | auto].
Qed.

Lemma filter_keeps_all {A} (P : A → Prop) `{∀ x, Decision (P x)} (l : list A) :
  (∀ x, x ∈ l → P x) → filter P l = l.
Proof.
  induction l as [|x l IH]; intros Hall; [reflexivity|].
  rewrite filter_cons, decide_True by (apply Hall; left).
  f_equal. apply IH. intros y Hy. apply Hall. now right.
Qed.

(** Removing what lies at and below a key that has just been added gives
    the entries back. *)
Lemma remove_added (t : tree) (k : list string) (n : node) :
  wf t → k ≠ [] → t !! k = None →
  Tree (filter (λ kv, ¬ k `prefix_of` kv.1) (entries (<[k := n]> t))) = t.
Proof.
  intros Hwf Hk Hnone.
  assert (Hall : ∀ kv, kv ∈ entries t → ¬ k `prefix_of` kv.1).
  { intros [k' n'] Hin [x Hk']. simpl in Hk'. subst k'.
    apply entryAt_elem in Hin as [m Hm].
    pose proof (wf_nothing_below t k Hwf Hk Hnone x) as Hx.
    unfold lookup, tree_lookup in Hx. congruence. }
  destruct t as [l].
  unfold insert, tree_insert. cbn [entries] in *.
  rewrite setEntry_absent by exact Hnone.
  rewrite filter_app, filter_keeps_all by exact Hall.
  rewrite filter_cons, decide_False; [now rewrite filter_nil, app_nil_r|].
  simpl. intros Hnot. now apply Hnot.
Qed.

Lemma wf_insert (t : tree) (d : list string) (e : string) (n : node) :
  wf t → d = [] ∨ t !! d = Some Dir → t !! (d ++ [e]) = None →
  wf (<[d ++ [e] := n]> t).
Proof.
  intros [Hroot Hwf] Hd Hnone.
  assert (Hne : d ++ [e] ≠ []) by (intros H; now apply app_eq_nil in H as [_ H]).
  split.
  - rewrite tree_lookup_insert_ne by exact Hne. exact Hroot.
  - intros k e' Hsome.
    assert (Hk : k = [] ∨ t !! k = Some Dir).
    { destruct (decide (d ++ [e] = k ++ [e'])) as [Heq|Hneq].
      - apply app_inj_tail in Heq as [<- _]. exact Hd.
      - rewrite tree_lookup_insert_ne in Hsome by exact Hneq.
        exact (Hwf k e' Hsome). }
    destruct Hk as [->|Hk]; [now left|]. right.
    rewrite tree_lookup_insert_ne; [exact Hk | congruence].
Qed.

Lemma entryAt_Some_elem (k : list string) (n : node) (l : list (list string * node)) :
  entryAt k l = Some n → (k, n) ∈ l.
Proof.
  induction l as [|[k' n'] l IH]; simpl; [discriminate|].
  destruct (decide (k' = k)) as [->|].
  - intros [= ->]. left.
  - intros H. right. auto.
Qed.

Lemma wellFormed_wf (t : tree) : wellFormed t = true → wf t.
Proof.
  unfold wellFormed. rewrite forallb_forall. intros Hall.
  assert (Hkey : ∀ k n, t !! k = Some n →
            k ≠ [] ∧ (removelast k = [] ∨ t !! removelast k = Some Dir)).
  { intros k n Hk. apply entryAt_Some_elem, list_elem_of_In, Hall in Hk.
    simpl in Hk. destruct k as [|k0 k]; [discriminate|]. split; [discriminate|].
    apply orb_true_iff in Hk as [Hk|Hk]; apply bool_decide_eq_true in Hk; auto. }
  split.
  - destruct (t !! []) as [n|] eqn:Hroot; [|reflexivity].
    apply Hkey in Hroot as [Hroot _]. congruence.
  - intros k e [n Hn]. apply Hkey in Hn as [_ Hn].
    now rewrite removelast_last in Hn.
Qed.

Lemma Symlink_result (t t' : tree) (old new : string) :
  Symlink t old new = (t', None) →
  ∃ d e, walk maxLinks t false [] (pathElems new) = inr (Missing d e) ∧
         new ≠ "" ∧ t' = <[d ++ [e] := Link old]> t.
Proof.
  unfold Symlink, locate. repeat case_decide; try discriminate.
  destruct (walk maxLinks t false [] (pathElems new)) as [?|[?|d e]];
    try discriminate.
  intros [= <-]. eauto.
Qed.

Lemma Symlink_intact_sim (t : tree) (old new : string) (t' : tree)
  (e : option error) :
  wf t → Symlink t old new = (t', e) → wf t'.
Proof.
  intros Hwf. unfold Symlink, locate.
  repeat case_decide; try (intros [= <- <-]; exact Hwf).
  destruct (walk maxLinks t false [] (pathElems new)) as [?|[?|d e0]] eqn:Hw;
    try (intros [= <- <-]; exact Hwf).
  intros [= <- <-]. apply wf_insert; [exact Hwf| |].
  - eapply walk_missing_dir; [exact Hwf| |exact Hw]. now left.
  - eapply walk_missing, Hw.
Qed.

Lemma Symlink_error_keeps_sim (t : tree) (old new : string) (t' : tree)
  (e : error) :
  Symlink t old new = (t', Some e) → t' = t.
Proof.
  unfold Symlink, locate. repeat case_decide; try congruence.
  destruct (walk maxLinks t false [] (pathElems new)) as [?|[?|d e0]];
    congruence.
Qed.

Lemma Symlink_again_sim (t : tree) (old new : string) (t' : tree)
  (old' : string) :
  old' ≠ "" → Symlink t old new = (t', None) →
  ∃ e, Symlink t' old' new = (t', Some e) ∧ os_IsExist e = true.
Proof.
  intros Hold' Hs.
  apply Symlink_result in Hs as (d & e & Hw & Hnew & ->).
  exists (LinkError "symlink" old' new EEXIST). split; [|reflexivity].
  eapply Symlink_taken; [exact Hold'|].
  unfold locate. rewrite decide_False by exact Hnew.
  apply walk_insert_missing, Hw.
Qed.

Lemma RemoveAll_Symlink_sim (t : tree) (old new : string) (t' : tree) :
  wf t → Symlink t old new = (t', None) → RemoveAll t' new = (t, None).
Proof.
  intros Hwf Hs.
  apply Symlink_result in Hs as (d & e & Hw & Hnew & ->).
  destruct (walk_missing_last _ _ _ _ _ _ Hw) as ([pre Hpre] & Hdot & _).
  destruct (pathElems_last_name _ _ _ Hpre Hdot) as (_ & Hend & Hfilter).
  unfold RemoveAll. rewrite decide_False by exact Hnew.
  rewrite Hend, Hfilter, (walk_insert_missing _ _ _ _ _ _ _ Hw).
  rewrite remove_added.
  - rewrite decide_False; [reflexivity|].
    intros H; now apply app_eq_nil in H as [_ H].
  - exact Hwf.
  - intros H; now apply app_eq_nil in H as [_ H].
  - eapply walk_missing, Hw.
Qed.

Global Instance SimFS_linkLaws : LinkLaws (os := SimFS.os) := {|
  intact := wf;
  Symlink_intact t old new t' e := Symlink_intact_sim t old new t' e;
  Symlink_error_keeps t old new t' e := Symlink_error_keeps_sim t old new t' e;
  Symlink_again t old new t' old' := Symlink_again_sim t old new t' old';
  RemoveAll_Symlink t old new t' := RemoveAll_Symlink_sim t old new t';
|}.

End SimFSLawFacts.

(* ===================================================================== *)
(** * The executable codec keeps the field that is not encoded *)
(* ===================================================================== *)

Section SimJSONFacts.
Import SimJSON.

Lemma setContextField_AbsPath (c c' : Context.t) (kv : string * value) :
  setContextField c kv = Some c' → Context.AbsPath c' = Context.AbsPath c.
Proof.
  destruct kv as [k v], c as [id secret token abs]. unfold setContextField.
  repeat case_decide;
    try (destruct (decString _ v); simpl; intros [= <-]; reflexivity).
  intros [= <-]. reflexivity.
Qed.

Lemma foldFields_AbsPath (ms : list (string * value)) :
  ∀ c c', foldFields setContextField ms c = Some c' →
          Context.AbsPath c' = Context.AbsPath c.
Proof.
  unfold foldFields.
  assert (Hnone : ∀ l, fold_left (λ acc kv, a' ← acc; setContextField a' kv)
                         l None = None)
    by (induction l; simpl; auto).
  induction ms as [|kv ms IH]; intros c c'; simpl.
  - intros [= <-]. reflexivity.
  - destruct (setContextField c kv) as [c1|] eqn:Hset; simpl.
    + intros H. rewrite (IH _ _ H). eapply setContextField_AbsPath; eauto.
    + rewrite Hnone. discriminate.
Qed.

Lemma Unmarshal_keeps_AbsPath_sim (data : string) (c : Context.t) :
  Context.AbsPath (unmarshal setContextField data c).1 = Context.AbsPath c.
Proof.
  unfold unmarshal. destruct (parse data) as [[| | | | |ms]|]; try reflexivity.
  destruct (foldFields setContextField ms c) as [c'|] eqn:Hf; [|reflexivity].
  simpl. eapply foldFields_AbsPath; eauto.
Qed.

Global Instance SimJSON_laws : JSONLaws (json := SimJSON.json).
Proof. split. exact Unmarshal_keeps_AbsPath_sim. Qed.

End SimJSONFacts.

(* ===================================================================== *)
(** * Further facts: tearing down, the loop of Discover, cleaned paths *)
(* ===================================================================== *)

Section TeardownFacts.
Context `{os : OS} `{!LinkLaws}.
Variables (contextPath contextAbsPath : string) (hidden : bool).

Lemma unmountAll_app (l1 l2 : list MountPoint.t) (fs : FS) :
  unmountAll (l1 ++ l2) fs =
  let '(fs1, es1) := unmountAll l1 fs in
  let '(fs2, es2) := unmountAll l2 fs1 in
  (fs2, es1 ++ es2).
Proof.
  revert fs. induction l1 as [|mp l1 IH]; intros fs; simpl.
  - destruct (unmountAll l2 fs). reflexivity.
  - destruct (Unmount mp fs) as [fs1 e]. rewrite IH.
    destruct (unmountAll l1 fs1) as [fs2 es1].
    destruct (unmountAll l2 fs2) as [fs3 es2].
    now rewrite app_assoc.
Qed.

(** What a pass appends is undone by [Unmount]. *)
Lemma mountStep_undone (st : LoopState FS) (a : string) :
  intact (loopFS st) →
  ∃ l,
    mtPoints (mountStep contextPath contextAbsPath hidden st a)
      = mtPoints st ++ l ∧
    intact (loopFS (mountStep contextPath contextAbsPath hidden st a)) ∧
    unmountAll (rev l)
      (loopFS (mountStep contextPath contextAbsPath hidden st a))
      = (loopFS st, []).
Proof.
  intros Hok. unfold mountStep.
  destruct (visitors st !! a);
    [exists []; rewrite app_nil_r; auto|].
  destruct (bool_decide _ || bool_decide _);
    [exists []; rewrite app_nil_r; auto|].
  destruct (negb hidden && _);
    [exists []; rewrite app_nil_r; auto|].
  destruct (os_Symlink _ _ _) as [fs1 [e|]] eqn:Hlink.
  - pose proof (Symlink_error_keeps _ _ _ _ _ Hlink) as ->.
    destruct (negb (os_IsExist e)); simpl.
    + exists []. rewrite app_nil_r. auto.
    + eexists [_]. split; [reflexivity|]. split; [exact Hok|]. reflexivity.
  - simpl. eexists [_]. split; [reflexivity|].
    split; [eapply Symlink_intact; eauto|].
    simpl. unfold Unmount. simpl.
    now rewrite (RemoveAll_Symlink _ _ _ _ Hok Hlink).
Qed.

Lemma mountLoop_undone (paths : list string) :
  ∀ st, intact (loopFS st) →
    ∃ l,
      mtPoints (mountLoop contextPath contextAbsPath hidden paths st)
        = mtPoints st ++ l ∧
      unmountAll (rev l)
        (loopFS (mountLoop contextPath contextAbsPath hidden paths st))
        = (loopFS st, []).
Proof.
  induction paths as [|a paths IH]; intros st Hok.
  - exists []. rewrite app_nil_r. auto.
  - destruct (mountStep_undone st a Hok) as (l1 & Hl1 & Hok1 & Hun1).
    destruct (IH _ Hok1) as (l2 & Hl2 & Hun2).
    exists (l1 ++ l2). rewrite mountLoop_cons. split.
    + now rewrite Hl2, Hl1, app_assoc.
    + now rewrite rev_app_distr, unmountAll_app, Hun2, Hun1.
Qed.

End TeardownFacts.

Section DiscoverFacts.
Context `{os : OS} `{json : JSON}.

(** The loop ends at once on a path whose marker directory is found. *)
Lemma discoverLoop_found (fuel : nat) (fs : FS) (p : string) :
  markerFound fs p = true → discoverLoop (S fuel) fs p = Some (p, true).
Proof. intros H. simpl. now rewrite H. Qed.

(** More passes do not change a result. *)
Lemma discoverLoop_more (fuel : nat) :
  ∀ (fs : FS) (p : string) r,
    discoverLoop fuel fs p = Some r → discoverLoop (S fuel) fs p = Some r.
Proof.
  induction fuel as [|n IH]; intros fs p r; [discriminate|].
  intros H. simpl in H. change (discoverLoop (S (S n)) fs p) with
    (if markerFound fs p then Some (p, true)
     else if decide (p = upOf p) then Some (p, false)
          else discoverLoop (S n) fs (upOf p)).
  destruct (markerFound fs p); [exact H|].
  destruct (decide (p = upOf p)); [exact H|]. now apply IH.
Qed.

(** The loop, pass by pass: it ends in pass [k] at the path [upPath k p],
    no marker directory was found before, and no earlier path was its own
    parent. *)
Lemma discoverLoop_result (fuel : nat) :
  ∀ (fs : FS) (p q : string) (found : bool),
    discoverLoop fuel fs p = Some (q, found) →
    ∃ k, k < fuel ∧ q = upPath k p ∧
         markerFound fs q = found ∧
         (found = false → upOf q = q) ∧
         ∀ j, j < k →
              markerFound fs (upPath j p) = false ∧
              upOf (upPath j p) ≠ upPath j p.
Proof.
  induction fuel as [|n IH]; intros fs p q found; [discriminate|]. simpl.
  destruct (markerFound fs p) eqn:Hm.
  { intros [= <- <-]. exists 0. repeat split; [lia|auto|discriminate|lia|lia]. }
  destruct (decide (p = upOf p)) as [Heq|Hne].
  { intros [= <- <-]. exists 0. repeat split; [lia|auto|auto|lia|lia]. }
  intros H. destruct (IH _ _ _ _ H) as (k & Hk & Hq & Hf & Hfix & Hbefore).
  assert (Hup : ∀ j, upPath j (upOf p) = upPath (S j) p).
  { intros j. unfold upPath. induction j as [|j IHj]; [reflexivity|].
    simpl in *. now rewrite IHj. }
  exists (S k). split; [lia|]. split; [now rewrite <- Hup|].
  split; [exact Hf|]. split; [exact Hfix|].
  intros [|j] Hj; [simpl; split; [exact Hm | congruence]|].
  rewrite <- Hup. apply Hbefore. lia.
Qed.

End DiscoverFacts.

Section CleanFacts.


Lemma sepFree_cons (c : ascii) (s : string) :
  sepFree (String c s) ↔ IsPathSeparator c = false ∧ sepFree s.
Proof. unfold sepFree. simpl. apply List.Forall_cons_iff. Qed.

Lemma splitOn_sepFree (s : string) : Forall sepFree (splitOn "/" s).
Proof.
  induction s as [|c s IH]; simpl.
  - repeat constructor.
  - destruct (Ascii.eqb c "/") eqn:Hc.
    + constructor; [constructor | exact IH].
    + destruct (splitOn "/" s) as [|w ws]; [repeat constructor; exact Hc|].
      inversion IH; subst. constructor; [|assumption].
      apply sepFree_cons. auto.
Qed.

Lemma splitOn_single (e : string) : sepFree e → splitOn "/" e = [e].
Proof.
  induction e as [|c e IH]; intros He; [reflexivity|].
  apply sepFree_cons in He as [Hc He]. simpl.
  unfold IsPathSeparator in Hc. rewrite Hc, (IH He). reflexivity.
Qed.

Lemma strings_Join_cons (e : string) (R : list string) :
  R ≠ [] → strings_Join (e :: R) "/" = e +:+ String "/" (strings_Join R "/").
Proof. destruct R; [congruence | reflexivity]. Qed.

Lemma splitOn_join (R : list string) :
  R ≠ [] → Forall sepFree R → splitOn "/" (strings_Join R "/") = R.
Proof.
  induction R as [|e R IH]; [congruence|]. intros _ Hall.
  inversion Hall as [|? ? He HR]; subst.
  destruct R as [|e' R]; [now apply splitOn_single|].
  rewrite strings_Join_cons by discriminate.
  rewrite splitOn_app, (splitOn_single e He), IH by (auto; discriminate).
  reflexivity.
Qed.

Lemma properName_sepFree (e : string) : properName e → sepFree e.
Proof. intros (_ & _ & _ & H). exact H. Qed.

Lemma dots_sepFree : sepFree "..".
Proof. repeat constructor. Qed.

Lemma cleanList_sepFree (r : bool) (R : list string) :
  cleanList r R → Forall sepFree R.
Proof.
  intros (dots & names & -> & Hd & Hn & _). apply Forall_app. split.
  - eapply Forall_impl; [exact Hd|]. simpl. intros ? ->. apply dots_sepFree.
  - eapply Forall_impl; [exact Hn|]. apply properName_sepFree.
Qed.

Lemma cleanElems_name (r : bool) (e : string) (rest out : list string) :
  properName e →
  cleanElems r (e :: rest) out = cleanElems r rest (e :: out).
Proof.
  intros (H1 & H2 & H3 & _). simpl.
  now rewrite !decide_False by assumption.
Qed.

Lemma cleanElems_names (r : bool) (names : list string) :
  Forall properName names →
  ∀ rest out,
    cleanElems r (names ++ rest) out = cleanElems r rest (rev names ++ out).
Proof.
  induction 1 as [|e names He _ IH]; intros rest out; [reflexivity|].
  cbn [app]. rewrite cleanElems_name by exact He. rewrite IH.
  simpl. now rewrite <- app_assoc.
Qed.

Lemma cleanElems_dots (dots : list string) :
  Forall (λ e, e = "..") dots →
  ∀ rest out, Forall (λ e, e = "..") out →
    cleanElems false (dots ++ rest) out = cleanElems false rest (rev dots ++ out).
Proof.
  induction 1 as [|e dots -> _ IH]; intros rest out Hout; [reflexivity|].
  cbn [app]. simpl.
  destruct out as [|top out'].
  - rewrite IH by (repeat constructor). simpl. now rewrite <- app_assoc.
  - inversion Hout; subst. rewrite decide_True by reflexivity.
    rewrite IH by (constructor; auto). simpl. now rewrite <- app_assoc.
Qed.

(** Cleaning the elements of a cleaned path keeps them. *)
Lemma cleanElems_cleanList (r : bool) (R rest : list string) :
  cleanList r R → cleanElems r (R ++ rest) [] = cleanElems r rest (rev R).
Proof.
  intros (dots & names & -> & Hd & Hn & Hr).
  rewrite <- app_assoc, rev_app_distr.
  destruct r.
  - rewrite (Hr eq_refl). simpl. rewrite cleanElems_names by exact Hn.
    reflexivity.
  - rewrite cleanElems_dots by (auto; constructor).
    rewrite cleanElems_names by exact Hn. now rewrite app_nil_r.
Qed.

(** The stack of [path.Clean] holds names above [".."] elements. *)
Lemma cleanElems_inv (r : bool) (elems : list string) :
  Forall sepFree elems →
  ∀ out, cleanList r (rev out) → cleanList r (cleanElems r elems out).
Proof.
  induction 1 as [|e elems He _ IH]; intros out Hout; [exact Hout|].
  simpl. repeat case_decide; subst; auto.
  - (* ".." *)
    destruct out as [|top out'].
    + destruct r; apply IH; simpl.
      * exists [], []. repeat split; constructor.
      * exists [".."], []. repeat split; try constructor; auto; discriminate.
    + destruct Hout as (dots & names & Heq & Hd & Hn & Hr). simpl in Heq.
      case_decide; subst; apply IH.
      * (* top is "..": there are no names *)
        destruct names as [|n names _] using rev_ind.
        2:{ rewrite app_assoc in Heq. apply app_inj_tail in Heq as [_ <-].
            apply Forall_app in Hn as [_ Hn]. inversion Hn as [|? ? Hp _].
            destruct Hp as (_ & _ & Hp & _). congruence. }
        rewrite app_nil_r in Heq.
        exists (dots ++ [".."]), []. rewrite app_nil_r. simpl.
        split; [now rewrite Heq|]. split.
        { apply Forall_app. split; [exact Hd | repeat constructor]. }
        split; [constructor|]. intros Hroot. rewrite (Hr Hroot) in Heq.
        destruct (rev out'); discriminate.
      * (* top is a name *)
        destruct names as [|n names _] using rev_ind.
        { rewrite app_nil_r in Heq. rewrite <- Heq in Hd.
          apply Forall_app in Hd as [_ Hd]. inversion Hd. congruence. }
        rewrite app_assoc in Heq. apply app_inj_tail in Heq as [Heq _].
        apply Forall_app in Hn as [Hn _].
        exists dots, names. auto.
  - (* a name *)
    apply IH. destruct Hout as (dots & names & Heq & Hd & Hn & Hr).
    exists dots, (names ++ [e]). simpl. rewrite Heq, app_assoc.
    split; [reflexivity|]. split; [exact Hd|]. split; [|exact Hr].
    apply Forall_app. split; [exact Hn|]. repeat constructor; assumption.
Qed.

Lemma cleanList_nil (r : bool) : cleanList r [].
Proof. exists [], []. repeat split; constructor. Qed.

Lemma cleanElems_app (r : bool) (A B : list string) :
  ∀ out, cleanElems r (A ++ B) out = cleanElems r B (rev (cleanElems r A out)).
Proof.
  induction A as [|e A IH]; intros out; simpl.
  - now rewrite rev_involutive.
  - repeat case_decide; auto.
    destruct out as [|top out']; [destruct r; auto|]. case_decide; auto.
Qed.


Lemma path_Clean_render (p : string) :
  p ≠ "" →
  path_Clean p
  = render (rooted p) (cleanElems (rooted p) (splitOn "/" p) []).
Proof. intros Hp. unfold path_Clean. now rewrite decide_False by exact Hp. Qed.

Lemma cleanList_of_path (r : bool) (p : string) :
  cleanList r (cleanElems r (splitOn "/" p) []).
Proof. apply cleanElems_inv; [apply splitOn_sepFree | apply cleanList_nil]. Qed.

Lemma append_nil_inv (a b : string) : a +:+ b = "" → a = "".
Proof. destruct a; [reflexivity | discriminate]. Qed.

Lemma strings_Join_nonempty (e : string) (R : list string) :
  e ≠ "" → strings_Join (e :: R) "/" ≠ "".
Proof.
  intros He. destruct R as [|e' R]; [exact He|].
  rewrite strings_Join_cons by discriminate.
  intros H. now apply append_nil_inv in H.
Qed.

Lemma cleanList_head (r : bool) (e : string) (R : list string) :
  cleanList r (e :: R) →
  ∃ c s, e = String c s ∧ IsPathSeparator c = false.
Proof.
  intros (dots & names & Heq & Hd & Hn & _).
  destruct dots as [|d dots]; simpl in Heq.
  - destruct names as [|n names]; [discriminate|]. injection Heq as <- _.
    inversion Hn as [|? ? (Hne & _ & _ & Hsep) _]; subst.
    destruct e as [|c s]; [congruence|]. apply sepFree_cons in Hsep as [Hc _].
    eauto.
  - injection Heq as <- _. inversion Hd; subst. exists "."%char, ".". auto.
Qed.

Lemma render_nonempty (r : bool) (R : list string) : render r R ≠ "".
Proof. unfold render. case_decide; [discriminate | assumption]. Qed.

Lemma rooted_String (c : ascii) (s : string) :
  rooted (String c s) = IsPathSeparator c.
Proof.
  change (rooted (String c s))
    with (if ascii_dec "/" c then String.prefix "" s else false).
  unfold IsPathSeparator.
  destruct (ascii_dec "/" c) as [<-|Hne]; [now destruct s|].
  symmetry. apply Ascii.eqb_neq. congruence.
Qed.

Lemma rooted_append (p q : string) : p ≠ "" → rooted (p +:+ q) = rooted p.
Proof.
  destruct p as [|c p]; [congruence|]. intros _.
  change (String c p +:+ q) with (String c (p +:+ q)).
  now rewrite !rooted_String.
Qed.

(** What [path.Clean] writes for a rooted path begins with a separator,
    what it writes for another path does not. *)
Lemma rooted_render (r : bool) (R : list string) :
  cleanList r R → rooted (render r R) = r.
Proof.
  intros HR. unfold render. destruct r.
  - rewrite decide_False by discriminate.
    change ("/" +:+ strings_Join R "/") with (String "/" (strings_Join R "/")).
    now rewrite rooted_String.
  - destruct R as [|e R]; [reflexivity|].
    destruct (cleanList_head _ _ _ HR) as (c & s & -> & Hc).
    rewrite decide_False by (apply strings_Join_nonempty; discriminate).
    destruct R as [|e' R]; [cbn [strings_Join]; now rewrite rooted_String|].
    rewrite strings_Join_cons by discriminate.
    match goal with
    | |- context [String c s +:+ ?x] =>
        change (String c s +:+ x) with (String c (s +:+ x))
    end.
    now rewrite rooted_String.
Qed.

(** Cleaning what [path.Clean] has written: its elements come back. *)
Lemma cleanElems_render (r : bool) (R rest : list string) :
  cleanList r R →
  cleanElems r (splitOn "/" (render r R) ++ rest) []
  = cleanElems r rest (rev R).
Proof.
  intros HR. pose proof (cleanList_sepFree _ _ HR) as Hfree.
  unfold render. destruct R as [|e R].
  - destruct r; reflexivity.
  - assert (Hne : strings_Join (e :: R) "/" ≠ "").
    { destruct (cleanList_head _ _ _ HR) as (c & s & -> & _).
      apply strings_Join_nonempty. discriminate. }
    destruct r.
    + rewrite decide_False by discriminate.
      change ("/" +:+ strings_Join (e :: R) "/")
        with (String "/" (strings_Join (e :: R) "/")).
      cbn [splitOn]. rewrite Ascii.eqb_refl.
      rewrite splitOn_join by (auto; discriminate).
      exact (cleanElems_cleanList true (e :: R) rest HR).
    + rewrite decide_False by exact Hne.
      rewrite splitOn_join by (auto; discriminate).
      now apply cleanElems_cleanList.
Qed.

(** [path.Join] of a cleaned path and one more element. *)
Lemma path_Join_render (r : bool) (R : list string) (e : string) :
  cleanList r R → sepFree e → e ≠ "" →
  path_Join [render r R; e] = render r (cleanElems r [e] (rev R)).
Proof.
  intros HR He Hne. unfold path_Join.
  rewrite filter_cons, decide_True by apply render_nonempty.
  rewrite filter_cons, decide_True by exact Hne.
  rewrite filter_nil.
  change (strings_Join [render r R; e] "/")
    with (render r R +:+ String "/" e).
  rewrite path_Clean_render
    by (intros H; apply append_nil_inv in H; now apply render_nonempty in H).
  rewrite rooted_append by apply render_nonempty.
  rewrite rooted_render by exact HR.
  rewrite splitOn_app, (splitOn_single e He).
  now rewrite cleanElems_render.
Qed.

Lemma cleanElems_up (r : bool) (R : list string) :
  cleanElems r [".."] (rev R) = upList r R.
Proof.
  unfold upList. simpl. destruct (rev R) as [|top out'] eqn:Hrev.
  - destruct r; reflexivity.
  - case_decide; [|reflexivity].
    apply (f_equal (@rev string)) in Hrev. rewrite rev_involutive in Hrev.
    subst R. reflexivity.
Qed.

Lemma cleanList_upList (r : bool) (R : list string) :
  cleanList r R → cleanList r (upList r R).
Proof.
  intros HR. rewrite <- cleanElems_up.
  apply cleanElems_inv; [repeat constructor | now rewrite rev_involutive].
Qed.

(** One pass of the loop of [Discover] on a cleaned path. *)
Lemma upOf_render (r : bool) (R : list string) :
  cleanList r R → upOf (render r R) = render r (upList r R).
Proof.
  intros HR. unfold upOf.
  rewrite path_Join_render by (auto using dots_sepFree; discriminate).
  now rewrite cleanElems_up.
Qed.

(** The elements of a cleaned path are those of one cleaned path only. *)
Lemma render_inj (r : bool) (R1 R2 : list string) :
  cleanList r R1 → cleanList r R2 → render r R1 = render r R2 → R1 = R2.
Proof.
  intros H1 H2 Heq.
  pose proof (cleanElems_render r R1 [] H1) as E1.
  pose proof (cleanElems_render r R2 [] H2) as E2.
  rewrite Heq, E2 in E1. simpl in E1. now rewrite !rev_involutive in E1.
Qed.

Lemma upList_fixpoint (r : bool) (R : list string) :
  upList r R = R → r = true ∧ R = [].
Proof.
  unfold upList. destruct (rev R) as [|top out'] eqn:Hrev.
  - apply (f_equal (@rev string)) in Hrev. rewrite rev_involutive in Hrev.
    subst R. destruct r; [auto | discriminate].
  - apply (f_equal (@rev string)) in Hrev. rewrite rev_involutive in Hrev.
    simpl in Hrev. case_decide; intros Hfix;
      apply (f_equal (@length string)) in Hfix;
      subst R; rewrite ?length_app in Hfix; simpl in Hfix; lia.
Qed.

Lemma length_cleanElems (r : bool) (elems : list string) :
  ∀ out, length (cleanElems r elems out) ≤ length elems + length out.
Proof.
  induction elems as [|e elems IH]; intros out; simpl.
  - rewrite length_rev. lia.
  - repeat case_decide; try (etrans; [apply IH|]; simpl; lia).
    destruct out as [|top out'].
    + destruct r; (etrans; [apply IH|]; simpl; lia).
    + case_decide; (etrans; [apply IH|]; simpl; lia).
Qed.

Lemma length_splitOn (sep : ascii) (s : string) :
  length (splitOn sep s) ≤ S (String.length s).
Proof.
  induction s as [|c s IH]; simpl; [lia|].
  destruct (Ascii.eqb c sep); simpl; [lia|].
  destruct (splitOn sep s); simpl in *; lia.
Qed.

(** The first pass of the loop of [Discover], on any path: the next path
    is a cleaned one. *)
Lemma upOf_cleaned (p : string) :
  ∃ R, cleanList (rooted p) R ∧ upOf p = render (rooted p) R ∧
       length R ≤ String.length p + 2.
Proof.
  destruct (decide (p = "")) as [->|Hp].
  { exists [".."]. split; [|split; [reflexivity | simpl; lia]].
    exists [".."], []. repeat split; try constructor; auto; discriminate. }
  exists (cleanElems (rooted p) (splitOn "/" p ++ [".."]) []).
  assert (Hup : upOf p = path_Clean (p +:+ String "/" "..")).
  { unfold upOf, path_Join.
    rewrite filter_cons, decide_True by exact Hp. reflexivity. }
  assert (Hne : p +:+ String "/" ".." ≠ "").
  { intros H. now apply append_nil_inv in H. }
  split; [|split].
  - rewrite <- (splitOn_single ".." dots_sepFree), <- splitOn_app.
    apply cleanList_of_path.
  - rewrite Hup, path_Clean_render by exact Hne.
    rewrite rooted_append by exact Hp.
    now rewrite splitOn_app, (splitOn_single ".." dots_sepFree).
  - etrans; [apply length_cleanElems|]. rewrite length_app. simpl.
    pose proof (length_splitOn "/" p). lia.
Qed.

(** A path and the next path of the loop begin alike. *)
Lemma rooted_upOf (p : string) : rooted (upOf p) = rooted p.
Proof.
  destruct (upOf_cleaned p) as (R & HR & -> & _). now apply rooted_render.
Qed.

Lemma rooted_upPath (k : nat) (p : string) : rooted (upPath k p) = rooted p.
Proof.
  induction k as [|k IH]; [reflexivity|].
  unfold upPath in *. simpl. now rewrite rooted_upOf.
Qed.

(** The only path that is its own parent for the loop of [Discover] is
    the root. *)
Lemma upOf_fixpoint (p : string) : upOf p = p → p = "/".
Proof.
  intros Hfix. destruct (upOf_cleaned p) as (R & HR & Hup & _).
  rewrite Hfix in Hup. revert HR Hup. generalize (rooted p) as r.
  intros r HR Hp.
  pose proof (upOf_render r R HR) as Hnext.
  rewrite <- Hp, Hfix in Hnext. rewrite Hp in Hnext at 1.
  apply render_inj in Hnext; [|exact HR | now apply cleanList_upList].
  symmetry in Hnext. apply upList_fixpoint in Hnext as [-> ->].
  exact Hp.
Qed.

Lemma length_upList_rooted (R : list string) :
  cleanList true R → R ≠ [] → length (upList true R) < length R.
Proof.
  intros (dots & names & -> & _ & Hn & Hr) Hne. rewrite (Hr eq_refl) in *.
  simpl in *. unfold upList.
  destruct names as [|n names _] using rev_ind; [congruence|].
  rewrite rev_app_distr. simpl.
  apply Forall_app in Hn as [_ Hn]. inversion Hn as [|? ? (_ & _ & Hdd & _) _].
  rewrite decide_False by exact Hdd.
  rewrite rev_involutive, length_app. simpl. lia.
Qed.

Section DiscoverLoopFacts.
Context `{os : OS}.

(** From a cleaned rooted path the loop ends within as many passes as the
    path has elements, and one more. *)
Lemma discoverLoop_ends_cleaned (fs : FS) (fuel : nat) :
  ∀ R, cleanList true R → length R < fuel →
       ∃ r, discoverLoop fuel fs (render true R) = Some r.
Proof.
  induction fuel as [|n IH]; intros R HR Hlen; [lia|]. simpl.
  destruct (markerFound fs (render true R)); [eauto|].
  destruct (decide (render true R = upOf (render true R))) as [|Hne]; [eauto|].
  rewrite upOf_render by exact HR.
  apply IH; [now apply cleanList_upList|].
  destruct R as [|e R]; [now destruct Hne|].
  pose proof (length_upList_rooted (e :: R) HR). simpl in *.
  assert (e :: R ≠ []) by discriminate. intuition lia.
Qed.

Lemma discoverLoop_ends_rooted (fs : FS) (p : string) :
  rooted p = true →
  ∃ r, discoverLoop (String.length p + 4) fs p = Some r.
Proof.
  intros Hroot. replace (String.length p + 4) with (S (String.length p + 3))
    by lia.
  simpl. destruct (markerFound fs p); [eauto|].
  destruct (decide (p = upOf p)); [eauto|].
  destruct (upOf_cleaned p) as (R & HR & -> & Hlen). rewrite Hroot in *.
  apply discoverLoop_ends_cleaned; [exact HR | lia].
Qed.

End DiscoverLoopFacts.

(** [path.Clean] keeps what it has written. *)
Lemma path_Clean_rendered (r : bool) (R : list string) :
  cleanList r R → path_Clean (render r R) = render r R.
Proof.
  intros HR. rewrite path_Clean_render by apply render_nonempty.
  rewrite rooted_render by exact HR.
  pose proof (cleanElems_render r R [] HR) as H. rewrite app_nil_r in H.
  rewrite H. simpl. now rewrite rev_involutive.
Qed.

Lemma path_Clean_idempotent (p : string) :
  path_Clean (path_Clean p) = path_Clean p.
Proof.
  destruct (decide (p = "")) as [->|Hp]; [reflexivity|].
  rewrite (path_Clean_render p Hp).
  apply path_Clean_rendered, cleanList_of_path.
Qed.

Lemma rooted_path_Clean (p : string) :
  p ≠ "" → rooted (path_Clean p) = rooted p.
Proof.
  intros Hp. rewrite (path_Clean_render p Hp).
  apply rooted_render, cleanList_of_path.
Qed.

Lemma append_assoc (a b c : string) : (a +:+ b) +:+ c = a +:+ (b +:+ c).
Proof.
  induction a as [|x a IH]; [reflexivity|].
  change (String x ((a +:+ b) +:+ c) = String x (a +:+ (b +:+ c))).
  now rewrite IH.
Qed.

Lemma strings_Join_snoc (R : list string) (e : string) :
  R ≠ [] →
  strings_Join (R ++ [e]) "/" = strings_Join R "/" +:+ String "/" e.
Proof.
  induction R as [|a R IH]; [congruence|]. intros _.
  destruct R as [|b R]; [reflexivity|].
  cbn [app]. rewrite strings_Join_cons by discriminate.
  change (b :: R ++ [e]) with ((b :: R) ++ [e]).
  rewrite IH by discriminate.
  rewrite (strings_Join_cons a (b :: R)) by discriminate.
  now rewrite append_assoc.
Qed.

(** One more name after a cleaned path that has elements. *)
Lemma render_snoc (r : bool) (R : list string) (e : string) :
  cleanList r R → R ≠ [] →
  render r (R ++ [e]) = render r R +:+ String "/" e.
Proof.
  intros HR Hne. unfold render. rewrite strings_Join_snoc by exact Hne.
  destruct R as [|a R]; [congruence|].
  destruct (cleanList_head _ _ _ HR) as (c & s & -> & _).
  assert (Hbody : strings_Join (String c s :: R) "/" ≠ "")
    by (apply strings_Join_nonempty; discriminate).
  destruct r.
  - rewrite !decide_False by discriminate. reflexivity.
  - rewrite (decide_False (P := strings_Join _ _ = "")) by exact Hbody.
    rewrite decide_False; [reflexivity|].
    intros H. now apply append_nil_inv in H.
Qed.

Lemma path_Join_name (r : bool) (R : list string) (e : string) :
  cleanList r R → properName e →
  path_Join [render r R; e] = render r (R ++ [e]).
Proof.
  intros HR He. destruct He as (Hne & ? & ? & Hfree).
  rewrite path_Join_render by assumption.
  rewrite cleanElems_name by (repeat split; assumption).
  simpl. now rewrite rev_involutive.
Qed.

Lemma properName_gd : properName GDDirSuffix.
Proof. repeat split; try discriminate. repeat constructor. Qed.

Lemma cleanList_snoc (r : bool) (R : list string) (e : string) :
  cleanList r R → properName e → cleanList r (R ++ [e]).
Proof.
  intros (dots & names & -> & Hd & Hn & Hr) He.
  exists dots, (names ++ [e]). rewrite app_assoc.
  repeat split; auto. apply Forall_app. split; [exact Hn | now constructor].
Qed.

(** The marker path of any path is the cleaned path with one more element,
    [.gd]. *)
Lemma gdPath_render (p : string) :
  ∃ r R, cleanList r R ∧ gdPath p = render r (R ++ [GDDirSuffix]) ∧
         gdPath (path_Clean p) = gdPath p.
Proof.
  destruct (decide (p = "")) as [->|Hp].
  { exists false, []. split; [apply cleanList_nil|]. split; reflexivity. }
  exists (rooted p), (cleanElems (rooted p) (splitOn "/" p) []).
  pose proof (cleanList_of_path (rooted p) p) as HR.
  split; [exact HR|].
  assert (Hgd : gdPath p
                = render (rooted p)
                    (cleanElems (rooted p) (splitOn "/" p) [] ++ [GDDirSuffix])).
  { unfold gdPath, path_Join.
    rewrite filter_cons, decide_True by exact Hp.
    change (filter (λ e, e ≠ "") [GDDirSuffix]) with [GDDirSuffix].
    change (strings_Join [p; GDDirSuffix] "/")
      with (p +:+ String "/" GDDirSuffix).
    rewrite path_Clean_render
      by (intros H; now apply append_nil_inv in H).
    rewrite rooted_append by exact Hp.
    rewrite splitOn_app, cleanElems_app.
    rewrite (splitOn_single GDDirSuffix)
      by apply properName_sepFree, properName_gd.
    rewrite cleanElems_name by apply properName_gd.
    simpl. now rewrite rev_involutive. }
  split; [exact Hgd|].
  rewrite Hgd, (path_Clean_render p Hp).
  unfold gdPath. now apply path_Join_name, properName_gd.
Qed.

(** A file of the marker directory lies directly in it. *)
Lemma gdPath_child (p e : string) :
  properName e → path_Join [gdPath p; e] = gdPath p +:+ String "/" e.
Proof.
  intros He. destruct (gdPath_render p) as (r & R & HR & -> & _).
  rewrite path_Join_name
    by (auto using cleanList_snoc, properName_gd).
  apply render_snoc; [now apply cleanList_snoc, properName_gd|].
  intros H. now apply app_eq_nil in H as [_ H].
Qed.

End CleanFacts.

Section DiscoverMoreFacts.
Context `{os : OS}.

Lemma discoverLoop_le (fuel fuel' : nat) (fs : FS) (p : string) r :
  fuel ≤ fuel' →
  discoverLoop fuel fs p = Some r → discoverLoop fuel' fs p = Some r.
Proof.
  induction 1 as [|m _ IH]; [auto|]. intros H. now apply discoverLoop_more, IH.
Qed.

(** Without a marker directory the loop goes on from a path that does not
    begin with a separator. *)
Lemma discoverLoop_relative (fuel : nat) :
  ∀ (fs : FS) (p : string),
    rooted p = false →
    (∀ k, k < fuel → markerFound fs (upPath k p) = false) →
    discoverLoop fuel fs p = None.
Proof.
  induction fuel as [|n IH]; intros fs p Hrel Hnone; [reflexivity|]. simpl.
  pose proof (Hnone 0 ltac:(lia)) as H0. change (upPath 0 p) with p in H0.
  rewrite H0.
  destruct (decide (p = upOf p)) as [Heq|_].
  { symmetry in Heq. apply upOf_fixpoint in Heq. subst p. discriminate. }
  apply IH; [now rewrite rooted_upOf|].
  intros k Hk. specialize (Hnone (S k)). 
  replace (upPath k (upOf p)) with (upPath (S k) p); [apply Hnone; lia|].
  unfold upPath. clear. induction k as [|k IHk]; [reflexivity|].
  simpl in *. now rewrite IHk.
Qed.

End DiscoverMoreFacts.

Section ParentFacts.

Lemma dropWhile_suffix {A} (f : A → bool) (l : list A) :
  ∃ pre, l = pre ++ dropWhile f l.
Proof.
  induction l as [|x l [pre IH]]; [exists []; reflexivity|]. simpl.
  destruct (f x); [|exists []; reflexivity].
  exists (x :: pre). simpl. now rewrite <- IH.
Qed.

Lemma dropWhile_head {A} (f : A → bool) (l : list A) :
  match dropWhile f l with [] => True | x :: _ => f x = false end.
Proof.
  induction l as [|x l IH]; simpl; [exact I|].
  destruct (f x) eqn:Hf; [exact IH | exact Hf].
Qed.

(** The parent that a pass of [LeastNonExistantRoot] goes to is empty, or
    it is the part of the path up to a separator, with that separator. *)
Lemma parentOf_prefix (p : string) :
  (∃ rest, p = parentOf p +:+ rest) ∧
  (parentOf p = "" ∨ ∃ s, parentOf p = s +:+ "/").
Proof.
  unfold parentOf, filepath_Split, strings_TrimRight. cbn [fst].
  rewrite bytes_ofBytes, rev_involutive.
  destruct (dropWhile_suffix (inCutset PathSeparator) (rev (bytes p)))
    as [pre1 H1].
  set (t1 := dropWhile (inCutset PathSeparator) (rev (bytes p))) in *.
  destruct (dropWhile_suffix notSeparator t1) as [pre2 H2].
  pose proof (dropWhile_head notSeparator t1) as Hhead.
  set (t2 := dropWhile notSeparator t1) in *.
  split.
  - exists (ofBytes (rev pre2 ++ rev pre1)).
    rewrite <- ofBytes_app, <- (ofBytes_bytes p) at 1. f_equal.
    rewrite <- (rev_involutive (bytes p)), H1, H2.
    now rewrite !rev_app_distr, app_assoc.
  - destruct t2 as [|x t2']; [now left|]. right.
    exists (ofBytes (rev t2')). simpl. rewrite ofBytes_app. simpl.
    unfold notSeparator, IsPathSeparator in Hhead.
    apply negb_false_iff, Ascii.eqb_eq in Hhead. now subst x.
Qed.

Lemma ancestor_S (k : nat) (p : string) :
  ancestor (S k) p = parentOf (ancestor k p).
Proof. reflexivity. Qed.

Lemma ancestor_prefix (k : nat) (p : string) :
  ∃ rest, p = ancestor k p +:+ rest.
Proof.
  induction k as [|k [rest IH]]; [exists ""; unfold ancestor; simpl|].
  - induction p as [|c p IHp]; [reflexivity|].
    change (String c p = String c (p +:+ "")). now rewrite <- IHp.
  - rewrite ancestor_S.
    destruct (parentOf_prefix (ancestor k p)) as [[rest' H] _].
    exists (rest' +:+ rest). rewrite <- append_assoc, <- H. exact IH.
Qed.

Section LeastRootFacts.
Context `{os : OS}.

Lemma ancestor_shorter (k : nat) (p : string) :
  (∀ j, j ≤ k → ancestor j p ≠ "") →
  String.length (ancestor (S k) p) < String.length p.
Proof.
  induction k as [|k IH]; intros Hne.
  - apply parentOf_shorter. apply (Hne 0). lia.
  - rewrite ancestor_S.
    pose proof (parentOf_shorter (ancestor (S k) p) (Hne (S k) (le_n _))).
    assert (String.length (ancestor (S k) p) < String.length p)
      by (apply IH; intros j Hj; apply Hne; lia).
    lia.
Qed.

End LeastRootFacts.

End ParentFacts.

Section SameLinkFacts.
Context `{os : OS}.
Variables (contextPath contextAbsPath : string) (hidden : bool).

(** The pass that creates a link. *)
Lemma mountStep_linked (st : LoopState FS) (p : string) (fs1 : FS) :
  visitors st !! p = None →
  statExists (loopFS st) p →
  hiddenSkips hidden p = false →
  os_Symlink (loopFS st) p (mountPathOf contextAbsPath p) = (fs1, None) →
  loopFS (mountStep contextPath contextAbsPath hidden st p) = fs1.
Proof.
  intros Hv Hstat Hhid Hlink. unfold mountStep. rewrite Hv.
  unfold statExists in Hstat. unfold hiddenSkips in Hhid.
  unfold mountPathOf in Hlink.
  destruct (os_Stat (loopFS st) p) as [i|e]; simpl in *; [|congruence].
  rewrite Hhid, Hlink. reflexivity.
Qed.

End SameLinkFacts.

(* ===================================================================== *)
(** * Further properties of the package *)
(* ===================================================================== *)

(** X1.  The MountPoints of a returned Mount follow the list of sources: their
    sources are a sublist of [paths], in the order of [paths] and without
    a repetition; none is a source that the hidden filter skips; and each has
    the link path [filepath.Join(contextAbsPath, base)] and the name
    ["/" + base], or ["/" + contextPath + "/" + base] for a non-empty
    [contextPath], where [base] is [filepath.Base] of its source. *)
Theorem MountPoints_points_follow_paths `{os : OS}
  (contextPath contextAbsPath : string) (paths : list string)
  (hidden : bool) (fs : FS) (m : Mount.t) :
  (MountPoints contextPath contextAbsPath paths hidden fs).1.1 = Some m →
  map MountPoint.AbsPath (Mount.Points m) `sublist_of` paths ∧
  NoDup (map MountPoint.AbsPath (Mount.Points m)) ∧
  Forall (λ mp,
            let base := filepath_Base (MountPoint.AbsPath mp) in
            hiddenSkips hidden (MountPoint.AbsPath mp) = false ∧
            MountPoint.MountPath mp = filepath_Join [contextAbsPath; base] ∧
            MountPoint.Name mp =
              if decide (contextPath = "") then "/" +:+ base
              else "/" +:+ contextPath +:+ "/" +:+ base)
         (Mount.Points m).
Proof.
  intros Hm.
  pose proof (MountPoints_produced_nonempty contextPath contextAbsPath
                paths hidden fs) as Hpts.
  rewrite Hm in Hpts. destruct Hpts as [Hne ->].
  pose proof (producedPoints_not_hidden contextPath contextAbsPath hidden
                paths fs) as Hhid.
  unfold producedPoints in *.
  destruct (prepareRoot contextAbsPath fs) as [|c sh srcs fs1];
    [now destruct Hne|].
  destruct (mountLoop_sources_in_order contextPath contextAbsPath hidden
              paths (mkLoop fs1 ∅ [])) as (l & Hl & Hsub & Hnd & _).
  pose proof (mountLoop_wellNamed contextPath contextAbsPath hidden paths
                (mkLoop fs1 ∅ []) (List.Forall_nil _)) as Hnamed.
  rewrite Hl in *. simpl in *.
  split; [exact Hsub|]. split; [exact Hnd|].
  rewrite Forall_forall in *. intros mp Hin.
  destruct (Hnamed mp Hin) as [Hname Hpath].
  split; [now apply Hhid|]. split; [exact Hpath|].
  rewrite Hname. unfold relPathOf. now destruct (decide (contextPath = "")).
Qed.

Lemma MountPoints_points_follow_paths_witness :
  ∃ m,
    (MountPoints (os := SimFS.os) "ctx" "/work/.gd/mnt"
       ["/home/u/docs"; "/home/u/.secret"; "/nowhere"; "/home/u/docs";
        "/home/u"] true Scenario.home).1.1 = Some m ∧
    map MountPoint.AbsPath (Mount.Points m)
      = ["/home/u/docs"; "/home/u/.secret"; "/home/u"] ∧
    map MountPoint.Name (Mount.Points m)
      = ["/ctx/docs"; "/ctx/.secret"; "/ctx/u"] ∧
    map MountPoint.AbsPath (Mount.Points m) `sublist_of`
      ["/home/u/docs"; "/home/u/.secret"; "/nowhere"; "/home/u/docs";
       "/home/u"].
Proof.
  eexists. split; [vm_compute; reflexivity|].
  split; [reflexivity|]. split; [reflexivity|].
  refine (proj1 (MountPoints_points_follow_paths (os := SimFS.os)
            "ctx" "/work/.gd/mnt"
            ["/home/u/docs"; "/home/u/.secret"; "/nowhere"; "/home/u/docs";
             "/home/u"] true Scenario.home _ _)).
  vm_compute. reflexivity.
Defined.

(** X2.  A call none of whose sources yields a MountPoint (each is not found
    by [os.Stat] or is skipped by the hidden filter) returns a nil Mount and
    leaves the file system as it is after the mount root has been dealt
    with: unchanged when the root is found, and with the root that
    [os.MkdirAll] has just made, which no Mount names, when it was not. *)
Theorem MountPoints_nothing_to_link `{os : OS}
  (contextPath contextAbsPath : string) (paths : list string)
  (hidden : bool) (fs : FS) :
  (∀ i,
     os_Stat fs contextAbsPath = Ok i →
     Forall (λ a, statExists fs a → hiddenSkips hidden a = true) paths →
     MountPoints contextPath contextAbsPath paths hidden fs
     = ((None, []), fs)) ∧
  (∀ fErr fs1,
     os_Stat fs contextAbsPath = Err fErr →
     os_IsNotExist fErr = true →
     os_MkdirAll fs contextAbsPath (Z.lor os_ModeDir perm_0755) = (fs1, None) →
     Forall (λ a, statExists fs1 a → hiddenSkips hidden a = true) paths →
     MountPoints contextPath contextAbsPath paths hidden fs
     = ((None,
         if decide (LeastNonExistantRoot fs contextAbsPath = "") then []
         else [LeastNonExistantRoot fs contextAbsPath]), fs1)).
Proof.
  split.
  - intros i Hstat Hall. unfold MountPoints, prepareRoot. rewrite Hstat. simpl.
    destruct (mountLoop_skipped contextPath contextAbsPath hidden paths
                (mkLoop fs ∅ []) Hall) as [-> ->].
    reflexivity.
  - intros fErr fs1 Hstat Hne Hmk Hall.
    unfold MountPoints, prepareRoot. rewrite Hstat. simpl. rewrite Hne. simpl.
    rewrite Hmk.
    destruct (mountLoop_skipped contextPath contextAbsPath hidden paths
                (mkLoop fs1 ∅ []) Hall) as [Hfs Hpts].
    destruct (decide (LeastNonExistantRoot fs contextAbsPath ≠ ""));
      destruct (decide (LeastNonExistantRoot fs contextAbsPath = ""));
      try contradiction; simpl; rewrite Hfs, Hpts; reflexivity.
Qed.

(** On [Scenario.home]: the only sources are a missing path and the hidden
    [.secret]; with the root [/home/u] nothing changes, with the root
    [/work/.gd/mnt] the directories stay behind. *)
Lemma MountPoints_nothing_to_link_witness :
  MountPoints (os := SimFS.os) "" "/home/u" ["/nowhere"; "/home/u/.secret"]
    false Scenario.home
  = ((None, []), Scenario.home) ∧
  (MountPoints (os := SimFS.os) "" "/work/.gd/mnt"
     ["/nowhere"; "/home/u/.secret"] false Scenario.home).1
  = (None, ["/work/"]) ∧
  statIsDir (os := SimFS.os)
    (MountPoints (os := SimFS.os) "" "/work/.gd/mnt"
       ["/nowhere"; "/home/u/.secret"] false Scenario.home).2
    "/work/.gd/mnt".
Proof.
  destruct (MountPoints_nothing_to_link (os := SimFS.os) "" "/home/u"
              ["/nowhere"; "/home/u/.secret"] false Scenario.home)
    as [Hfound _].
  destruct (MountPoints_nothing_to_link (os := SimFS.os) "" "/work/.gd/mnt"
              ["/nowhere"; "/home/u/.secret"] false Scenario.home)
    as [_ Hmade].
  split; [|split].
  - apply (Hfound (mkFileInfo true)); [vm_compute; reflexivity|].
    repeat constructor; vm_compute; intros H; solve [reflexivity | now destruct H].
  - rewrite (Hmade (PathError "stat" "/work/.gd/mnt" ENOENT)
               (SimFS.MkdirAll Scenario.home "/work/.gd/mnt"
                  (Z.lor os_ModeDir perm_0755)).1);
      [vm_compute; reflexivity | vm_compute; reflexivity | reflexivity
      | vm_compute; reflexivity |].
    repeat constructor; vm_compute; intros H; solve [reflexivity | now destruct H].
  - exists (mkFileInfo true). split; vm_compute; reflexivity.
Defined.

(** X3.  Tearing down what a call has linked: on a consistent file system,
    [Unmount] on the produced MountPoints, the last one first, returns no
    error and gives back the file system in which the loop began (the one
    after the mount root was dealt with).  A MountPoint whose [CanClean] is
    false removes nothing, and its pass had changed nothing. *)
Theorem Unmount_undoes_MountPoints `{os : OS} `{!LinkLaws}
  (contextPath contextAbsPath : string) (paths : list string)
  (hidden : bool) (fs : FS) (created : bool) (shortest : string)
  (sources : list string) (fs1 : FS) :
  prepareRoot contextAbsPath fs = RootReady created shortest sources fs1 →
  intact fs1 →
  unmountAll
    (rev (producedPoints contextPath contextAbsPath paths hidden fs))
    (MountPoints contextPath contextAbsPath paths hidden fs).2
  = (fs1, []).
Proof.
  intros Hroot Hok. unfold producedPoints, MountPoints. rewrite Hroot. simpl.
  destruct (mountLoop_undone contextPath contextAbsPath hidden paths
              (mkLoop fs1 ∅ []) Hok) as (l & -> & Hun).
  exact Hun.
Qed.

(** On [Scenario.occupied]: [/home/u/docs] collides with the file
    [/mnt/docs], [/home/u/.secret] and [/home/u] are linked; unmounting the
    three MountPoints gives the file system back. *)
Lemma Unmount_undoes_MountPoints_witness :
  let paths := ["/home/u/docs"; "/home/u/.secret"; "/home/u"] in
  map MountPoint.CanClean
    (producedPoints (os := SimFS.os) "" "/mnt" paths true Scenario.occupied)
  = [false; true; true] ∧
  (MountPoints (os := SimFS.os) "" "/mnt" paths true Scenario.occupied).2
  ≠ Scenario.occupied ∧
  unmountAll (os := SimFS.os)
    (rev (producedPoints (os := SimFS.os) "" "/mnt" paths true
            Scenario.occupied))
    (MountPoints (os := SimFS.os) "" "/mnt" paths true Scenario.occupied).2
  = (Scenario.occupied, []).
Proof.
  intros paths. split; [vm_compute; reflexivity|].
  split; [vm_compute; discriminate|].
  apply (Unmount_undoes_MountPoints (os := SimFS.os) "" "/mnt" paths true
           Scenario.occupied false "" []).
  - vm_compute. reflexivity.
  - apply wellFormed_wf. vm_compute. reflexivity.
Defined.

(** X4.  Credentials round trip: after a successful [Write] of a context,
    [Read] on a context with the same root fills it with what was written,
    for a context that the JSON encoding round-trips into that receiver. *)
Theorem Read_after_Write `{os : OS} `{!OSLaws} `{json : JSON}
  (c c0 : Context.t) (data : string) (fs fs' : FS) :
  json_MarshalContext c = Ok data →
  json_UnmarshalContext data c0 = (c, None) →
  Context.AbsPath c0 = Context.AbsPath c →
  Write c fs = (fs', None) →
  Read c0 fs' = (c, None).
Proof.
  intros Hm Hu Hroot Hw. unfold Write in Hw. rewrite Hm in Hw.
  unfold Read. rewrite Hroot, (ReadFile_WriteFile _ _ _ _ _ Hw). exact Hu.
Qed.

(** On [Scenario.contexts]: credentials written under [/a] are read back
    into an empty context rooted at [/a]. *)
Lemma Read_after_Write_witness :
  Read (os := SimFS.os) (json := SimJSON.json) (Context.mk "" "" "" "/a")
    (Write (os := SimFS.os) (json := SimJSON.json) Scenario.credentials
       Scenario.contexts).1
  = (Scenario.credentials, None).
Proof.
  apply (Read_after_Write (os := SimFS.os) (json := SimJSON.json)
           Scenario.credentials (Context.mk "" "" "" "/a")
           (SimJSON.encContext Scenario.credentials) Scenario.contexts);
    [reflexivity | vm_compute; reflexivity | reflexivity
    | vm_compute; reflexivity].
Defined.


(** X5.  [Initialize] then [Discover]: when [Initialize] returns a context
    and no error, the marker directory of [absPath] is a directory of the
    file system it leaves, and [Discover] from [absPath] ends in its first
    pass with the context that [Initialize] has returned, which has the
    root [absPath] and empty credentials, whatever credentials were stored
    under [absPath] before. *)
Theorem Discover_after_Initialize `{os : OS} `{!OSLaws} `{!StatLaws}
  `{json : JSON} (absPath : string) (fs fs2 : FS) (r : InitResult)
  (c : Context.t) (data : string) (fuel : nat) :
  json_MarshalContext (Context.mk "" "" "" absPath) = Ok data →
  json_UnmarshalContext data (Context.mk "" "" "" absPath)
  = (Context.mk "" "" "" absPath, None) →
  Initialize absPath fs = (r, fs2) →
  initContext r = Some c →
  initErr r = None →
  c = Context.mk "" "" "" absPath ∧
  statIsDir fs2 (gdPath absPath) ∧
  Discover (S fuel) absPath fs2 = Some (Some c, None).
Proof.
  intros Hm Hu Hinit Hc Herr. unfold Initialize in Hinit.
  destruct (match err (os_Stat fs (gdPath absPath)) with
            | Some e => _ | None => _ end) as [first|];
    [|injection Hinit as <- _; discriminate].
  destruct (match val (os_Stat fs (gdPath absPath)) with
            | Some info => _ | None => _ end);
    [injection Hinit as <- _; discriminate|].
  destruct (os_MkdirAll fs (gdPath absPath) perm_0755) as [fs1 [e|]] eqn:Hmk;
    [injection Hinit as <- _; discriminate|].
  destruct (Write _ fs1) as [fs2' wErr] eqn:Hw.
  injection Hinit as <- <-. simpl in Hc, Herr. injection Hc as <-. subst wErr.
  split; [reflexivity|].
  destruct (MkdirAll_directory _ _ _ _ Hmk) as (i & Hstat & Hdir).
  assert (Hstat2 : os_Stat fs2' (gdPath absPath) = Ok i).
  { unfold Write in Hw. rewrite Hm in Hw.
    exact (Stat_dir_WriteFile _ _ _ _ _ _ _ _ Hw Hstat Hdir). }
  split; [exists i; auto|].
  unfold Discover. rewrite discoverLoop_found.
  - simpl. unfold Write in Hw. rewrite Hm in Hw. simpl in Hw.
    unfold Read. simpl. rewrite (ReadFile_WriteFile _ _ _ _ _ Hw), Hu.
    reflexivity.
  - unfold markerFound. rewrite Hstat2. exact Hdir.
Qed.

(** On [Scenario.stored], where [/a] holds credentials: [Discover] finds
    them before the call, and the empty ones after it. *)
Lemma Discover_after_Initialize_witness :
  let fresh := Context.mk "" "" "" "/a" in
  let result := Initialize (os := SimFS.os) (json := SimJSON.json) "/a"
                  Scenario.stored in
  Discover (os := SimFS.os) (json := SimJSON.json) 1 "/a" Scenario.stored
  = Some (Some Scenario.credentials, None) ∧
  firstInit result.1 = false ∧
  Discover (os := SimFS.os) (json := SimJSON.json) 1 "/a" result.2
  = Some (Some fresh, None).
Proof.
  intros fresh result.
  split; [vm_compute; reflexivity|]. split; [vm_compute; reflexivity|].
  destruct (Discover_after_Initialize (os := SimFS.os) (json := SimJSON.json)
              "/a" Scenario.stored result.2 result.1 fresh
              (SimJSON.encContext fresh) 0) as (_ & _ & Hd);
    [reflexivity | vm_compute; reflexivity | vm_compute; reflexivity
    | vm_compute; reflexivity | vm_compute; reflexivity |].
  exact Hd.
Defined.

(** X6.  A marker directory without readable credentials: [Discover] from a
    path whose marker directory is found returns the error of
    [ioutil.ReadFile], not the no-context error, together with a context
    that has this path as root and empty credentials. *)
Theorem Discover_unreadable_credentials `{os : OS} `{json : JSON}
  (p : string) (fs : FS) (info : FileInfo) (e : error) (fuel : nat) :
  os_Stat fs (gdPath p) = Ok info →
  IsDir info = true →
  ioutil_ReadFile fs (credentialsPath p) = Err e →
  Discover (S fuel) p fs = Some (Some (Context.mk "" "" "" p), Some e).
Proof.
  intros Hstat Hdir Hread. unfold Discover.
  rewrite discoverLoop_found by (unfold markerFound; now rewrite Hstat).
  simpl. unfold Read. simpl. now rewrite Hread.
Qed.

(** On [Scenario.contexts] the marker directory of [/a] is empty. *)
Lemma Discover_unreadable_credentials_witness :
  Discover (os := SimFS.os) (json := SimJSON.json) 1 "/a" Scenario.contexts
  = Some (Some (Context.mk "" "" "" "/a"),
          Some (PathError "open" "/a/.gd/credentials.json" ENOENT)).
Proof.
  apply (Discover_unreadable_credentials (os := SimFS.os)
           (json := SimJSON.json) "/a" Scenario.contexts (mkFileInfo true));
    vm_compute; reflexivity.
Defined.

(** X7.  What [Discover] returns, when its loop ends.  The loop walks from
    [currentAbsPath] upwards with [path.Join(p, "..")] and ends at the first
    path whose marker directory [os.Stat] finds as a directory; the context
    returned has that path as root and is what [Read] makes of an empty
    context with that root, with the error of [Read].  The no-context error
    is returned only when the walk has come to the root ["/"] and no marker
    directory was found on the way or at the root; so it is returned only for
    a path that begins with a separator. *)
Theorem Discover_result `{os : OS} `{json : JSON} `{!JSONLaws}
  (fuel : nat) (currentAbsPath : string) (fs : FS)
  (context : option Context.t) (e : option error) :
  Discover fuel currentAbsPath fs = Some (context, e) →
  ∃ k, k < fuel ∧
       (∀ j, j < k → markerFound fs (upPath j currentAbsPath) = false) ∧
       match context with
       | Some c =>
           markerFound fs (upPath k currentAbsPath) = true ∧
           Read (Context.mk "" "" "" (upPath k currentAbsPath)) fs = (c, e) ∧
           Context.AbsPath c = upPath k currentAbsPath
       | None =>
           e = Some ErrNoContext ∧
           upPath k currentAbsPath = "/" ∧
           markerFound fs "/" = false ∧
           rooted currentAbsPath = true
       end.
Proof.
  unfold Discover.
  destruct (discoverLoop fuel fs currentAbsPath) as [[q found]|] eqn:Hloop;
    [|discriminate].
  destruct (discoverLoop_result fuel fs currentAbsPath q found Hloop)
    as (k & Hk & -> & Hfound & Hfix & Hbefore).
  intros Hres. exists k. split; [exact Hk|].
  split; [intros j Hj; now apply Hbefore|].
  destruct found; simpl in Hres.
  - destruct (Read _ fs) as [c e'] eqn:Hread. injection Hres as <- <-.
    split; [exact Hfound|]. split; [reflexivity|].
    unfold Read in Hread. simpl in Hread.
    destruct (ioutil_ReadFile fs _) as [data|rErr].
    + pose proof (Unmarshal_keeps_AbsPath data
                    (Context.mk "" "" "" (upPath k currentAbsPath))) as Hkeep.
      rewrite Hread in Hkeep. exact Hkeep.
    + now injection Hread as <- _.
  - injection Hres as <- <-. split; [reflexivity|].
    pose proof (upOf_fixpoint _ (Hfix eq_refl)) as Hroot.
    split; [exact Hroot|]. split; [now rewrite <- Hroot|].
    now rewrite <- (rooted_upPath k), Hroot.
Qed.

(** On [Scenario.stored]: from [/a/sub/dir] the marker directory is found
    two paths up, at [/a], with the stored credentials. *)
Lemma Discover_result_witness :
  Discover (os := SimFS.os) (json := SimJSON.json) 5 "/a/sub/dir"
    Scenario.stored
  = Some (Some Scenario.credentials, None) ∧
  ∃ k, k < 5 ∧
       markerFound (os := SimFS.os) Scenario.stored (upPath k "/a/sub/dir")
       = true ∧
       Context.AbsPath Scenario.credentials = upPath k "/a/sub/dir".
Proof.
  split; [vm_compute; reflexivity|].
  destruct (Discover_result (os := SimFS.os) (json := SimJSON.json) 5
              "/a/sub/dir" Scenario.stored (Some Scenario.credentials) None)
    as (k & Hk & _ & Hm & _ & Hroot); [vm_compute; reflexivity|].
  exists k. auto.
Defined.

(** X8.  [Discover] returns for every path that begins with a separator:
    its loop ends within [len(currentAbsPath) + 4] passes, whatever the file
    system holds. *)
Theorem Discover_returns_for_rooted `{os : OS} `{json : JSON}
  (currentAbsPath : string) (fs : FS) :
  rooted currentAbsPath = true →
  ∃ r, ∀ fuel, String.length currentAbsPath + 4 ≤ fuel →
               Discover fuel currentAbsPath fs = Some r.
Proof.
  intros Hroot.
  destruct (discoverLoop_ends_rooted fs currentAbsPath Hroot) as [[q found] Hq].
  exists (if negb found then (None, Some ErrNoContext)
          else let '(c, e) := Read (Context.mk "" "" "" q) fs in (Some c, e)).
  intros fuel Hfuel. unfold Discover.
  rewrite (discoverLoop_le _ fuel _ _ _ Hfuel Hq).
  destruct found; simpl; [|reflexivity].
  now destruct (Read _ fs).
Qed.

(** On [Scenario.home], which has no marker directory, the walk from
    [/home/u/docs] ends at the root with the no-context error. *)
Lemma Discover_returns_for_rooted_witness :
  ∃ r, (∀ fuel, 16 ≤ fuel →
          Discover (os := SimFS.os) (json := SimJSON.json) fuel "/home/u/docs"
            Scenario.home = Some r) ∧
       r = (None, Some ErrNoContext).
Proof.
  destruct (Discover_returns_for_rooted (os := SimFS.os) (json := SimJSON.json)
              "/home/u/docs" Scenario.home) as [r Hr]; [reflexivity|].
  exists r. split; [exact Hr|].
  specialize (Hr 16 (le_n _)). vm_compute in Hr. now injection Hr as <-.
Defined.

(** X9.  [Discover] on a path that does not begin with a separator: the
    next path is never the path itself ([""], ["."], [".."], ["../.."] and so
    on), so only a marker directory ends the loop; as many passes as one likes
    do not end it when none of their paths has one. *)
Theorem Discover_relative_needs_marker `{os : OS} `{json : JSON}
  (fuel : nat) (currentAbsPath : string) (fs : FS) :
  rooted currentAbsPath = false →
  (∀ k, k < fuel → markerFound fs (upPath k currentAbsPath) = false) →
  Discover fuel currentAbsPath fs = None.
Proof.
  intros Hrel Hnone. unfold Discover.
  now rewrite discoverLoop_relative.
Qed.

(** On [Scenario.home] the first six paths from [home/u] are [home/u],
    [home], [.], [..], [../..] and [../../..]. *)
Lemma Discover_relative_needs_marker_witness :
  map (λ k, upPath k "home/u") [0; 1; 2; 3; 4; 5]
  = ["home/u"; "home"; "."; ".."; "../.."; "../../.."] ∧
  Discover (os := SimFS.os) (json := SimJSON.json) 6 "home/u" Scenario.home
  = None.
Proof.
  split; [reflexivity|].
  apply (Discover_relative_needs_marker (os := SimFS.os) (json := SimJSON.json)
           6 "home/u" Scenario.home); [reflexivity|].
  intros k Hk.
  destruct k as [|[|[|[|[|[|k]]]]]]; [vm_compute; reflexivity..|lia].
Defined.

(** X10.  The files of a context lie directly in its marker directory, for
    every root: the credentials path is the marker path with
    ["/credentials.json"] appended and the indices path is the marker path
    with ["/indices"] appended.  A root and the cleaned root ([path.Clean])
    have the same marker path, hence the same files. *)
Theorem context_files_in_marker_directory (absPath : string) :
  credentialsPath absPath = gdPath absPath +:+ "/credentials.json" ∧
  indicesAbsPath absPath = gdPath absPath +:+ "/indices" ∧
  gdPath (path_Clean absPath) = gdPath absPath ∧
  credentialsPath (path_Clean absPath) = credentialsPath absPath ∧
  indicesAbsPath (path_Clean absPath) = indicesAbsPath absPath.
Proof.
  destruct (gdPath_render absPath) as (_ & _ & _ & _ & Hclean).
  unfold credentialsPath, indicesAbsPath. rewrite Hclean.
  repeat split.
  - apply gdPath_child. repeat split; try discriminate. repeat constructor.
  - apply gdPath_child. repeat split; try discriminate. repeat constructor.
Qed.

(** X11.  [AbsPathOf] returns a cleaned path: the result is empty only when
    the root of the context and the argument are both empty, otherwise
    [path.Clean] leaves it as it is; and under a non-empty root it begins
    with a separator exactly when the root does.  (It need not lie below the
    root: [".."] elements of the argument are applied.) *)
Theorem AbsPathOf_is_cleaned (c : Context.t) (fileOrDirPath : string) :
  (AbsPathOf c fileOrDirPath = "" ↔
   Context.AbsPath c = "" ∧ fileOrDirPath = "") ∧
  (AbsPathOf c fileOrDirPath ≠ "" →
   path_Clean (AbsPathOf c fileOrDirPath) = AbsPathOf c fileOrDirPath) ∧
  (Context.AbsPath c ≠ "" →
   rooted (AbsPathOf c fileOrDirPath) = rooted (Context.AbsPath c)).
Proof.
  unfold AbsPathOf, path_Join. set (a := Context.AbsPath c).
  assert (Hclean_ne : ∀ s, path_Clean s ≠ "").
  { intros s. destruct (decide (s = "")) as [->|Hs]; [discriminate|].
    rewrite path_Clean_render by exact Hs. apply render_nonempty. }
  destruct (decide (a = "")) as [Ha|Ha];
    destruct (decide (fileOrDirPath = "")) as [Hp|Hp].
  - rewrite Ha, Hp. simpl. repeat split; congruence.
  - rewrite Ha. rewrite filter_cons, decide_False by auto.
    rewrite filter_cons, decide_True, filter_nil by exact Hp.
    cbn [strings_Join]. split; [|split].
    + split; [intros H; now apply Hclean_ne in H | tauto].
    + intros _. apply path_Clean_idempotent.
    + congruence.
  - rewrite Hp. rewrite filter_cons, decide_True by exact Ha.
    rewrite filter_cons, decide_False, filter_nil by auto.
    cbn [strings_Join]. split; [|split].
    + split; [intros H; now apply Hclean_ne in H | tauto].
    + intros _. apply path_Clean_idempotent.
    + intros _. now apply rooted_path_Clean.
  - rewrite filter_cons, decide_True by exact Ha.
    rewrite filter_cons, decide_True, filter_nil by exact Hp.
    change (strings_Join [a; fileOrDirPath] "/")
      with (a +:+ String "/" fileOrDirPath).
    split; [|split].
    + split; [intros H; now apply Hclean_ne in H | tauto].
    + intros _. apply path_Clean_idempotent.
    + intros _. rewrite rooted_path_Clean
        by (intros H; now apply append_nil_inv in H).
      now apply rooted_append.
Qed.

(** Under the root [/a]: a file below it, and a path that leaves it. *)
Lemma AbsPathOf_is_cleaned_witness :
  let c := Context.mk "" "" "" "/a" in
  AbsPathOf c "docs//x/" = "/a/docs/x" ∧
  AbsPathOf c "../b" = "/b" ∧
  path_Clean (AbsPathOf c "../b") = AbsPathOf c "../b" ∧
  rooted (AbsPathOf c "../b") = true.
Proof.
  intros c. split; [reflexivity|]. split; [reflexivity|].
  destruct (AbsPathOf_is_cleaned c "../b") as (_ & Hclean & Hroot).
  split; [apply Hclean | apply Hroot]; discriminate.
Defined.

(** X12.  The shape of what [LeastNonExistantRoot] returns: the empty
    string, or the argument itself, or a shorter beginning of the argument
    that ends with a separator (["/work/"] for ["/work/.gd/mnt"] when [/work]
    does not exist). *)
Theorem LeastNonExistantRoot_shape `{os : OS} (fs : FS)
  (contextAbsPath : string) :
  let r := LeastNonExistantRoot fs contextAbsPath in
  r = "" ∨ r = contextAbsPath ∨
  ((∃ s, r = s +:+ "/") ∧
   (∃ rest, contextAbsPath = r +:+ rest) ∧
   String.length r < String.length contextAbsPath).
Proof.
  intros r.
  destruct (LeastNonExistantRoot_cases fs contextAbsPath)
    as [[Hr _]|(Hr & _ & _ & k & Hk & Hchain & _)]; fold r in Hr;
    [now left|].
  fold r in Hk. right. destruct k as [|k]; [now left|]. right.
  split; [|split].
  - destruct (parentOf_prefix (ancestor k contextAbsPath)) as [_ [Hnil|Hsep]].
    + rewrite Hk, ancestor_S in Hr. contradiction.
    + rewrite Hk, ancestor_S. exact Hsep.
  - rewrite Hk. apply ancestor_prefix.
  - rewrite Hk. apply ancestor_shorter. intros j Hj. apply Hchain. lia.
Qed.

(** X13.  [LeastNonExistantRoot] is idempotent: what it returns is its own
    highest path that is not found. *)
Theorem LeastNonExistantRoot_idempotent `{os : OS} (fs : FS)
  (contextAbsPath : string) :
  LeastNonExistantRoot fs (LeastNonExistantRoot fs contextAbsPath)
  = LeastNonExistantRoot fs contextAbsPath.
Proof.
  destruct (LeastNonExistantRoot_cases fs contextAbsPath)
    as [[Hr _]|(Hr & _ & _ & k & Hk & Hchain & Hstop)].
  - simpl in Hr. rewrite Hr. reflexivity.
  - simpl in Hr, Hk, Hstop.
    set (r := LeastNonExistantRoot fs contextAbsPath) in *.
    assert (Hnot : val (os_Stat fs r) = None).
    { destruct (Hchain k (le_n _)) as [_ Hnf]. rewrite <- Hk in Hnf.
      unfold statExists in Hnf.
      destruct (val (os_Stat fs r)); [exfalso; apply Hnf; discriminate
                                     | reflexivity]. }
    unfold LeastNonExistantRoot at 1.
    destruct r as [|c r'] eqn:Er; [congruence|]. rewrite <- Er in *.
    replace (String.length r) with (S (String.length r'))
      by (rewrite Er; reflexivity).
    cbn [lnerLoop]. rewrite decide_False by exact Hr. rewrite Hnot.
    destruct Hstop as [Hstop|Hstop].
    + rewrite Hstop. now rewrite decide_True.
    + destruct (decide (parentOf r = "")); [reflexivity|].
      unfold statExists in Hstop.
      now destruct (val (os_Stat fs (parentOf r))).
Qed.

(** X14.  What [Initialize] has done when it returns.  [pathGD] is always
    the marker path.  A context is returned exactly when [os.MkdirAll] on the
    marker path was called and succeeded: it is the empty context with root
    [absPath], the file system is what its [Write] has left, and the error is
    the error of that [Write], so a context can come together with an error.
    When no context is returned nothing has been written: the file system is
    unchanged, or it is what a failed [os.MkdirAll] has left. *)
Theorem Initialize_effects `{os : OS} `{json : JSON}
  (absPath : string) (fs fs2 : FS) (r : InitResult) :
  Initialize absPath fs = (r, fs2) →
  pathGD r = gdPath absPath ∧
  match initContext r with
  | Some c =>
      c = Context.mk "" "" "" absPath ∧
      ∃ fs1, os_MkdirAll fs (gdPath absPath) perm_0755 = (fs1, None) ∧
             Write c fs1 = (fs2, initErr r)
  | None =>
      fs2 = fs ∨
      ∃ mkErr, os_MkdirAll fs (gdPath absPath) perm_0755 = (fs2, Some mkErr) ∧
               initErr r = Some mkErr
  end.
Proof.
  unfold Initialize.
  destruct (match err (os_Stat fs (gdPath absPath)) with
            | Some e => _ | None => _ end) as [first|];
    [|intros [= <- <-]; simpl; auto].
  destruct (match val (os_Stat fs (gdPath absPath)) with
            | Some info => _ | None => _ end);
    [intros [= <- <-]; simpl; auto|].
  destruct (os_MkdirAll fs (gdPath absPath) perm_0755) as [fs1 [e|]] eqn:Hmk.
  - intros [= <- <-]. simpl. split; [reflexivity|]. right. eauto.
  - destruct (Write _ fs1) as [fs2' wErr] eqn:Hw. intros [= <- <-]. simpl.
    split; [reflexivity|]. split; [reflexivity|]. eauto.
Qed.

(** On [Scenario.home]: under [/home/u] the marker directory is made and
    the credentials are written; under the regular file [/home/u/.secret]
    nothing is. *)
Lemma Initialize_effects_witness :
  let made := Initialize (os := SimFS.os) (json := SimJSON.json) "/home/u"
                Scenario.home in
  let none := Initialize (os := SimFS.os) (json := SimJSON.json)
                "/home/u/.secret" Scenario.home in
  (pathGD made.1 = "/home/u/.gd" ∧
   initContext made.1 = Some (Context.mk "" "" "" "/home/u") ∧
   ioutil_ReadFile (OS := SimFS.os) made.2 "/home/u/.gd/credentials.json"
   = Ok (SimJSON.encContext (Context.mk "" "" "" "/home/u"))) ∧
  (initContext none.1 = None ∧ none.2 = Scenario.home).
Proof.
  intros made none.
  destruct (Initialize_effects (os := SimFS.os) (json := SimJSON.json)
              "/home/u" Scenario.home made.2 made.1) as [Hgd _];
    [vm_compute; reflexivity|].
  split; [split; [exact Hgd | split; vm_compute; reflexivity]|].
  split; vm_compute; reflexivity.
Defined.

(** X15.  Two sources with the same link path, one after the other in the
    list (two directories with the same base name): when the link of the first
    is created and [os.Stat] still finds the second, the call returns a Mount
    that has a MountPoint for each, both with the same [MountPath], the first
    with [CanClean] true and the second with [CanClean] false, so that only
    the first removes the link when it is unmounted. *)
Theorem MountPoints_same_link_path `{os : OS} `{!StatLaws} `{!LinkLaws}
  (contextPath contextAbsPath : string) (hidden : bool)
  (pre post : list string) (p q : string) (fs : FS) (st : LoopState FS)
  (fs1 : FS) (info : FileInfo) :
  stateBefore contextPath contextAbsPath hidden pre fs = Some st →
  p ∉ pre → q ∉ pre → q ≠ p →
  mountPathOf contextAbsPath q = mountPathOf contextAbsPath p →
  statExists (loopFS st) p →
  hiddenSkips hidden p = false →
  os_Symlink (loopFS st) p (mountPathOf contextAbsPath p) = (fs1, None) →
  os_Stat fs1 q = Ok info →
  hiddenSkips hidden q = false →
  ∃ m,
    (MountPoints contextPath contextAbsPath (pre ++ p :: q :: post)
       hidden fs).1.1 = Some m ∧
    pointsFor p (Mount.Points m)
    = [MountPoint.mk true (relPathOf contextPath p) p
         (mountPathOf contextAbsPath p)] ∧
    pointsFor q (Mount.Points m)
    = [MountPoint.mk false (relPathOf contextPath q) q
         (mountPathOf contextAbsPath p)].
Proof.
  intros Hst Hp Hq Hqp Hsame Hstat Hhid Hlink Hstatq Hhidq.
  set (points := producedPoints contextPath contextAbsPath
                   (pre ++ p :: q :: post) hidden fs).
  assert (Hpp : pointsFor p points
                = [MountPoint.mk true (relPathOf contextPath p) p
                     (mountPathOf contextAbsPath p)]).
  { unfold points.
    rewrite (producedPoints_first contextPath contextAbsPath hidden
               pre (q :: post) p fs st Hp Hst).
    unfold yieldsPoint. unfold statExists in Hstat.
    destruct (val (os_Stat (loopFS st) p)); [|congruence].
    rewrite Hhid, Hlink. reflexivity. }
  assert (Hpq : pointsFor q points
                = [MountPoint.mk false (relPathOf contextPath q) q
                     (mountPathOf contextAbsPath p)]).
  { unfold points.
    destruct (stateBefore_Some contextPath contextAbsPath hidden pre fs st Hst)
      as (c & sh & srcs & fs0 & Hroot & Hloop).
    assert (Hv : visitors st !! p = None).
    { rewrite Hloop. apply mountLoop_visitors. split; [apply lookup_empty|].
      exact Hp. }
    set (st' := mountStep contextPath contextAbsPath hidden st p).
    assert (Hst' : stateBefore contextPath contextAbsPath hidden
                     (pre ++ [p]) fs = Some st').
    { unfold stateBefore. rewrite Hroot. f_equal.
      rewrite mountLoop_app, <- Hloop. reflexivity. }
    assert (Hq' : q ∉ pre ++ [p]).
    { rewrite elem_of_app, list_elem_of_singleton. tauto. }
    assert (Hfs' : loopFS st' = fs1)
      by (now apply mountStep_linked).
    pose proof (producedPoints_first contextPath contextAbsPath hidden
                  (pre ++ [p]) post q fs st' Hq' Hst') as Hfirst.
    rewrite <- app_assoc in Hfirst. cbn [app] in Hfirst. rewrite Hfirst.
    assert (Hne : q ≠ "").
    { intros ->. pose proof (Stat_empty_path fs1) as He.
      rewrite Hstatq in He. discriminate. }
    destruct (Symlink_again _ _ _ _ q Hne Hlink) as (e & Hagain & Hexist).
    unfold yieldsPoint. rewrite Hfs', Hstatq, Hhidq, Hsame, Hagain. simpl.
    rewrite Hexist. reflexivity. }
  pose proof (MountPoints_produced_nonempty contextPath contextAbsPath
                (pre ++ p :: q :: post) hidden fs) as Hmount.
  fold points in Hmount.
  destruct ((MountPoints contextPath contextAbsPath (pre ++ p :: q :: post)
               hidden fs).1.1) as [m|].
  - destruct Hmount as [_ Hpts]. exists m. split; [reflexivity|].
    rewrite Hpts. auto.
  - rewrite Hmount in Hpp. discriminate.
Qed.

(** On [Scenario.twins]: [/x/docs] and [/y/docs] both go to [/mnt/docs];
    the returned Mount has the two MountPoints. *)
Lemma MountPoints_same_link_path_witness :
  ∃ m,
    (MountPoints (os := SimFS.os) "" "/mnt" ["/x/docs"; "/y/docs"] false
       Scenario.twins).1.1 = Some m ∧
    Mount.Points m
    = [MountPoint.mk true "/docs" "/x/docs" "/mnt/docs";
       MountPoint.mk false "/docs" "/y/docs" "/mnt/docs"] ∧
    pointsFor "/y/docs" (Mount.Points m)
    = [MountPoint.mk false "/docs" "/y/docs" "/mnt/docs"].
Proof.
  destruct (MountPoints_same_link_path (os := SimFS.os) "" "/mnt" false
              [] [] "/x/docs" "/y/docs" Scenario.twins
              (mkLoop Scenario.twins ∅ [])
              (SimFS.Symlink Scenario.twins "/x/docs" "/mnt/docs").1
              (mkFileInfo true)) as (m & Hm & _ & Hq);
    [vm_compute; reflexivity | apply not_elem_of_nil | apply not_elem_of_nil
    | discriminate | reflexivity | vm_compute; discriminate | reflexivity
    | vm_compute; reflexivity | vm_compute; reflexivity | reflexivity |].
  exists m. split; [exact Hm|]. split; [|exact Hq].
  vm_compute in Hm. injection Hm as <-. reflexivity.
Defined.
